(** * Shard-aware connection pool of the ScyllaDB C/C++ driver

    A shallow embedding of [src/sharding_info.cpp] (token to shard mapping and
    the parser of the SUPPORTED options) and of [connection_pool.cpp] (the
    per-host pool: dispatch, reconnect loop, close protocol, listener
    notifications), with the properties the specification states about them. *)

From Stdlib Require Import ZArith Lia Bool Ascii String.
From stdpp Require Import gmap strings list fin_maps.

Local Open Scope Z_scope.

(** ** Machine integers

    The driver computes on [int64_t], [int32_t], [int] and [size_t].  A value
    of such a type is a [Z] in the range of the type; the conversions below
    are the two's complement ones (the representation every supported
    compiler uses, and the one C++20 mandates), [>>] on a signed value is the
    arithmetic shift ([Z.shiftr]), and signed addition wraps.  [size_t] is
    64 bits wide. *)

Module MachInt.

Definition wrap64 (z : Z) : Z := z mod 2 ^ 64.
Definition sint64 (z : Z) : Z := (z + 2 ^ 63) mod 2 ^ 64 - 2 ^ 63.
Definition sint32 (z : Z) : Z := (z + 2 ^ 31) mod 2 ^ 32 - 2 ^ 31.

Definition INT64_MIN : Z := - 2 ^ 63.
Definition INT64_MAX : Z := 2 ^ 63 - 1.
Definition CASS_INT64_MIN : Z := INT64_MIN.

Definition in_int64 (z : Z) : Prop := - 2 ^ 63 <= z < 2 ^ 63.
Definition in_int32 (z : Z) : Prop := - 2 ^ 31 <= z < 2 ^ 31.

(** [(size_t) x] for a signed [x]. *)
Definition size_t_of (z : Z) : Z := wrap64 z.

End MachInt.
Export MachInt.

(** ** Outcomes

    Where the C++ code has no defined result the model says so instead of
    inventing one. *)

Inductive fault : Type :=
| UndefinedShift      (* [<<] by a negative count or by 64 or more *)
| DivisionByZero      (* integer [/] or [%] by zero *)
| OutOfBounds         (* [operator[]] past the end of a vector *)
| LengthError         (* [vector::resize] beyond [max_size()] *)
| AssertionFailure.   (* a failed [assert] *)

Inductive outcome (A : Type) : Type :=
| Ok (a : A)
| Fault (f : fault).
Arguments Ok {A} a.
Arguments Fault {A} f.

Definition obind {A B} (x : outcome A) (k : A -> outcome B) : outcome B :=
  match x with
  | Ok a => k a
  | Fault f => Fault f
  end.

#[global] Instance outcome_ret : MRet outcome := fun A a => Ok a.
#[global] Instance outcome_bind : MBind outcome := fun A B k x => obind x k.

Definition is_Ok {A} (x : outcome A) : Prop := exists a, x = Ok a.

(** ** Sharding descriptor ([ShardingInfo]) *)

Record ShardingInfo : Type := mkShardingInfo {
  shards_count : Z;                       (* size_t *)
  partitioner : string;
  sharding_algorithm : string;
  sharding_ignore_MSB : Z;                (* int *)
  shard_aware_port : option Z;            (* CassOptional<int> *)
  shard_aware_port_ssl : option Z         (* CassOptional<int> *)
}.

Record ConnectionShardingInfo : Type := mkConnectionShardingInfo {
  csi_shard_id : Z;                       (* int32_t *)
  csi_sharding_info : ShardingInfo
}.

Definition get_shards_count (si : ShardingInfo) : Z := shards_count si.

(** [token <<= sharding_ignore_MSB_] on an [int64_t]. *)
Definition shl64 (token m : Z) : outcome Z :=
  if (0 <=? m) && (m <? 64) then Ok (sint64 (Z.shiftl token m))
  else Fault UndefinedShift.

(** [ShardingInfo::shard_id].  [tokLo * shards_count_] multiplies an
    [int64_t] by a [size_t]: the product is taken in [uint64_t] and stored
    into an [int64_t]. *)
Definition shard_id (si : ShardingInfo) (token : Z) : outcome Z :=
  let token := sint64 (token + INT64_MIN) in
  token ← shl64 token (sharding_ignore_MSB si);
  let tokLo := Z.land token 0xffffffff in
  let tokHi := Z.land (Z.shiftr token 32) 0xffffffff in
  let mul1 := sint64 (wrap64 (wrap64 tokLo * shards_count si)) in
  let mul2 := sint64 (wrap64 (wrap64 tokHi * shards_count si)) in
  let sum := sint64 (Z.shiftr mul1 32 + mul2) in
  Ok (sint32 (Z.shiftr sum 32)).

(** The reference computation, following the specification's words: remap,
    shift with wrap, split into halves, two partial products, two shifts. *)
Definition shard_id_reference (t n m : Z) : Z :=
  let u := (t + 2 ^ 63) mod 2 ^ 64 in
  let u := (u * 2 ^ m) mod 2 ^ 64 in
  let lo := u mod 2 ^ 32 in
  let hi := u / 2 ^ 32 in
  let mul1 := lo * n in
  let mul2 := hi * n in
  (mul1 / 2 ^ 32 + mul2) / 2 ^ 32.

(** The same value as the top bits of the 128-bit product. *)
Definition shard_id_wide (t n m : Z) : Z :=
  let u := (t + 2 ^ 63) mod 2 ^ 64 in
  let u := (u * 2 ^ m) mod 2 ^ 64 in
  (u * n) / 2 ^ 64.

Definition sharding (n m : Z) : ShardingInfo :=
  mkShardingInfo n "org.apache.cassandra.dht.Murmur3Partitioner"
                 "biased-token-round-robin" m None None.

(** ** Parsing the SUPPORTED options

    [StringMultimap] maps a key to the vector of its values. *)

Definition SCYLLA_SHARD_PARAM_KEY : string := "SCYLLA_SHARD".
Definition SCYLLA_NR_SHARDS_PARAM_KEY : string := "SCYLLA_NR_SHARDS".
Definition SCYLLA_PARTITIONER : string := "SCYLLA_PARTITIONER".
Definition SCYLLA_SHARDING_ALGORITHM : string := "SCYLLA_SHARDING_ALGORITHM".
Definition SCYLLA_SHARDING_IGNORE_MSB : string := "SCYLLA_SHARDING_IGNORE_MSB".
Definition SCYLLA_SHARD_AWARE_PORT : string := "SCYLLA_SHARD_AWARE_PORT".
Definition SCYLLA_SHARD_AWARE_PORT_SSL : string := "SCYLLA_SHARD_AWARE_PORT_SSL".

Definition Murmur3Partitioner : string := "org.apache.cassandra.dht.Murmur3Partitioner".
Definition biased_token_round_robin : string := "biased-token-round-robin".

Module Atoi.

(** [std::atoi]: skip white space, read an optional sign, then the longest
    run of decimal digits; no digits give 0.  The C standard fixes the result
    only when the number fits an [int].  For a longer run of digits the model
    keeps the low 32 bits of the number: this is what a library that
    accumulates in an [int] returns, and what one that converts through
    [strtol] returns as long as the number fits a [long]; beyond that the
    latter saturates and the model does not follow it.  The statements below
    use the value of [atoi] only on texts whose number fits an [int], or hold
    for whatever [int] it returns. *)

Definition isspace (c : ascii) : bool :=
  let n := nat_of_ascii c in
  (n =? 32)%nat || ((9 <=? n)%nat && (n <=? 13)%nat).

Definition digit_of (c : ascii) : option Z :=
  let n := Z.of_nat (nat_of_ascii c) in
  if (48 <=? n) && (n <=? 57) then Some (n - 48) else None.

Fixpoint skip_spaces (s : string) : string :=
  match s with
  | String c s' => if isspace c then skip_spaces s' else s
  | EmptyString => s
  end.

Fixpoint digits (acc : Z) (s : string) : Z :=
  match s with
  | String c s' =>
      match digit_of c with
      | Some d => digits (10 * acc + d) s'
      | None => acc
      end
  | EmptyString => acc
  end.

Definition atoi (s : string) : Z :=
  match skip_spaces s with
  | String "-"%char s' => sint32 (- digits 0 s')
  | String "+"%char s' => sint32 (digits 0 s')
  | s' => sint32 (digits 0 s')
  end.

End Atoi.
Export Atoi.

Definition count (params : gmap string (list string)) (key : string) : nat :=
  match params !! key with Some _ => 1 | None => 0 end.

Definition at_key (params : gmap string (list string)) (key : string) : list string :=
  default [] (params !! key).

(** [ShardingInfo::parse_string] *)
Definition parse_string (params : gmap string (list string)) (key : string)
  : option string :=
  if (count params key =? 0)%nat || negb (length (at_key params key) =? 1)%nat
  then None
  else head (at_key params key).

(** [ShardingInfo::parse_int] *)
Definition parse_int (params : gmap string (list string)) (key : string)
  : option Z :=
  match parse_string params key with
  | None => None
  | Some val => Some (atoi val)
  end.

(** [ShardingInfo::parse_sharding_info] *)
Definition parse_sharding_info (params : gmap string (list string))
  : option ConnectionShardingInfo :=
  let shard_id := parse_int params SCYLLA_SHARD_PARAM_KEY in
  let shards_count := parse_int params SCYLLA_NR_SHARDS_PARAM_KEY in
  let partitioner := parse_string params SCYLLA_PARTITIONER in
  let sharding_algorithm := parse_string params SCYLLA_SHARDING_ALGORITHM in
  let sharding_ignore_MSB := parse_int params SCYLLA_SHARDING_IGNORE_MSB in
  let shard_aware_port := parse_int params SCYLLA_SHARD_AWARE_PORT in
  let shard_aware_port_ssl := parse_int params SCYLLA_SHARD_AWARE_PORT_SSL in
  match shard_id, shards_count, partitioner, sharding_algorithm, sharding_ignore_MSB with
  | Some shard_id, Some shards_count, Some partitioner, Some sharding_algorithm,
    Some sharding_ignore_MSB =>
      if negb (String.eqb partitioner Murmur3Partitioner)
         || negb (String.eqb sharding_algorithm biased_token_round_robin)
      then None
      else Some (mkConnectionShardingInfo shard_id
                   (mkShardingInfo (size_t_of shards_count) partitioner
                      sharding_algorithm sharding_ignore_MSB
                      shard_aware_port shard_aware_port_ssl))
  | _, _, _, _, _ => None
  end.

Definition supported (shard nr part alg msb : list string)
  : gmap string (list string) :=
  <[SCYLLA_SHARD_PARAM_KEY := shard]>
    (<[SCYLLA_NR_SHARDS_PARAM_KEY := nr]>
       (<[SCYLLA_PARTITIONER := part]>
          (<[SCYLLA_SHARDING_ALGORITHM := alg]>
             (<[SCYLLA_SHARDING_IGNORE_MSB := msb]> ∅)))).


(** ** The connection pool *)

Inductive CloseState : Type :=
| CLOSE_STATE_OPEN
| CLOSE_STATE_CLOSING
| CLOSE_STATE_WAITING_FOR_CONNECTIONS
| CLOSE_STATE_CLOSED.

Inductive NotifyState : Type :=
| NOTIFY_STATE_NEW
| NOTIFY_STATE_UP
| NOTIFY_STATE_DOWN
| NOTIFY_STATE_CRITICAL.

#[global] Instance CloseState_eq_dec : EqDecision CloseState.
Proof. solve_decision. Defined.
#[global] Instance NotifyState_eq_dec : EqDecision NotifyState.
Proof. solve_decision. Defined.

(** Modelled from the spec: a pooled connection (its class is outside the
    pool's source file) carries a shard id, an inflight request count and a
    closing flag; [conn_id] stands for the address of the object, which is
    what [std::remove] compares. *)
Record PooledConnection : Type := mkConn {
  conn_id : nat;
  conn_shard_id : Z;                      (* int32_t *)
  inflight_request_count : Z;
  is_closing : bool
}.

(** Modelled from the spec: a reconnection schedule is a stateful generator
    of delays; the model keeps its identity and how many delays were taken
    from it. *)
Record ReconnectionSchedule : Type := mkSchedule {
  schedule_id : nat;
  delays_taken : nat
}.

Definition next_delay_ms (s : ReconnectionSchedule) : ReconnectionSchedule :=
  mkSchedule (schedule_id s) (S (delays_taken s)).

(** Modelled from the spec: a delayed connector reports ok, canceled, or a
    critical or transient error, and keeps its desired shard readable after
    completion.  [connector_id] stands for the address of the object;
    [release_connection] is meaningful when [is_ok] holds. *)
Record DelayedConnector : Type := mkConnector {
  connector_id : nat;
  desired_shard_num : option Z;           (* CassOptional<int32_t> *)
  is_ok : bool;
  is_canceled : bool;
  is_critical_error : bool;
  release_connection : PooledConnection;
  error_code : Z;
  error_message : string
}.

(** What the pool does to its collaborators, in order: calls on the listener,
    [close()] on a connection, [cancel()] and [delayed_connect()] on a
    connector.  [DelayedConnect k d s i] is the start of connector [k] with
    desired shard [d] after the [i]-th delay of schedule [s]. *)
Inductive event : Type :=
| OnPoolUp
| OnPoolDown
| OnPoolCriticalError (code : Z) (message : string)
| OnClose
| ConnClose (c : nat)
| ConnectorCancel (k : nat)
| DelayedConnect (k : nat) (desired : option Z) (schedule : nat) (nth : nat).

#[global] Instance event_eq_dec : EqDecision event.
Proof. solve_decision. Defined.

Record ConnectionPool : Type := mkPool {
  host_sharding_info : option ShardingInfo;        (* host_->sharding_info() *)
  num_connections_per_host : Z;                    (* settings_, size_t *)
  close_state_ : CloseState;
  notify_state_ : NotifyState;
  connections_by_shard_ : list (list PooledConnection);
  num_connections_per_shard_ : Z;                  (* size_t *)
  pending_connections_ : list DelayedConnector;
  reconnection_schedules_ : gmap nat ReconnectionSchedule;
  ref_count_ : Z;                                  (* the self-reference *)
  trace : list event;                              (* calls on collaborators *)
  next_connector : nat;                            (* next fresh connector *)
  next_schedule : nat                              (* next fresh schedule *)
}.

Section Setters.
Context (p : ConnectionPool).

Definition set_close_state (c : CloseState) : ConnectionPool :=
  mkPool (host_sharding_info p) (num_connections_per_host p) c (notify_state_ p)
    (connections_by_shard_ p) (num_connections_per_shard_ p)
    (pending_connections_ p) (reconnection_schedules_ p) (ref_count_ p)
    (trace p) (next_connector p) (next_schedule p).

Definition set_notify_state (n : NotifyState) : ConnectionPool :=
  mkPool (host_sharding_info p) (num_connections_per_host p) (close_state_ p) n
    (connections_by_shard_ p) (num_connections_per_shard_ p)
    (pending_connections_ p) (reconnection_schedules_ p) (ref_count_ p)
    (trace p) (next_connector p) (next_schedule p).

Definition set_connections (v : list (list PooledConnection)) : ConnectionPool :=
  mkPool (host_sharding_info p) (num_connections_per_host p) (close_state_ p)
    (notify_state_ p) v (num_connections_per_shard_ p)
    (pending_connections_ p) (reconnection_schedules_ p) (ref_count_ p)
    (trace p) (next_connector p) (next_schedule p).

Definition set_pending (v : list DelayedConnector) : ConnectionPool :=
  mkPool (host_sharding_info p) (num_connections_per_host p) (close_state_ p)
    (notify_state_ p) (connections_by_shard_ p) (num_connections_per_shard_ p)
    v (reconnection_schedules_ p) (ref_count_ p)
    (trace p) (next_connector p) (next_schedule p).

Definition set_schedules (m : gmap nat ReconnectionSchedule) : ConnectionPool :=
  mkPool (host_sharding_info p) (num_connections_per_host p) (close_state_ p)
    (notify_state_ p) (connections_by_shard_ p) (num_connections_per_shard_ p)
    (pending_connections_ p) m (ref_count_ p)
    (trace p) (next_connector p) (next_schedule p).

Definition emit (es : list event) : ConnectionPool :=
  mkPool (host_sharding_info p) (num_connections_per_host p) (close_state_ p)
    (notify_state_ p) (connections_by_shard_ p) (num_connections_per_shard_ p)
    (pending_connections_ p) (reconnection_schedules_ p) (ref_count_ p)
    (trace p ++ es) (next_connector p) (next_schedule p).

Definition dec_ref : ConnectionPool :=
  mkPool (host_sharding_info p) (num_connections_per_host p) (close_state_ p)
    (notify_state_ p) (connections_by_shard_ p) (num_connections_per_shard_ p)
    (pending_connections_ p) (reconnection_schedules_ p) (ref_count_ p - 1)
    (trace p) (next_connector p) (next_schedule p).

Definition fresh_connector : ConnectionPool :=
  mkPool (host_sharding_info p) (num_connections_per_host p) (close_state_ p)
    (notify_state_ p) (connections_by_shard_ p) (num_connections_per_shard_ p)
    (pending_connections_ p) (reconnection_schedules_ p) (ref_count_ p)
    (trace p) (S (next_connector p)) (next_schedule p).

Definition fresh_schedule : ConnectionPool :=
  mkPool (host_sharding_info p) (num_connections_per_host p) (close_state_ p)
    (notify_state_ p) (connections_by_shard_ p) (num_connections_per_shard_ p)
    (pending_connections_ p) (reconnection_schedules_ p) (ref_count_ p)
    (trace p) (next_connector p) (S (next_schedule p)).

End Setters.

(** The slot a connection's [shard_id()] selects: the [int32_t] becomes a
    [size_t] index. *)
Definition slot_index (shard : Z) : nat := Z.to_nat (size_t_of shard).

(** [least_busy_comp] *)
Definition least_busy_comp (a b : PooledConnection) : bool :=
  if is_closing a then false
  else if is_closing b then true
  else inflight_request_count a <? inflight_request_count b.

(** [std::min(a, b, comp)]: [b] when [comp(b, a)], else [a]. *)
Definition std_min {A} (a b : A) (comp : A -> A -> bool) : A :=
  if comp b a then b else a.

(** [std::min_element(first, last, comp)]: [None] is [last]. *)
Definition min_element {A} (comp : A -> A -> bool) (l : list A) : option A :=
  match l with
  | [] => None
  | x :: r => Some (fold_left (fun smallest y => if comp y smallest then y else smallest) r x)
  end.

(** [ConnectionPool::has_connections] *)
Definition has_connections (p : ConnectionPool) : bool :=
  existsb (fun v => negb (Nat.eqb (length v) 0)) (connections_by_shard_ p).

(** The first branch of [find_least_busy]: the two nested loops over all
    slots. *)
Definition least_busy_step (least_busy : option PooledConnection)
  (conn : PooledConnection) : option PooledConnection :=
  if negb (is_closing conn) then
    Some (match least_busy with
          | Some lb => std_min lb conn least_busy_comp
          | None => conn
          end)
  else least_busy.

Definition find_least_busy_all (p : ConnectionPool) : option PooledConnection :=
  fold_left (fun least_busy shard_pool => fold_left least_busy_step shard_pool least_busy)
            (connections_by_shard_ p) None.

(** The test [x] of a [CassOptional] or of a pointer. *)
Definition has_value {A} (x : option A) : bool :=
  match x with Some _ => true | None => false end.

(** [ConnectionPool::find_least_busy].  The recursive call passes
    [CASS_INT64_MIN], for which the first branch is taken.  Past the first
    test the host has a descriptor. *)
Definition find_least_busy (p : ConnectionPool) (token : Z)
  : outcome (option PooledConnection) :=
  if (token =? CASS_INT64_MIN) || negb (has_value (host_sharding_info p))
  then Ok (find_least_busy_all p)
  else
    match host_sharding_info p with
    | None => Ok (find_least_busy_all p)
    | Some si =>
        s ← shard_id si token;
        match connections_by_shard_ p !! slot_index s with
        | None => Fault OutOfBounds
        | Some shard_pool =>
            match min_element least_busy_comp shard_pool with
            | None => Ok (find_least_busy_all p)
            | Some it =>
                if is_closing it then Ok (find_least_busy_all p) else Ok (Some it)
            end
        end
    end.

(** *** Notifications *)

(** [ConnectionPool::notify_up_or_down] *)
Definition notify_up_or_down (p : ConnectionPool) : ConnectionPool :=
  if (bool_decide (notify_state_ p = NOTIFY_STATE_NEW)
      || bool_decide (notify_state_ p = NOTIFY_STATE_UP))
     && negb (has_connections p)
  then emit (set_notify_state p NOTIFY_STATE_DOWN) [OnPoolDown]
  else if (bool_decide (notify_state_ p = NOTIFY_STATE_NEW)
           || bool_decide (notify_state_ p = NOTIFY_STATE_DOWN))
          && has_connections p
  then emit (set_notify_state p NOTIFY_STATE_UP) [OnPoolUp]
  else p.

(** [ConnectionPool::notify_critical_error] *)
Definition notify_critical_error (code : Z) (message : string)
  (p : ConnectionPool) : ConnectionPool :=
  if negb (bool_decide (notify_state_ p = NOTIFY_STATE_CRITICAL))
  then emit (set_notify_state p NOTIFY_STATE_CRITICAL) [OnPoolCriticalError code message]
  else p.

(** *** Reconnecting *)

(** [si && (si->shard_aware_port() || si->shard_aware_port_ssl())] *)
Definition has_shard_aware_port (si : option ShardingInfo) : bool :=
  match si with
  | Some si => has_value (shard_aware_port si) || has_value (shard_aware_port_ssl si)
  | None => false
  end.

(** [ConnectionPool::schedule_reconnect]: a new connector, a new schedule
    unless one is handed over, the next delay of the schedule, the desired
    shard when the host advertises a shard-aware port, and the start of the
    delayed connect. *)
Definition schedule_reconnect (schedule : option ReconnectionSchedule)
  (desired_shard_num : option Z) (p : ConnectionPool) : ConnectionPool :=
  let k := next_connector p in
  let p := fresh_connector p in
  let '(schedule, p) :=
    match schedule with
    | Some s => (s, p)
    | None => (mkSchedule (next_schedule p) 0, fresh_schedule p)
    end in
  let nth := delays_taken schedule in
  let p := set_schedules p (<[k := next_delay_ms schedule]> (reconnection_schedules_ p)) in
  let desired :=
    match desired_shard_num with
    | Some d => if has_shard_aware_port (host_sharding_info p) then Some d else None
    | None => None
    end in
  let connector :=
    mkConnector k desired false false false (mkConn 0 0 0 false) 0 "" in
  let p := set_pending p (pending_connections_ p ++ [connector]) in
  emit p [DelayedConnect k desired (schedule_id schedule) nth].

(** *** Closing *)

(** [ConnectionPool::maybe_closed] *)
Definition maybe_closed (p : ConnectionPool) : ConnectionPool :=
  if bool_decide (close_state_ p = CLOSE_STATE_WAITING_FOR_CONNECTIONS)
     && negb (has_connections p)
     && bool_decide (pending_connections_ p = [])
  then
    let p := set_close_state p CLOSE_STATE_CLOSED in
    let p := if bool_decide (notify_state_ p = NOTIFY_STATE_UP)
             then emit p [OnPoolDown] else p in
    let p := emit p [OnClose] in
    dec_ref p
  else p.

(** Modelled from the spec: [close()] on a pooled connection begins the
    shutdown and sets its closing flag; the pool hears of the teardown later,
    through [close_connection]. *)
Definition mark_closing (c : PooledConnection) : PooledConnection :=
  mkConn (conn_id c) (conn_shard_id c) (inflight_request_count c) true.

(** The two loops of [internal_close] over the copied containers.  The
    connections are shared with the pool's own vectors, so the closing flag
    shows there. *)
Definition close_connections (p : ConnectionPool) : ConnectionPool :=
  let connections_per_shards := connections_by_shard_ p in
  emit (set_connections p (map (map mark_closing) (connections_by_shard_ p)))
       (map (fun c => ConnClose (conn_id c)) (concat connections_per_shards)).

Definition cancel_connectors (p : ConnectionPool) : ConnectionPool :=
  let pending_connections := pending_connections_ p in
  emit p (map (fun k => ConnectorCancel (connector_id k)) pending_connections).

(** [ConnectionPool::internal_close].  Modelled from the spec: a canceled
    connector fires its callback, [on_reconnect], and a closed connection its
    hook, [close_connection], after the call that asked for it has returned;
    here both are later calls into the pool, and [cancel()] and [close()]
    themselves are recorded in the trace. *)
Definition internal_close (p : ConnectionPool) : ConnectionPool :=
  if bool_decide (close_state_ p = CLOSE_STATE_OPEN) then
    let p := set_close_state p CLOSE_STATE_CLOSING in
    let p := close_connections p in
    let p := cancel_connectors p in
    let p := set_close_state p CLOSE_STATE_WAITING_FOR_CONNECTIONS in
    maybe_closed p
  else p.

(** [ConnectionPool::close] *)
Definition close (p : ConnectionPool) : ConnectionPool := internal_close p.

(** *** Adding and removing connections *)

(** [ConnectionPool::add_connection] *)
Definition add_connection (connection : PooledConnection) (p : ConnectionPool)
  : outcome ConnectionPool :=
  let new_connections_shard := slot_index (conn_shard_id connection) in
  match connections_by_shard_ p !! new_connections_shard with
  | None => Fault OutOfBounds
  | Some shard_pool =>
      Ok (set_connections p
            (<[new_connections_shard := shard_pool ++ [connection]]> (connections_by_shard_ p)))
  end.

(** [std::remove] and [erase] of one object, found by its address. *)
Definition remove_connection (c : PooledConnection) (v : list PooledConnection)
  : list PooledConnection :=
  filter (fun x => conn_id x ≠ conn_id c) v.

Definition remove_connector (k : DelayedConnector) (v : list DelayedConnector)
  : list DelayedConnector :=
  filter (fun x => connector_id x ≠ connector_id k) v.

(** [ConnectionPool::close_connection] *)
Definition close_connection (connection : PooledConnection) (p : ConnectionPool)
  : outcome ConnectionPool :=
  let i := slot_index (conn_shard_id connection) in
  match connections_by_shard_ p !! i with
  | None => Fault OutOfBounds
  | Some shard_pool =>
      let p := set_connections p
                 (<[i := remove_connection connection shard_pool]> (connections_by_shard_ p)) in
      if negb (bool_decide (close_state_ p = CLOSE_STATE_OPEN)) then Ok (maybe_closed p)
      else
        let p := notify_up_or_down p in
        Ok (schedule_reconnect None (Some (conn_shard_id connection)) p)
  end.

(** [ConnectionPool::on_reconnect] *)
Definition on_reconnect (connector : DelayedConnector) (p : ConnectionPool)
  : outcome ConnectionPool :=
  let p := set_pending p (remove_connector connector (pending_connections_ p)) in
  match reconnection_schedules_ p !! connector_id connector with
  | None => Fault AssertionFailure
  | Some schedule =>
      let p := set_schedules p (delete (connector_id connector) (reconnection_schedules_ p)) in
      if negb (bool_decide (close_state_ p = CLOSE_STATE_OPEN)) then Ok (maybe_closed p)
      else if is_ok connector then
        let pooled_conn := release_connection connector in
        let new_connections_shard := size_t_of (conn_shard_id pooled_conn) in
        if (new_connections_shard <? Z.of_nat (length (connections_by_shard_ p)))
           && (Z.of_nat (length (default [] (connections_by_shard_ p !! Z.to_nat new_connections_shard)))
               <? num_connections_per_shard_ p)
        then
          p ← add_connection pooled_conn p;
          Ok (notify_up_or_down p)
        else
          let p := emit p [ConnClose (conn_id pooled_conn)] in
          Ok (schedule_reconnect (Some schedule) (desired_shard_num connector) p)
      else if negb (is_canceled connector) then
        if is_critical_error connector then
          let p := notify_critical_error (error_code connector) (error_message connector) p in
          Ok (internal_close p)
        else
          Ok (schedule_reconnect (Some schedule) (desired_shard_num connector) p)
      else Ok p
  end.

(** *** Construction *)

(** No [vector::max_size()] exceeds [PTRDIFF_MAX]; [resize] beyond it throws
    [std::length_error]. *)
Definition vector_max_size : Z := 2 ^ 63 - 1.

Fixpoint foldM {A S : Type} (f : S -> A -> outcome S) (l : list A) (s : S)
  : outcome S :=
  match l with
  | [] => Ok s
  | x :: r => s' ← f s x; foldM f r s'
  end.

(** The body of the constructor's loop over the supplied connections. *)
Definition place_connection (p : ConnectionPool) (connection : PooledConnection)
  : outcome ConnectionPool :=
  if negb (is_closing connection) then
    match connections_by_shard_ p !! slot_index (conn_shard_id connection) with
    | None => Fault OutOfBounds
    | Some shard_pool =>
        if Z.of_nat (length shard_pool) <? num_connections_per_shard_ p
        then add_connection connection p
        else Ok (emit p [ConnClose (conn_id connection)])
    end
  else Ok p.

(** The body of the constructor's loop over the slots: [needed] is an [int]
    computed from a [size_t] difference. *)
Definition reconnect_missing (p : ConnectionPool) (shard_num : nat) : ConnectionPool :=
  let size := Z.of_nat (length (default [] (connections_by_shard_ p !! shard_num))) in
  let needed := sint32 (wrap64 (num_connections_per_shard_ p - size)) in
  Nat.iter (Z.to_nat needed)
    (fun p =>
       if has_shard_aware_port (host_sharding_info p)
       then schedule_reconnect None (Some (sint32 (Z.of_nat shard_num))) p
       else schedule_reconnect None None p)
    p.

(** [ConnectionPool::ConnectionPool]: the arguments the pool's behaviour
    depends on are the supplied connections, the host's sharding descriptor
    and [settings.num_connections_per_host]. *)
Definition ConnectionPool_new (connections : list PooledConnection)
  (si : option ShardingInfo) (num_connections_per_host : Z)
  : outcome ConnectionPool :=
  sizes ← match si with
          | Some si =>
              let hosts_shard_cnt := get_shards_count si in
              if vector_max_size <? hosts_shard_cnt then Fault LengthError
              else if hosts_shard_cnt =? 0 then Fault DivisionByZero
              else Ok (hosts_shard_cnt,
                       num_connections_per_host / hosts_shard_cnt
                       + (if num_connections_per_host mod hosts_shard_cnt =? 0
                          then 0 else 1))
          | None => Ok (1, num_connections_per_host)
          end;
  let p := mkPool si num_connections_per_host CLOSE_STATE_OPEN NOTIFY_STATE_NEW
             (replicate (Z.to_nat (fst sizes)) []) (snd sizes) [] ∅ 1 [] 0 0 in
  p ← foldM place_connection connections p;
  let p := notify_up_or_down p in
  Ok (fold_left reconnect_missing (seq 0 (length (connections_by_shard_ p))) p).

(** *** Executions

    The calls that change what the pool's listener can observe: [close()]
    from the session, [close_connection] from a pooled connection that went
    away, [on_reconnect] from a connector that completed. *)

Inductive op : Type :=
| Close
| CloseConnection (connection : PooledConnection)
| OnReconnect (connector : DelayedConnector).

Definition run_op (p : ConnectionPool) (o : op) : outcome ConnectionPool :=
  match o with
  | Close => Ok (close p)
  | CloseConnection c => close_connection c p
  | OnReconnect k => on_reconnect k p
  end.

Definition exec (ops : list op) (p : ConnectionPool) : outcome ConnectionPool :=
  foldM run_op ops p.

(** The listener's view of a trace. *)
Definition is_notification (e : event) : bool :=
  match e with
  | OnPoolUp | OnPoolDown | OnPoolCriticalError _ _ | OnClose => true
  | _ => false
  end.

Definition notifications (p : ConnectionPool) : list event :=
  List.filter is_notification (trace p).

Definition canceled (k : DelayedConnector) : DelayedConnector :=
  mkConnector (connector_id k) (desired_shard_num k) false true false
    (release_connection k) 0 "".

Definition failed_critically (code : Z) (message : string) (k : DelayedConnector)
  : DelayedConnector :=
  mkConnector (connector_id k) (desired_shard_num k) false false true
    (release_connection k) code message.

Definition failed_transiently (code : Z) (message : string) (k : DelayedConnector)
  : DelayedConnector :=
  mkConnector (connector_id k) (desired_shard_num k) false false false
    (release_connection k) code message.

Definition connected (c : PooledConnection) (k : DelayedConnector) : DelayedConnector :=
  mkConnector (connector_id k) (desired_shard_num k) true false false c 0 "".


(** ** Specification-level notions *)

(** The sharding parameters for which the token arithmetic stays inside the
    machine types: a shard count an [int] can hold (up to [2^31]) and a shift
    count that [<<] is defined for. *)
Definition usable (si : ShardingInfo) : Prop :=
  1 <= shards_count si <= 2 ^ 31 /\ 0 <= sharding_ignore_MSB si < 64.

(** The five required keys are singletons and the partitioner and the
    algorithm are the supported ones. *)
Definition required_present (params : gmap string (list string)) : Prop :=
  (exists v, params !! SCYLLA_SHARD_PARAM_KEY = Some [v]) /\
  (exists v, params !! SCYLLA_NR_SHARDS_PARAM_KEY = Some [v]) /\
  params !! SCYLLA_PARTITIONER = Some [Murmur3Partitioner] /\
  params !! SCYLLA_SHARDING_ALGORITHM = Some [biased_token_round_robin] /\
  (exists v, params !! SCYLLA_SHARDING_IGNORE_MSB = Some [v]).

(** The options with the two port keys replaced: [None] removes the key. *)
Definition with_ports (port port_ssl : option (list string))
  (params : gmap string (list string)) : gmap string (list string) :=
  partial_alter (fun _ => port) SCYLLA_SHARD_AWARE_PORT
    (partial_alter (fun _ => port_ssl) SCYLLA_SHARD_AWARE_PORT_SSL params).

(** [least_busy_of l r]: [r] is the least busy connection of [l] as the
    specification words it.  Closing connections do not count; [r] is none
    when nothing else is there; otherwise it is a non-closing connection no
    other non-closing one has fewer inflight requests than, and the first
    such in the order of [l]. *)
Definition least_busy_of (l : list PooledConnection) (r : option PooledConnection)
  : Prop :=
  match r with
  | None => forall c, c ∈ l -> is_closing c = true
  | Some c =>
      is_closing c = false /\
      exists l1 l2,
        l = l1 ++ c :: l2 /\
        (forall x, x ∈ l1 -> is_closing x = false ->
                   inflight_request_count c < inflight_request_count x) /\
        (forall x, x ∈ l2 -> is_closing x = false ->
                   inflight_request_count c <= inflight_request_count x)
  end.

(** A slot without a candidate: empty, or holding closing connections only. *)
Definition no_live_connection (l : list PooledConnection) : Prop :=
  forall c, c ∈ l -> is_closing c = true.

(** [std::min_element] under [least_busy_comp]: the running smallest is a
    closing connection while only closing ones were seen, and the least busy
    of the prefix afterwards. *)
Definition smallest_so_far (pre : list PooledConnection) (s : PooledConnection) : Prop :=
  (is_closing s = true /\ no_live_connection pre) \/ least_busy_of pre (Some s).

(** The pool covers the shards of its host: one slot per shard, for sharding
    parameters the token arithmetic is defined for. *)
Definition covers_host (p : ConnectionPool) : Prop :=
  match host_sharding_info p with
  | Some si =>
      usable si /\ Z.of_nat (length (connections_by_shard_ p)) = shards_count si
  | None => True
  end.

(** The pool as seen when the host has no descriptor. *)
Definition without_descriptor (p : ConnectionPool) : ConnectionPool :=
  mkPool None (num_connections_per_host p) (close_state_ p) (notify_state_ p)
    (connections_by_shard_ p) (num_connections_per_shard_ p)
    (pending_connections_ p) (reconnection_schedules_ p) (ref_count_ p)
    (trace p) (next_connector p) (next_schedule p).

(** No slot has room for the connection: the slot of its shard is full, or
    there is no such slot. *)
Definition no_room (p : ConnectionPool) (c : PooledConnection) : Prop :=
  forall slot,
    connections_by_shard_ p !! slot_index (conn_shard_id c) = Some slot ->
    num_connections_per_shard_ p <= Z.of_nat (length slot).

(** A connector that carries a desired shard was scheduled for a host that
    advertises a shard-aware port: [schedule_reconnect] sets no other. *)
Definition desired_shard_honoured (p : ConnectionPool) (k : DelayedConnector) : Prop :=
  desired_shard_num k = None \/ has_shard_aware_port (host_sharding_info p) = true.

(** The pool at the end of the two loops of [internal_close], before the
    terminal test. *)
Definition waiting_for_connections (p : ConnectionPool) : ConnectionPool :=
  set_close_state
    (cancel_connectors (close_connections (set_close_state p CLOSE_STATE_CLOSING)))
    CLOSE_STATE_WAITING_FOR_CONNECTIONS.

(** The terminal condition of the close protocol. *)
Definition terminal (p : ConnectionPool) : Prop :=
  close_state_ p = CLOSE_STATE_WAITING_FOR_CONNECTIONS /\
  has_connections p = false /\
  pending_connections_ p = [].

(** The number of slots the constructor asks for: the host's shard count, or
    one for a host without a descriptor. *)
Definition host_shard_slots (si : option ShardingInfo) : Z :=
  match si with
  | Some si => get_shards_count si
  | None => 1
  end.

(** The shard count of a host, 0 when it has no descriptor, and the typing of
    the count as a [size_t]. *)
Definition host_shards_count (si : option ShardingInfo) : Z :=
  match si with
  | Some si => shards_count si
  | None => 0
  end.

Definition shards_count_typed (si : option ShardingInfo) : Prop :=
  0 <= host_shards_count si < 2 ^ 64.

(** Every supplied connection that is not closing reports a shard below
    [max(1, shards_count)]. *)
Definition shards_in_range (connections : list PooledConnection)
  (si : option ShardingInfo) : Prop :=
  Forall (fun c => is_closing c = false ->
                   size_t_of (conn_shard_id c) < Z.max 1 (host_shards_count si))
         connections.

(** Every pending connector is a distinct object, older than the next one to
    be created, with a schedule filed under it. *)
Definition pending_scheduled (p : ConnectionPool) : Prop :=
  NoDup (map connector_id (pending_connections_ p)) /\
  forall k, k ∈ pending_connections_ p ->
            (connector_id k < next_connector p)%nat /\
            is_Some (reconnection_schedules_ p !! connector_id k).

(** The reports of the connectors of [l], all canceled, in the order of [l]. *)
Definition cancellations (l : list DelayedConnector) : list op :=
  map (fun k => OnReconnect (canceled k)) l.

(** ** The listener's view

    What the two state dimensions and the listener show of a pool: the close
    state, the notify state, the self-reference and the notifications so far.
    The pool's methods move the view along the steps below and along no
    other. *)

Record view : Type := mkView {
  v_close : CloseState;
  v_notify : NotifyState;
  v_refs : Z;
  v_events : list event
}.

Definition view_of (p : ConnectionPool) : view :=
  mkView (close_state_ p) (notify_state_ p) (ref_count_ p) (notifications p).

Inductive vstep : view -> view -> Prop :=
| vstep_down c n r es :
    n = NOTIFY_STATE_NEW \/ n = NOTIFY_STATE_UP ->
    vstep (mkView c n r es) (mkView c NOTIFY_STATE_DOWN r (es ++ [OnPoolDown]))
| vstep_up c n r es :
    n = NOTIFY_STATE_NEW \/ n = NOTIFY_STATE_DOWN ->
    vstep (mkView c n r es) (mkView c NOTIFY_STATE_UP r (es ++ [OnPoolUp]))
| vstep_critical c n r es code message :
    n <> NOTIFY_STATE_CRITICAL ->
    vstep (mkView c n r es)
          (mkView c NOTIFY_STATE_CRITICAL r (es ++ [OnPoolCriticalError code message]))
| vstep_closing n r es :
    vstep (mkView CLOSE_STATE_OPEN n r es)
          (mkView CLOSE_STATE_WAITING_FOR_CONNECTIONS n r es)
| vstep_closed n r es :
    vstep (mkView CLOSE_STATE_WAITING_FOR_CONNECTIONS n r es)
          (mkView CLOSE_STATE_CLOSED n (r - 1)
             (es ++ (if bool_decide (n = NOTIFY_STATE_UP) then [OnPoolDown] else [])
                 ++ [OnClose])).

Definition initial_view : view :=
  mkView CLOSE_STATE_OPEN NOTIFY_STATE_NEW 1 [].

Definition is_on_close (e : event) : bool :=
  match e with OnClose => true | _ => false end.

Definition is_critical_error_event (e : event) : bool :=
  match e with OnPoolCriticalError _ _ => true | _ => false end.

(** How many times [on_close], and [on_pool_critical_error], were emitted. *)
Definition closes (v : view) : nat := length (List.filter is_on_close (v_events v)).
Definition criticals (v : view) : nat :=
  length (List.filter is_critical_error_event (v_events v)).

(** [on_close] was emitted once if the pool is closed and not at all
    otherwise, and the self-reference is held until then. *)
Definition closed_once (v : view) : Prop :=
  (v_close v = CLOSE_STATE_CLOSED /\ closes v = 1%nat /\ v_refs v = 0) \/
  (v_close v <> CLOSE_STATE_CLOSED /\ closes v = 0%nat /\ v_refs v = 1).

(** [on_pool_critical_error] was emitted once if the notify state is
    CRITICAL and not at all otherwise. *)
Definition critical_once (v : view) : Prop :=
  (v_notify v = NOTIFY_STATE_CRITICAL /\ criticals v = 1%nat) \/
  (v_notify v <> NOTIFY_STATE_CRITICAL /\ criticals v = 0%nat).

(** ** Sample data *)

(** Four shards; a connection with five inflight requests on shard 0 and an
    idle one on shard 1. *)
Definition busy_on_shard_0 : PooledConnection := mkConn 1 0 5 false.
Definition idle_on_shard_1 : PooledConnection := mkConn 2 1 0 false.

Definition sample_pool : ConnectionPool :=
  mkPool (Some (sharding 4 12)) 4 CLOSE_STATE_OPEN NOTIFY_STATE_UP
    [[busy_on_shard_0]; [idle_on_shard_1]; []; []] 1 [] ∅ 1 [OnPoolUp] 0 0.

(** A pool with one full slot per shard and one connector waiting on its
    third delay. *)
Definition waiting_connector : DelayedConnector :=
  mkConnector 7 None false false false (mkConn 0 0 0 false) 0 "".

Definition reconnecting_pool : ConnectionPool :=
  mkPool (Some (sharding 2 12)) 2 CLOSE_STATE_OPEN NOTIFY_STATE_UP
    [[busy_on_shard_0]; [idle_on_shard_1]] 1 [waiting_connector]
    {[ 7%nat := mkSchedule 3 2 ]} 1 [OnPoolUp] 8 4.

Definition second_on_shard_0 : PooledConnection := mkConn 9 0 0 false.

(** An un-sharded host, two connections wanted, none supplied: the pool as
    the constructor leaves it. *)
Definition first_connector : DelayedConnector :=
  mkConnector 0 None false false false (mkConn 0 0 0 false) 0 "".
Definition second_connector : DelayedConnector :=
  mkConnector 1 None false false false (mkConn 0 0 0 false) 0 "".

Definition cold_pool : ConnectionPool :=
  mkPool None 2 CLOSE_STATE_OPEN NOTIFY_STATE_DOWN [[]] 2
    [first_connector; second_connector]
    (<[1%nat := mkSchedule 1 1]> (<[0%nat := mkSchedule 0 1]> ∅)) 1
    [OnPoolDown; DelayedConnect 0 None 0 0; DelayedConnect 1 None 1 0] 2 2.

(** ** Notions for the further properties *)

(** The supplied connections that are not closing and belong to slot [i], in
    the order they were supplied. *)
Definition supplied_for (i : nat) (connections : list PooledConnection)
  : list PooledConnection :=
  filter (fun c => is_closing c = false /\ slot_index (conn_shard_id c) = i)
         connections.

(** The target cardinality of a slot as a length. *)
Definition capacity (p : ConnectionPool) : nat :=
  Z.to_nat (num_connections_per_shard_ p).

(** The state of the constructor's first loop after the connections [pre]. *)
Definition placed (pre : list PooledConnection) (slots : nat) (cap : Z)
  (p : ConnectionPool) : Prop :=
  length (connections_by_shard_ p) = slots /\
  num_connections_per_shard_ p = cap /\
  (forall i, (i < slots)%nat ->
     connections_by_shard_ p !! i = Some (take (Z.to_nat cap) (supplied_for i pre))) /\
  (forall c : PooledConnection, c ∈ pre -> is_closing c = false ->
     c ∈ concat (connections_by_shard_ p) \/ ConnClose (conn_id c) ∈ trace p) /\
  (forall e, e ∈ trace p ->
     exists c, c ∈ pre /\ is_closing c = false /\ e = ConnClose (conn_id c)).

(** The target cardinality the constructor computes. *)
Definition target_per_shard (si : option ShardingInfo) (n : Z) : Z :=
  match si with
  | Some si =>
      n / get_shards_count si + (if n mod get_shards_count si =? 0 then 0 else 1)
  | None => n
  end.

Definition is_delayed_connect (e : event) : bool :=
  match e with DelayedConnect _ _ _ _ => true | _ => false end.

(** What the constructor's second loop leaves alone, and what it adds. *)
Definition reconnects_added (q p : ConnectionPool) : Prop :=
  connections_by_shard_ p = connections_by_shard_ q /\
  num_connections_per_shard_ p = num_connections_per_shard_ q /\
  host_sharding_info p = host_sharding_info q /\
  exists es, trace p = trace q ++ es /\ Forall (fun e => is_delayed_connect e = true) es.

(** How many reconnects the constructor schedules for slot [i], and with
    which desired shard. *)
Definition needed (p : ConnectionPool) (i : nat) : nat :=
  Z.to_nat (sint32 (wrap64 (num_connections_per_shard_ p
                            - Z.of_nat (length (default [] (connections_by_shard_ p !! i)))))).

Definition wished_shard (p : ConnectionPool) (i : nat) : option Z :=
  if has_shard_aware_port (host_sharding_info p)
  then Some (sint32 (Z.of_nat i)) else None.

(** The fields of a pool other than its two states, its self-reference and
    its trace agree. *)
Definition same_data (p q : ConnectionPool) : Prop :=
  host_sharding_info q = host_sharding_info p /\
  connections_by_shard_ q = connections_by_shard_ p /\
  num_connections_per_shard_ q = num_connections_per_shard_ p /\
  pending_connections_ q = pending_connections_ p /\
  reconnection_schedules_ q = reconnection_schedules_ p /\
  next_connector q = next_connector p /\
  next_schedule q = next_schedule p.

(** No slot holds more connections than the target, and every connection
    sits in the slot of the shard it reports. *)
Definition slots_fit (p : ConnectionPool) : Prop :=
  Forall (fun s : list PooledConnection => (length s <= capacity p)%nat)
         (connections_by_shard_ p).

Definition slots_by_shard (p : ConnectionPool) : Prop :=
  forall i s (c : PooledConnection),
    connections_by_shard_ p !! i = Some s -> c ∈ s ->
    slot_index (conn_shard_id c) = i.

Definition shaped (slots : nat) (per_shard : Z) (p : ConnectionPool) : Prop :=
  length (connections_by_shard_ p) = slots /\
  num_connections_per_shard_ p = per_shard /\
  slots_fit p /\
  slots_by_shard p.

(** The schedules on file are those of the pending connectors, one each. *)
Definition schedules_owned (p : ConnectionPool) : Prop :=
  pending_scheduled p /\
  forall id, is_Some (reconnection_schedules_ p !! id) ->
             id ∈ map connector_id (pending_connections_ p).

(** What [maybe_closed] tells the listener when the pool closes. *)
Definition closing_tail (n : NotifyState) : list event :=
  (if bool_decide (n = NOTIFY_STATE_UP) then [OnPoolDown] else []) ++ [OnClose].

(** The connectors that report in a list of calls, in the order of the
    calls. *)
Definition reported (ops : list op) : list nat :=
  flat_map (fun o => match o with OnReconnect k => [connector_id k] | _ => [] end) ops.

(** A pool that is no longer open and has had its terminal test: closed, or
    waiting for something. *)
Definition settled (p : ConnectionPool) : Prop :=
  close_state_ p = CLOSE_STATE_CLOSED \/
  (close_state_ p = CLOSE_STATE_WAITING_FOR_CONNECTIONS /\ ~ terminal p).

(** The calls [ops] bring the report of every connection and of every pending
    connector of [p], and no other. *)
Definition answers (ops : list op) (p : ConnectionPool) : Prop :=
  (forall i s (c : PooledConnection),
     connections_by_shard_ p !! i = Some s -> c ∈ s ->
     exists c', CloseConnection c' ∈ ops /\ conn_id c' = conn_id c /\
                slot_index (conn_shard_id c') = i) /\
  (forall c', CloseConnection c' ∈ ops ->
     (slot_index (conn_shard_id c') < length (connections_by_shard_ p))%nat) /\
  NoDup (reported ops) /\
  (forall id, id ∈ reported ops <-> id ∈ map connector_id (pending_connections_ p)).

(** The listener has been told UP and the pool has a connection, or it has
    been told DOWN and the pool has none. *)
Definition told (p : ConnectionPool) : Prop :=
  (notify_state_ p = NOTIFY_STATE_UP /\ has_connections p = true) \/
  (notify_state_ p = NOTIFY_STATE_DOWN /\ has_connections p = false).

Definition informed (p : ConnectionPool) : Prop :=
  close_state_ p = CLOSE_STATE_OPEN -> told p.

(** The UP and DOWN notifications of a trace, in order. *)
Definition is_up_or_down (e : event) : bool :=
  match e with OnPoolUp | OnPoolDown => true | _ => false end.

Definition updown (p : ConnectionPool) : list event :=
  List.filter is_up_or_down (trace p).

(** No two neighbours of the list are the same. *)
Definition alternates (l : list event) : Prop :=
  forall l1 a b l2, l = l1 ++ a :: b :: l2 -> a <> b.

(** The last UP or DOWN the listener heard, against the notify state. *)
Definition last_heard (p : ConnectionPool) : Prop :=
  match notify_state_ p with
  | NOTIFY_STATE_NEW => updown p = []
  | NOTIFY_STATE_UP =>
      last (updown p)
      = Some (if bool_decide (close_state_ p = CLOSE_STATE_CLOSED)
              then OnPoolDown else OnPoolUp)
  | NOTIFY_STATE_DOWN => last (updown p) = Some OnPoolDown
  | NOTIFY_STATE_CRITICAL => True
  end.

Definition in_turns (p : ConnectionPool) : Prop :=
  alternates (updown p) /\ last_heard p.






(** ** Flush requests

    The part of the pool that [requires_flush], [flush] and the
    [to_flush_.erase] of [close_connection] work on: the set [to_flush_] of
    connections with data to write, keyed by the connection object, and the
    calls made on the listener and on the connections. *)

Inductive flush_event : Type :=
| OnRequiresFlush
| ConnFlush (c : nat).

Record FlushState : Type := mkFlush {
  to_flush_ : gset nat;
  flush_trace : list flush_event
}.

(** [ConnectionPool::requires_flush] *)
Definition requires_flush (connection : nat) (st : FlushState) : FlushState :=
  let st := if bool_decide (to_flush_ st = ∅)
            then mkFlush (to_flush_ st) (flush_trace st ++ [OnRequiresFlush])
            else st in
  mkFlush ({[connection]} ∪ to_flush_ st) (flush_trace st).

(** [ConnectionPool::flush]: the order of the iteration is that of the hash
    set. *)
Definition flush (st : FlushState) : FlushState :=
  mkFlush ∅ (flush_trace st ++ map ConnFlush (elements (to_flush_ st))).

(** [to_flush_.erase(connection)] in [ConnectionPool::close_connection] *)
Definition erase_to_flush (connection : nat) (st : FlushState) : FlushState :=
  mkFlush (to_flush_ st ∖ {[connection]}) (flush_trace st).

Inductive flush_op : Type :=
| RequiresFlush (connection : nat)
| Flush
| ConnectionClosed (connection : nat).

Definition run_flush_op (st : FlushState) (o : flush_op) : FlushState :=
  match o with
  | RequiresFlush c => requires_flush c st
  | Flush => flush st
  | ConnectionClosed c => erase_to_flush c st
  end.

Definition run_flush (ops : list flush_op) (st : FlushState) : FlushState :=
  fold_left run_flush_op ops st.

(** The set is empty when the pool is built. *)
Definition nothing_to_flush : FlushState := mkFlush ∅ [].

(** The listener has been asked to flush since the last connection was
    flushed. *)
Definition asked (tr : list flush_event) : bool :=
  fold_left (fun a e => match e with OnRequiresFlush => true | ConnFlush _ => false end)
            tr false.

(** The delays asked of the schedule [sid], by their rank, in the order in
    which they were asked. *)
Definition delays_asked (sid : nat) (tr : list event) : list nat :=
  flat_map (fun e => match e with
                     | DelayedConnect _ _ s nth => if decide (s = sid) then [nth] else []
                     | _ => []
                     end) tr.

(** Every schedule was asked for its first, second, third ... delay in this
    order; the schedules on file have been asked for as many delays as they
    have given, and no two entries hold the same schedule. *)
Definition in_sequence (p : ConnectionPool) : Prop :=
  (forall sid, exists m, delays_asked sid (trace p) = seq 0 m) /\
  (forall sid, (next_schedule p <= sid)%nat -> delays_asked sid (trace p) = []) /\
  (forall id s, reconnection_schedules_ p !! id = Some s ->
     (schedule_id s < next_schedule p)%nat /\
     delays_asked (schedule_id s) (trace p) = seq 0 (delays_taken s)) /\
  (forall id1 id2 s1 s2,
     reconnection_schedules_ p !! id1 = Some s1 ->
     reconnection_schedules_ p !! id2 = Some s2 ->
     schedule_id s1 = schedule_id s2 -> id1 = id2).

(** A schedule taken off the file, ready to be filed again. *)
Definition detached (s : ReconnectionSchedule) (p : ConnectionPool) : Prop :=
  (schedule_id s < next_schedule p)%nat /\
  delays_asked (schedule_id s) (trace p) = seq 0 (delays_taken s) /\
  (forall id s', reconnection_schedules_ p !! id = Some s' ->
     schedule_id s' <> schedule_id s).

(** The schedules are untouched and no delay was asked. *)
Definition same_schedules (p q : ConnectionPool) : Prop :=
  reconnection_schedules_ q = reconnection_schedules_ p /\
  next_schedule q = next_schedule p /\
  exists es, trace q = trace p ++ es /\ Forall (fun e => is_delayed_connect e = false) es.

(** * Properties *)

(** ** Machine integer facts *)

Section MachIntFacts.

Lemma sint64_small z : - 2 ^ 63 <= z < 2 ^ 63 -> sint64 z = z.
Proof. intros H. unfold sint64. rewrite Z.mod_small; lia. Qed.

Lemma sint32_small z : - 2 ^ 31 <= z < 2 ^ 31 -> sint32 z = z.
Proof. intros H. unfold sint32. rewrite Z.mod_small; lia. Qed.

Lemma sint64_range z : - 2 ^ 63 <= sint64 z < 2 ^ 63.
Proof. unfold sint64. pose proof (Z.mod_pos_bound (z + 2 ^ 63) (2 ^ 64)). lia. Qed.

Lemma sint32_range z : - 2 ^ 31 <= sint32 z < 2 ^ 31.
Proof. unfold sint32. pose proof (Z.mod_pos_bound (z + 2 ^ 31) (2 ^ 32)). lia. Qed.

Lemma sint64_mod z : sint64 z mod 2 ^ 64 = z mod 2 ^ 64.
Proof.
  unfold sint64.
  rewrite Zminus_mod, Zmod_mod, <- Zminus_mod.
  f_equal. lia.
Qed.

Lemma wrap64_small z : 0 <= z < 2 ^ 64 -> wrap64 z = z.
Proof. intros H. unfold wrap64. apply Z.mod_small. lia. Qed.

Lemma mask32 z : Z.land z 0xffffffff = z mod 2 ^ 32.
Proof. change 0xffffffff with (Z.ones 32). apply Z.land_ones. lia. Qed.

(** The low and the high half of a signed 64-bit value are those of the
    unsigned value it represents. *)
Lemma split_halves z :
  z mod 2 ^ 64 = (z / 2 ^ 32) mod 2 ^ 32 * 2 ^ 32 + z mod 2 ^ 32.
Proof.
  change (2 ^ 64) with (2 ^ 32 * 2 ^ 32).
  rewrite Z.rem_mul_r by lia. lia.
Qed.

Lemma low_half z : Z.land z 0xffffffff = (z mod 2 ^ 64) mod 2 ^ 32.
Proof.
  rewrite mask32, split_halves.
  rewrite Z.add_comm, Z.mod_add by lia.
  now rewrite Z.mod_mod by lia.
Qed.

Lemma high_half z : Z.land (Z.shiftr z 32) 0xffffffff = (z mod 2 ^ 64) / 2 ^ 32.
Proof.
  rewrite mask32, Z.shiftr_div_pow2, split_halves by lia.
  rewrite Z.add_comm, Z.div_add by lia.
  rewrite (Z.div_small (z mod 2 ^ 32)) by (apply Z.mod_pos_bound; lia).
  reflexivity.
Qed.

End MachIntFacts.

(** ** Token to shard *)

Section ShardId.

Lemma shl64_defined token m :
  0 <= m < 64 -> shl64 token m = Ok (sint64 (token * 2 ^ m)).
Proof.
  intros Hm. unfold shl64.
  replace ((0 <=? m) && (m <? 64)) with true by (symmetry; apply andb_true_iff; lia).
  now rewrite Z.shiftl_mul_pow2 by lia.
Qed.

Lemma shl64_undefined token m :
  m < 0 \/ 64 <= m -> shl64 token m = Fault UndefinedShift.
Proof.
  intros Hm. unfold shl64.
  replace ((0 <=? m) && (m <? 64)) with false; [reflexivity|].
  symmetry. apply andb_false_iff. lia.
Qed.

(** The shifted token, read as unsigned, is the remapped token shifted with
    wrap. *)
Lemma shifted_token_unsigned t m :
  0 <= m ->
  sint64 (sint64 (t + INT64_MIN) * 2 ^ m) mod 2 ^ 64
  = ((t + 2 ^ 63) mod 2 ^ 64 * 2 ^ m) mod 2 ^ 64.
Proof.
  intros Hm.
  rewrite sint64_mod.
  rewrite <- Z.mul_mod_idemp_l by lia.
  rewrite sint64_mod.
  replace (t + INT64_MIN) with (t + 2 ^ 63 + (-1) * 2 ^ 64) by (unfold INT64_MIN; lia).
  rewrite Z.mod_add by lia.
  reflexivity.
Qed.

Lemma halves_bound u :
  0 <= u < 2 ^ 64 -> 0 <= u mod 2 ^ 32 < 2 ^ 32 /\ 0 <= u / 2 ^ 32 < 2 ^ 32.
Proof.
  intros Hu. split.
  - apply Z.mod_pos_bound. lia.
  - split.
    + apply Z.div_pos; lia.
    + apply Z.div_lt_upper_bound; lia.
Qed.

Lemma partial_products_bound lo hi n :
  0 <= lo < 2 ^ 32 -> 0 <= hi < 2 ^ 32 -> 1 <= n ->
  0 <= lo * n / 2 ^ 32 < n /\
  0 <= lo * n / 2 ^ 32 + hi * n < 2 ^ 32 * n /\
  0 <= (lo * n / 2 ^ 32 + hi * n) / 2 ^ 32 < n.
Proof.
  intros Hlo Hhi Hn.
  assert (H1 : 0 <= lo * n / 2 ^ 32 < n).
  { split.
    - apply Z.div_pos; nia.
    - apply Z.div_lt_upper_bound; nia. }
  assert (H2 : 0 <= lo * n / 2 ^ 32 + hi * n < 2 ^ 32 * n) by nia.
  repeat split; try lia.
  - apply Z.div_pos; lia.
  - apply Z.div_lt_upper_bound; lia.
Qed.

(** The two-halves computation gives the top bits of the full product. *)
Lemma shard_id_reference_wide t n m :
  shard_id_reference t n m = shard_id_wide t n m.
Proof.
  unfold shard_id_reference, shard_id_wide.
  set (u := ((t + 2 ^ 63) mod 2 ^ 64 * 2 ^ m) mod 2 ^ 64).
  rewrite (Z.div_mod u (2 ^ 32)) at 3 by lia.
  change (2 ^ 64) with (2 ^ 32 * 2 ^ 32).
  rewrite <- Z.div_div by lia.
  f_equal.
  replace ((2 ^ 32 * (u / 2 ^ 32) + u mod 2 ^ 32) * n)
    with (u mod 2 ^ 32 * n + u / 2 ^ 32 * n * 2 ^ 32) by lia.
  now rewrite Z.div_add by lia.
Qed.

Lemma shard_id_reference_range t n m :
  1 <= n -> 0 <= shard_id_reference t n m < n.
Proof.
  intros Hn. unfold shard_id_reference.
  set (u := ((t + 2 ^ 63) mod 2 ^ 64 * 2 ^ m) mod 2 ^ 64).
  assert (Hu : 0 <= u < 2 ^ 64) by (apply Z.mod_pos_bound; lia).
  destruct (halves_bound u Hu) as [Hlo Hhi].
  apply (partial_products_bound _ _ _ Hlo Hhi Hn).
Qed.

Lemma shard_id_correct si t :
  1 <= shards_count si <= 2 ^ 31 ->
  0 <= sharding_ignore_MSB si < 64 ->
  shard_id si t
  = Ok (shard_id_reference t (shards_count si) (sharding_ignore_MSB si)).
Proof.
  intros Hn Hm. unfold shard_id.
  rewrite shl64_defined by assumption. cbn [mbind outcome_bind obind].
  set (T := sint64 (sint64 (t + INT64_MIN) * 2 ^ sharding_ignore_MSB si)).
  rewrite low_half, high_half.
  unfold T. rewrite shifted_token_unsigned by lia.
  unfold shard_id_reference.
  set (u := ((t + 2 ^ 63) mod 2 ^ 64 * 2 ^ sharding_ignore_MSB si) mod 2 ^ 64).
  set (n := shards_count si) in *.
  assert (Hu : 0 <= u < 2 ^ 64) by (apply Z.mod_pos_bound; lia).
  destruct (halves_bound u Hu) as [Hlo Hhi].
  destruct (partial_products_bound _ _ n Hlo Hhi ltac:(lia)) as (B1 & B2 & B3).
  rewrite (wrap64_small (u mod 2 ^ 32)) by lia.
  rewrite (wrap64_small (u / 2 ^ 32)) by lia.
  rewrite (wrap64_small (u mod 2 ^ 32 * n)) by nia.
  rewrite (wrap64_small (u / 2 ^ 32 * n)) by nia.
  rewrite (sint64_small (u mod 2 ^ 32 * n)) by nia.
  rewrite (sint64_small (u / 2 ^ 32 * n)) by nia.
  rewrite !Z.shiftr_div_pow2 by lia.
  rewrite sint64_small by nia.
  rewrite sint32_small by lia.
  reflexivity.
Qed.

End ShardId.

(** C1, as amended.  For every signed 64-bit token, every shard count from 1
    to 2^31 and every shift count from 0 to 63, [shard_id] returns the value
    of the reference computation (remap, shift with wrap, two 32-bit halves,
    two partial products, two shifts), and that value lies in [0, n). *)
Theorem shard_id_matches_reference (si : ShardingInfo) (t : Z) :
  in_int64 t ->
  1 <= shards_count si <= 2 ^ 31 ->
  0 <= sharding_ignore_MSB si < 64 ->
  shard_id si t
  = Ok (shard_id_reference t (shards_count si) (sharding_ignore_MSB si))
  /\ 0 <= shard_id_reference t (shards_count si) (sharding_ignore_MSB si)
     < shards_count si.
Proof.
  intros _ Hn Hm. split.
  - now apply shard_id_correct.
  - apply shard_id_reference_range. lia.
Qed.

Lemma shard_id_matches_reference_witness :
  shard_id (sharding 4 12) 1234567890
  = Ok (shard_id_reference 1234567890 4 12)
  /\ 0 <= shard_id_reference 1234567890 4 12 < 4.
Proof.
  apply (shard_id_matches_reference (sharding 4 12) 1234567890);
    unfold in_int64; simpl; lia.
Defined.

(** Why the shard count is bounded by 2^31: with 2^32 - 1 shards and no
    shift, the token [INT64_MAX] gives -3 where the reference computation
    gives 2^32 - 2.  The partial product no longer fits a signed 64-bit value
    and [>>] shifts its sign in.  No descriptor holds such a count: the
    parser stores the [size_t] conversion of an [int], which is below 2^31 or
    at least 2^64 - 2^31 ([parsed_shards_count_range]). *)
Lemma shard_id_differs_for_large_shard_count :
  in_int64 INT64_MAX /\ 1 <= 2 ^ 32 - 1 < 2 ^ 32 /\ 0 <= 0 /\
  shard_id (sharding (2 ^ 32 - 1) 0) INT64_MAX = Ok (-3) /\
  shard_id_reference INT64_MAX (2 ^ 32 - 1) 0 = 4294967294.
Proof. unfold in_int64. vm_compute. intuition congruence. Qed.

(** A shift count of 64 or more has no defined result. *)
Lemma shard_id_shift_out_of_range (si : ShardingInfo) (t : Z) :
  64 <= sharding_ignore_MSB si -> shard_id si t = Fault UndefinedShift.
Proof.
  intros H. unfold shard_id. rewrite shl64_undefined by lia. reflexivity.
Qed.

(** C1 as stated fails for a shift count of 64, which is not negative and
    which the parser accepts: the options below give a descriptor with two
    shards and [sharding_ignore_MSB = 64]; on it [shard_id] shifts an
    [int64_t] by 64, which has no defined result, where the reference
    computation, which shifts with wrap, gives 0. *)
Lemma shard_id_undefined_for_parsed_shift_of_64 :
  exists d,
    parse_sharding_info
      (supported ["0"] ["2"] [Murmur3Partitioner] [biased_token_round_robin] ["64"])
    = Some d /\
    shards_count (csi_sharding_info d) = 2 /\
    sharding_ignore_MSB (csi_sharding_info d) = 64 /\
    in_int64 0 /\ 1 <= 2 < 2 ^ 32 /\ 0 <= 64 /\
    shard_id (csi_sharding_info d) 0 = Fault UndefinedShift /\
    shard_id_reference 0 2 64 = 0.
Proof.
  eexists. split; [vm_compute; reflexivity|].
  unfold in_int64. vm_compute. intuition congruence.
Qed.

(** ** The parser *)

Section Parser.

Implicit Types params : gmap string (list string).

Lemma parse_string_Some params key v :
  parse_string params key = Some v <-> params !! key = Some [v].
Proof.
  unfold parse_string, count, at_key.
  destruct (params !! key) as [[|x [|y l]]|]; simpl; split; intros H;
    try discriminate; congruence.
Qed.

Lemma parse_string_None params key :
  parse_string params key = None <-> ~ exists v, params !! key = Some [v].
Proof.
  split.
  - intros H [v Hv]. apply parse_string_Some in Hv. congruence.
  - intros H. destruct (parse_string params key) as [v|] eqn:E; [|reflexivity].
    exfalso. apply H. exists v. now apply parse_string_Some.
Qed.

Lemma parse_int_Some params key z :
  parse_int params key = Some z
  <-> exists v, params !! key = Some [v] /\ z = atoi v.
Proof.
  unfold parse_int. split.
  - destruct (parse_string params key) as [v|] eqn:E; [|discriminate].
    intros [= <-]. exists v. split; [now apply parse_string_Some|reflexivity].
  - intros (v & Hv & ->). apply parse_string_Some in Hv. now rewrite Hv.
Qed.

(** [parse_int] rejects nothing that [parse_string] accepts. *)
Lemma parse_int_None params key :
  parse_int params key = None <-> parse_string params key = None.
Proof.
  unfold parse_int. destruct (parse_string params key); split; congruence.
Qed.

(** What a returned descriptor holds: every field is set, the integers being
    whatever [atoi] reads from the single value of their key. *)
Lemma parse_sharding_info_Some params d :
  parse_sharding_info params = Some d
  <-> exists a b e,
      params !! SCYLLA_SHARD_PARAM_KEY = Some [a] /\
      params !! SCYLLA_NR_SHARDS_PARAM_KEY = Some [b] /\
      params !! SCYLLA_PARTITIONER = Some [Murmur3Partitioner] /\
      params !! SCYLLA_SHARDING_ALGORITHM = Some [biased_token_round_robin] /\
      params !! SCYLLA_SHARDING_IGNORE_MSB = Some [e] /\
      d = mkConnectionShardingInfo (atoi a)
            (mkShardingInfo (size_t_of (atoi b)) Murmur3Partitioner
               biased_token_round_robin (atoi e)
               (parse_int params SCYLLA_SHARD_AWARE_PORT)
               (parse_int params SCYLLA_SHARD_AWARE_PORT_SSL)).
Proof.
  unfold parse_sharding_info. split.
  - destruct (parse_int params SCYLLA_SHARD_PARAM_KEY) as [x|] eqn:E1; [|discriminate].
    destruct (parse_int params SCYLLA_NR_SHARDS_PARAM_KEY) as [y|] eqn:E2; [|discriminate].
    destruct (parse_string params SCYLLA_PARTITIONER) as [pa|] eqn:E3; [|discriminate].
    destruct (parse_string params SCYLLA_SHARDING_ALGORITHM) as [al|] eqn:E4; [|discriminate].
    destruct (parse_int params SCYLLA_SHARDING_IGNORE_MSB) as [z|] eqn:E5; [|discriminate].
    destruct (String.eqb pa Murmur3Partitioner) eqn:Ep; [|discriminate].
    destruct (String.eqb al biased_token_round_robin) eqn:Ea; [|discriminate].
    simpl. intros [= <-].
    apply String.eqb_eq in Ep, Ea. subst pa al.
    apply parse_int_Some in E1 as (a & Ha & ->).
    apply parse_int_Some in E2 as (b & Hb & ->).
    apply parse_int_Some in E5 as (e & He & ->).
    apply parse_string_Some in E3, E4.
    exists a, b, e. repeat split; assumption.
  - intros (a & b & e & Ha & Hb & Hp & Hal & He & ->).
    assert (E1 : parse_int params SCYLLA_SHARD_PARAM_KEY = Some (atoi a))
      by (apply parse_int_Some; eauto).
    assert (E2 : parse_int params SCYLLA_NR_SHARDS_PARAM_KEY = Some (atoi b))
      by (apply parse_int_Some; eauto).
    assert (E5 : parse_int params SCYLLA_SHARDING_IGNORE_MSB = Some (atoi e))
      by (apply parse_int_Some; eauto).
    apply parse_string_Some in Hp, Hal.
    rewrite E1, E2, E5, Hp, Hal.
    now rewrite !String.eqb_refl.
Qed.

Lemma parse_sharding_info_is_Some params :
  is_Some (parse_sharding_info params) <-> required_present params.
Proof.
  unfold required_present. split.
  - intros [d Hd]. apply parse_sharding_info_Some in Hd
      as (a & b & e & Ha & Hb & Hp & Hal & He & _). eauto 10.
  - intros ([a Ha] & [b Hb] & Hp & Hal & [e He]).
    eexists. apply parse_sharding_info_Some. exists a, b, e. eauto 10.
Qed.

(** [atoi] returns an [int], so the shard count of a parsed descriptor is an
    [int] turned into a [size_t]: below 2^31, or a negative number wrapped
    around. *)
Lemma atoi_in_int32 s : in_int32 (atoi s).
Proof.
  unfold atoi, in_int32.
  destruct (skip_spaces s) as [|c s']; [apply sint32_range|].
  destruct c as [[] [] [] [] [] [] [] []]; apply sint32_range.
Qed.

Lemma parsed_shards_count_range params d :
  parse_sharding_info params = Some d ->
  0 <= shards_count (csi_sharding_info d) < 2 ^ 31 \/
  2 ^ 64 - 2 ^ 31 <= shards_count (csi_sharding_info d) < 2 ^ 64.
Proof.
  intros H. apply parse_sharding_info_Some in H as (a & b & e & _ & _ & _ & _ & _ & ->).
  simpl. pose proof (atoi_in_int32 b) as Hb. unfold in_int32 in Hb.
  unfold size_t_of, wrap64.
  destruct (Z.le_gt_cases 0 (atoi b)).
  - left. rewrite Z.mod_small; lia.
  - right. replace (atoi b) with (atoi b + 2 ^ 64 + (-1) * 2 ^ 64) by lia.
    rewrite Z.mod_add by lia. rewrite Z.mod_small; lia.
Qed.

Lemma required_present_with_ports port port_ssl params :
  required_present (with_ports port port_ssl params) <-> required_present params.
Proof.
  unfold required_present, with_ports.
  rewrite !lookup_partial_alter_ne by (compute; congruence).
  reflexivity.
Qed.

End Parser.

(** C3.  [parse_sharding_info] returns a descriptor exactly when the shard-id,
    shard-count, partitioner, algorithm and ignore-MSB keys each hold one
    value and the partitioner and the algorithm are the supported ones;
    otherwise it returns none; and whatever the two port keys hold, also
    nothing, leaves that unchanged. *)
Theorem parse_sharding_info_iff (params : gmap string (list string)) :
  (is_Some (parse_sharding_info params) <-> required_present params) /\
  (~ required_present params -> parse_sharding_info params = None) /\
  (forall port port_ssl,
      is_Some (parse_sharding_info (with_ports port port_ssl params))
      <-> is_Some (parse_sharding_info params)) /\
  (forall port port_ssl d,
      parse_sharding_info params = Some d ->
      exists d',
        parse_sharding_info (with_ports port port_ssl params) = Some d' /\
        csi_shard_id d' = csi_shard_id d /\
        shards_count (csi_sharding_info d') = shards_count (csi_sharding_info d) /\
        sharding_ignore_MSB (csi_sharding_info d')
        = sharding_ignore_MSB (csi_sharding_info d)).
Proof.
  split; [apply parse_sharding_info_is_Some|].
  split.
  { intros H. destruct (parse_sharding_info params) eqn:E; [|reflexivity].
    exfalso. apply H, parse_sharding_info_is_Some. eauto. }
  split.
  { intros port port_ssl.
    rewrite !parse_sharding_info_is_Some. apply required_present_with_ports. }
  intros port port_ssl d Hd.
  apply parse_sharding_info_Some in Hd
    as (a & b & e & Ha & Hb & Hp & Hal & He & ->).
  eexists. split.
  - apply parse_sharding_info_Some. exists a, b, e.
    unfold with_ports.
    rewrite !lookup_partial_alter_ne by (compute; congruence).
    repeat split; try eassumption.
  - simpl. auto.
Qed.

Lemma parse_sharding_info_iff_witness :
  exists d',
    parse_sharding_info
      (with_ports (Some ["19042"]) None
         (supported ["3"] ["8"] [Murmur3Partitioner] [biased_token_round_robin] ["12"]))
    = Some d' /\
    csi_shard_id d' = 3 /\
    shards_count (csi_sharding_info d') = 8 /\
    sharding_ignore_MSB (csi_sharding_info d') = 12.
Proof.
  apply (proj2 (proj2 (proj2
           (parse_sharding_info_iff
              (supported ["3"] ["8"] [Murmur3Partitioner] [biased_token_round_robin] ["12"]))))
           (Some ["19042"]) None
           (mkConnectionShardingInfo 3
              (mkShardingInfo 8 Murmur3Partitioner biased_token_round_robin 12 None None))).
  vm_compute. reflexivity.
Defined.

(** C4, as amended.  [parse_int] rejects no single value for its text: it
    returns what [atoi] reads (0 when the text starts with no number).  So a
    descriptor is returned exactly when the five required keys hold one value
    each and the partitioner and the algorithm are the supported ones, and it
    then has every field set, its integers being what [atoi] read: there is a
    descriptor with all required fields or none, and nothing checks the sign
    or the size of the shard count or of the shift count. *)
Theorem parse_sharding_info_all_or_nothing (params : gmap string (list string)) :
  (forall key v, params !! key = Some [v] -> parse_int params key = Some (atoi v)) /\
  (forall key, parse_int params key = None <-> parse_string params key = None) /\
  (forall d,
     parse_sharding_info params = Some d
     <-> exists a b e,
         params !! SCYLLA_SHARD_PARAM_KEY = Some [a] /\
         params !! SCYLLA_NR_SHARDS_PARAM_KEY = Some [b] /\
         params !! SCYLLA_PARTITIONER = Some [Murmur3Partitioner] /\
         params !! SCYLLA_SHARDING_ALGORITHM = Some [biased_token_round_robin] /\
         params !! SCYLLA_SHARDING_IGNORE_MSB = Some [e] /\
         d = mkConnectionShardingInfo (atoi a)
               (mkShardingInfo (size_t_of (atoi b)) Murmur3Partitioner
                  biased_token_round_robin (atoi e)
                  (parse_int params SCYLLA_SHARD_AWARE_PORT)
                  (parse_int params SCYLLA_SHARD_AWARE_PORT_SSL))).
Proof.
  split; [|split].
  - intros key v H. apply parse_int_Some. eauto.
  - intros key. apply parse_int_None.
  - intros d. apply parse_sharding_info_Some.
Qed.

Lemma parse_sharding_info_all_or_nothing_witness :
  parse_int
    (supported ["3"] [" +8 shards"] [Murmur3Partitioner] [biased_token_round_robin] ["12"])
    SCYLLA_NR_SHARDS_PARAM_KEY
  = Some 8.
Proof.
  apply (proj1 (parse_sharding_info_all_or_nothing
                  (supported ["3"] [" +8 shards"] [Murmur3Partitioner]
                     [biased_token_round_robin] ["12"]))
           SCYLLA_NR_SHARDS_PARAM_KEY " +8 shards").
  reflexivity.
Defined.

(** C4 as stated fails: a shard count of "abc" and an ignore-MSB of "-1" are
    accepted, and the descriptor holds a shard count of 0 and a negative
    shift count. *)
Lemma malformed_integers_are_accepted :
  exists d,
    parse_sharding_info
      (supported ["3"] ["abc"] [Murmur3Partitioner] [biased_token_round_robin] ["-1"])
    = Some d /\
    ~ 0 < shards_count (csi_sharding_info d) /\
    ~ 0 <= sharding_ignore_MSB (csi_sharding_info d).
Proof.
  eexists. split; [vm_compute; reflexivity|]. simpl. lia.
Qed.

(** ** Dispatch *)

Section Dispatch.

Implicit Types (l pre : list PooledConnection) (c x : PooledConnection).

Lemma least_busy_comp_live a b :
  is_closing a = false -> is_closing b = false ->
  least_busy_comp a b = (inflight_request_count a <? inflight_request_count b).
Proof. intros Ha Hb. unfold least_busy_comp. now rewrite Ha, Hb. Qed.

(** A non-closing connection is less busy than any closing one, whatever the
    counts, and a closing one is less busy than nothing. *)
Lemma least_busy_comp_closing a b :
  (is_closing a = false -> is_closing b = true -> least_busy_comp a b = true) /\
  (is_closing a = true -> least_busy_comp a b = false).
Proof.
  unfold least_busy_comp. split.
  - intros Ha Hb. now rewrite Ha, Hb.
  - intros Ha. now rewrite Ha.
Qed.

(** Appending a closing connection changes nothing. *)
Lemma least_busy_of_snoc_closing pre r x :
  is_closing x = true -> least_busy_of pre r -> least_busy_of (pre ++ [x]) r.
Proof.
  intros Hx. destruct r as [c|]; simpl.
  - intros (Hc & l1 & l2 & -> & H1 & H2). split; [assumption|].
    exists l1, (l2 ++ [x]). split; [now rewrite <- app_assoc|].
    split; [assumption|].
    intros y Hy Hlive. apply elem_of_app in Hy as [Hy|Hy]; [now apply H2|].
    apply list_elem_of_singleton in Hy. congruence.
  - intros H y Hy. apply elem_of_app in Hy as [Hy|Hy]; [now apply H|].
    apply list_elem_of_singleton in Hy. congruence.
Qed.

(** Appending a live connection that is not strictly better keeps the
    candidate. *)
Lemma least_busy_of_snoc_keep pre c x :
  inflight_request_count c <= inflight_request_count x ->
  least_busy_of pre (Some c) -> least_busy_of (pre ++ [x]) (Some c).
Proof.
  intros Hle (Hc & l1 & l2 & -> & H1 & H2). split; [assumption|].
  exists l1, (l2 ++ [x]). split; [now rewrite <- app_assoc|].
  split; [assumption|].
  intros y Hy Hlive. apply elem_of_app in Hy as [Hy|Hy]; [now apply H2|].
  apply list_elem_of_singleton in Hy. now subst y.
Qed.

(** Appending a live connection that is strictly better replaces the
    candidate. *)
Lemma least_busy_of_snoc_replace pre c x :
  is_closing x = false ->
  inflight_request_count x < inflight_request_count c ->
  least_busy_of pre (Some c) -> least_busy_of (pre ++ [x]) (Some x).
Proof.
  intros Hx Hlt (Hc & l1 & l2 & -> & H1 & H2). split; [assumption|].
  exists (l1 ++ c :: l2), []. split; [reflexivity|].
  split.
  - intros y Hy Hlive. apply elem_of_app in Hy as [Hy|Hy].
    + specialize (H1 y Hy Hlive). lia.
    + apply elem_of_cons in Hy as [->|Hy]; [assumption|].
      specialize (H2 y Hy Hlive). lia.
  - intros y Hy. now apply elem_of_nil in Hy.
Qed.

(** The first live connection after closing ones only. *)
Lemma least_busy_of_snoc_first pre x :
  is_closing x = false -> no_live_connection pre ->
  least_busy_of (pre ++ [x]) (Some x).
Proof.
  intros Hx Hpre. split; [assumption|].
  exists pre, []. split; [reflexivity|]. split.
  - intros y Hy Hlive. apply Hpre in Hy. congruence.
  - intros y Hy. now apply elem_of_nil in Hy.
Qed.

Lemma least_busy_step_spec pre r x :
  least_busy_of pre r -> least_busy_of (pre ++ [x]) (least_busy_step r x).
Proof.
  intros H. unfold least_busy_step.
  destruct (is_closing x) eqn:Hx; simpl.
  - now apply least_busy_of_snoc_closing.
  - destruct r as [c|].
    + unfold std_min. pose proof H as (Hc & _).
      rewrite least_busy_comp_live by assumption.
      destruct (Z.ltb_spec (inflight_request_count x) (inflight_request_count c)).
      * now apply (least_busy_of_snoc_replace pre c).
      * now apply least_busy_of_snoc_keep.
    + now apply least_busy_of_snoc_first.
Qed.

Lemma fold_least_busy_step_spec l : forall pre r,
  least_busy_of pre r ->
  least_busy_of (pre ++ l) (fold_left least_busy_step l r).
Proof.
  induction l as [|x l IH]; intros pre r H; simpl.
  - now rewrite app_nil_r.
  - replace (pre ++ x :: l) with ((pre ++ [x]) ++ l) by now rewrite <- app_assoc.
    apply IH. now apply least_busy_step_spec.
Qed.

Lemma fold_slots_concat (slots : list (list PooledConnection)) : forall r,
  fold_left (fun least_busy shard_pool => fold_left least_busy_step shard_pool least_busy)
            slots r
  = fold_left least_busy_step (concat slots) r.
Proof.
  induction slots as [|s slots IH]; intros r; simpl; [reflexivity|].
  now rewrite IH, fold_left_app.
Qed.

(** The search over all slots. *)
Lemma find_least_busy_all_spec p :
  least_busy_of (concat (connections_by_shard_ p)) (find_least_busy_all p).
Proof.
  unfold find_least_busy_all. rewrite fold_slots_concat.
  apply (fold_least_busy_step_spec _ [] None).
  intros c Hc. now apply elem_of_nil in Hc.
Qed.

Lemma smallest_so_far_step pre s y :
  smallest_so_far pre s ->
  smallest_so_far (pre ++ [y]) (if least_busy_comp y s then y else s).
Proof.
  intros H. destruct (is_closing y) eqn:Hy.
  - rewrite (proj2 (least_busy_comp_closing y s) Hy).
    destruct H as [[Hs Hpre]|H].
    + left. split; [assumption|].
      intros z Hz. apply elem_of_app in Hz as [Hz|Hz]; [now apply Hpre|].
      apply list_elem_of_singleton in Hz. congruence.
    + right. now apply least_busy_of_snoc_closing.
  - right. destruct H as [[Hs Hpre]|H].
    + rewrite (proj1 (least_busy_comp_closing y s) Hy Hs).
      now apply least_busy_of_snoc_first.
    + pose proof H as (Hs & _).
      rewrite least_busy_comp_live by assumption.
      destruct (Z.ltb_spec (inflight_request_count y) (inflight_request_count s)).
      * now apply (least_busy_of_snoc_replace pre s).
      * now apply least_busy_of_snoc_keep.
Qed.

Lemma smallest_so_far_fold l : forall pre s,
  smallest_so_far pre s ->
  smallest_so_far (pre ++ l)
    (fold_left (fun smallest y => if least_busy_comp y smallest then y else smallest) l s).
Proof.
  induction l as [|y l IH]; intros pre s H; simpl.
  - now rewrite app_nil_r.
  - replace (pre ++ y :: l) with ((pre ++ [y]) ++ l) by now rewrite <- app_assoc.
    apply IH. now apply smallest_so_far_step.
Qed.

Lemma min_element_spec l :
  match min_element least_busy_comp l with
  | None => l = []
  | Some it => l <> [] /\ smallest_so_far l it
  end.
Proof.
  destruct l as [|x r]; simpl; [reflexivity|].
  split; [discriminate|].
  apply (smallest_so_far_fold r [x] x).
  destruct (is_closing x) eqn:Hx.
  - left. split; [assumption|].
    intros z Hz. apply list_elem_of_singleton in Hz. congruence.
  - right. apply (least_busy_of_snoc_first [] x Hx).
    intros z Hz. now apply elem_of_nil in Hz.
Qed.

End Dispatch.

Lemma slot_index_in_range s n :
  0 <= s < n -> n <= 2 ^ 31 -> slot_index s = Z.to_nat s.
Proof.
  intros Hs Hn. unfold slot_index, size_t_of. rewrite wrap64_small; [reflexivity|lia].
Qed.

(** C2, as amended.  The pool is one whose host has no descriptor, or a
    descriptor with a shard count from 1 to 2^31 and a shift count from 0 to
    63 and one slot per shard, which is how the constructor sizes the pool;
    the token is a signed 64-bit value.
    With the sentinel token, or without a descriptor, [find_least_busy]
    returns the least busy non-closing connection over all slots, none when
    there is none.  With a descriptor and another token it looks at the slot
    of [shard_id(token)]: if that slot has a non-closing connection it
    returns the least busy of them, and if the slot is empty or holds closing
    connections only it returns the result of the search over all slots.
    Among equals the first in iteration order wins, and a non-closing
    connection is less busy than any closing one whatever their counts. *)
Theorem find_least_busy_spec (p : ConnectionPool) (token : Z) :
  in_int64 token ->
  covers_host p ->
  (token = CASS_INT64_MIN \/ host_sharding_info p = None ->
   exists r, find_least_busy p token = Ok r /\
             least_busy_of (concat (connections_by_shard_ p)) r) /\
  (forall si, host_sharding_info p = Some si -> token <> CASS_INT64_MIN ->
   exists s slot r,
     shard_id si token = Ok s /\
     connections_by_shard_ p !! Z.to_nat s = Some slot /\
     find_least_busy p token = Ok r /\
     (no_live_connection slot ->
      least_busy_of (concat (connections_by_shard_ p)) r) /\
     (~ no_live_connection slot -> is_Some r /\ least_busy_of slot r)) /\
  (forall a b, is_closing a = false -> is_closing b = true ->
     least_busy_comp a b = true /\ least_busy_comp b a = false).
Proof.
  intros Htok Hwf. split; [|split].
  - intros H. exists (find_least_busy_all p).
    split; [|apply find_least_busy_all_spec].
    unfold find_least_busy.
    destruct H as [->| ->]; [now rewrite Z.eqb_refl|].
    now rewrite orb_true_r.
  - intros si Hsi Hne. unfold covers_host in Hwf. rewrite Hsi in Hwf.
    destruct Hwf as ((Hn & Hm) & Hlen).
    pose proof (shard_id_correct si token Hn Hm) as Hs.
    assert (Hrange : 0 <= shard_id_reference token (shards_count si)
                            (sharding_ignore_MSB si) < shards_count si)
      by (apply shard_id_reference_range; lia).
    set (s := shard_id_reference token (shards_count si) (sharding_ignore_MSB si)) in *.
    destruct (lookup_lt_is_Some_2 (connections_by_shard_ p) (Z.to_nat s)) as [slot Hslot];
      [lia|].
    unfold find_least_busy. rewrite Hsi.
    replace (token =? CASS_INT64_MIN) with false by (symmetry; apply Z.eqb_neq; lia).
    cbn [has_value negb orb].
    rewrite Hs. cbn [mbind outcome_bind obind].
    rewrite (slot_index_in_range s (shards_count si)) by lia.
    rewrite Hslot.
    pose proof (min_element_spec slot) as Hmin.
    destruct (min_element least_busy_comp slot) as [it|].
    + destruct Hmin as (Hnil & [(Hit & Hall)|Hbest]).
      * rewrite Hit. exists s, slot, (find_least_busy_all p).
        split; [reflexivity|]. split; [assumption|]. split; [reflexivity|].
        split; [intros _; apply find_least_busy_all_spec|contradiction].
      * pose proof Hbest as (Hit & l1 & l2 & Hsplit & _).
        rewrite Hit. exists s, slot, (Some it).
        split; [reflexivity|]. split; [assumption|]. split; [reflexivity|].
        split.
        -- intros Hall. assert (Hin : it ∈ slot).
           { rewrite Hsplit. apply elem_of_app. right. apply elem_of_cons. now left. }
           apply Hall in Hin. congruence.
        -- intros _. split; [eauto|assumption].
    + subst slot. exists s, [], (find_least_busy_all p).
      split; [reflexivity|]. split; [assumption|]. split; [reflexivity|].
      split; [intros _; apply find_least_busy_all_spec|].
      intros H. exfalso. apply H. intros c Hc. now apply elem_of_nil in Hc.
  - intros a b Ha Hb. split.
    + now apply least_busy_comp_closing.
    + now apply least_busy_comp_closing.
Qed.

Lemma find_least_busy_spec_witness :
  exists s slot r,
    shard_id (sharding 4 12) 1234567890 = Ok s /\
    connections_by_shard_ sample_pool !! Z.to_nat s = Some slot /\
    find_least_busy sample_pool 1234567890 = Ok r /\
    (no_live_connection slot ->
     least_busy_of (concat (connections_by_shard_ sample_pool)) r) /\
    (~ no_live_connection slot -> is_Some r /\ least_busy_of slot r).
Proof.
  refine (proj1 (proj2 (find_least_busy_spec sample_pool 1234567890 _ _))
            (sharding 4 12) eq_refl _).
  - unfold in_int64. lia.
  - unfold covers_host, usable. simpl. lia.
  - unfold CASS_INT64_MIN, INT64_MIN. lia.
Defined.

(** C2 as stated, for every pool state, fails: the options below are parsed
    into a descriptor with [sharding_ignore_MSB = 64], the constructor builds
    the pool of that host, and [find_least_busy] with the token 0, which is
    not the sentinel, has no defined result: [shard_id] shifts by 64. *)
Lemma find_least_busy_undefined_for_parsed_shift_of_64 :
  exists d p0,
    parse_sharding_info
      (supported ["0"] ["2"] [Murmur3Partitioner] [biased_token_round_robin] ["64"])
    = Some d /\
    ConnectionPool_new [] (Some (csi_sharding_info d)) 2 = Ok p0 /\
    host_sharding_info p0 = Some (csi_sharding_info d) /\
    length (connections_by_shard_ p0) = 2%nat /\
    in_int64 0 /\
    0 <> CASS_INT64_MIN /\
    find_least_busy p0 0 = Fault UndefinedShift.
Proof.
  do 2 eexists. split; [vm_compute; reflexivity|].
  split; [vm_compute; reflexivity|].
  unfold in_int64. vm_compute. intuition congruence.
Qed.

(** C8.  [find_least_busy] called with the minimum signed 64-bit token is the
    call without a token: whatever the descriptor, the result is that of the
    search over all slots, the same as on a host with no descriptor for any
    token.  So a request whose token is that value is not served through its
    own shard's slot when another slot is less busy: in the sample pool the
    token maps to shard 0, where a connection is ready, and the connection of
    shard 1 is returned, while the next token gets the one of shard 0. *)
Theorem find_least_busy_min_token_is_no_token :
  (forall p,
      find_least_busy p CASS_INT64_MIN = Ok (find_least_busy_all p) /\
      (forall t, find_least_busy p CASS_INT64_MIN
                 = find_least_busy (without_descriptor p) t) /\
      least_busy_of (concat (connections_by_shard_ p)) (find_least_busy_all p)) /\
  (host_sharding_info sample_pool = Some (sharding 4 12) /\
   shard_id (sharding 4 12) CASS_INT64_MIN = Ok 0 /\
   connections_by_shard_ sample_pool !! 0%nat = Some [busy_on_shard_0] /\
   is_closing busy_on_shard_0 = false /\
   find_least_busy sample_pool CASS_INT64_MIN = Ok (Some idle_on_shard_1) /\
   find_least_busy sample_pool (CASS_INT64_MIN + 1) = Ok (Some busy_on_shard_0)).
Proof.
  split.
  - intros p.
    assert (H : find_least_busy p CASS_INT64_MIN = Ok (find_least_busy_all p)).
    { unfold find_least_busy. now rewrite Z.eqb_refl. }
    split; [exact H|]. split; [|apply find_least_busy_all_spec].
    intros t. rewrite H. unfold find_least_busy. simpl.
    now rewrite orb_true_r.
  - repeat split; vm_compute; reflexivity.
Qed.

(** ** The reconnect loop *)

Section Reconnect.

Lemma schedule_reconnect_reuse p schedule desired :
  desired = None \/ has_shard_aware_port (host_sharding_info p) = true ->
  let p' := schedule_reconnect (Some schedule) desired p in
  trace p' = trace p ++ [DelayedConnect (next_connector p) desired
                           (schedule_id schedule) (delays_taken schedule)] /\
  (exists new,
      pending_connections_ p' = pending_connections_ p ++ [new] /\
      connector_id new = next_connector p /\
      desired_shard_num new = desired) /\
  reconnection_schedules_ p'
  = <[next_connector p := next_delay_ms schedule]> (reconnection_schedules_ p) /\
  close_state_ p' = close_state_ p /\
  notify_state_ p' = notify_state_ p /\
  connections_by_shard_ p' = connections_by_shard_ p.
Proof.
  intros Hd. unfold schedule_reconnect. simpl.
  assert (E : match desired with
              | Some d => if has_shard_aware_port (host_sharding_info p)
                          then Some d else None
              | None => None
              end = desired).
  { destruct desired as [d|]; [|reflexivity].
    destruct Hd as [Hd|Hd]; [discriminate|now rewrite Hd]. }
  rewrite E. repeat split. eexists. repeat split.
Qed.

(** Every connector [schedule_reconnect] creates honours its desired shard. *)
Lemma schedule_reconnect_desired p schedule desired :
  forall k, k ∈ pending_connections_ (schedule_reconnect schedule desired p) ->
            k ∈ pending_connections_ p \/ desired_shard_honoured p k.
Proof.
  intros k. unfold schedule_reconnect.
  destruct schedule as [s|]; simpl; intros Hk;
    apply elem_of_app in Hk as [Hk|Hk]; auto;
    apply list_elem_of_singleton in Hk; subst k; right;
    unfold desired_shard_honoured; simpl;
    destruct desired; auto;
    destruct (has_shard_aware_port (host_sharding_info p)); auto.
Qed.

Lemma no_room_test p c :
  no_room p c ->
  (size_t_of (conn_shard_id c) <? Z.of_nat (length (connections_by_shard_ p)))
  && (Z.of_nat (length (default [] (connections_by_shard_ p
                                      !! Z.to_nat (size_t_of (conn_shard_id c)))))
      <? num_connections_per_shard_ p) = false.
Proof.
  intros H. unfold no_room, slot_index in H.
  destruct (connections_by_shard_ p !! Z.to_nat (size_t_of (conn_shard_id c)))
    as [slot|] eqn:E.
  - specialize (H slot eq_refl). simpl.
    apply andb_false_iff. right. apply Z.ltb_ge. exact H.
  - apply andb_false_iff. left. apply Z.ltb_ge.
    apply lookup_ge_None in E.
    assert (0 <= size_t_of (conn_shard_id c))
      by (unfold size_t_of, wrap64; apply Z.mod_pos_bound; lia).
    lia.
Qed.

End Reconnect.

(** C5.  In an open pool, when a connector reports a connection for which no
    slot has room, the pool closes that connection and starts a new connector
    with the desired shard of the old one and with the old one's schedule,
    from which the next delay is taken; after a transient error it does the
    same without a connection to close.  Neither changes the notify state,
    emits a critical error or closes the pool. *)
Theorem reconnect_reuses_schedule
  (p : ConnectionPool) (k : DelayedConnector) (schedule : ReconnectionSchedule) :
  close_state_ p = CLOSE_STATE_OPEN ->
  reconnection_schedules_ p !! connector_id k = Some schedule ->
  desired_shard_honoured p k ->
  (is_ok k = true /\ no_room p (release_connection k)) \/
  (is_ok k = false /\ is_canceled k = false /\ is_critical_error k = false) ->
  exists p',
    on_reconnect k p = Ok p' /\
    trace p'
    = trace p
      ++ (if is_ok k then [ConnClose (conn_id (release_connection k))] else [])
      ++ [DelayedConnect (next_connector p) (desired_shard_num k)
            (schedule_id schedule) (delays_taken schedule)] /\
    (exists new,
        pending_connections_ p'
        = remove_connector k (pending_connections_ p) ++ [new] /\
        connector_id new = next_connector p /\
        desired_shard_num new = desired_shard_num k) /\
    reconnection_schedules_ p'
    = <[next_connector p := next_delay_ms schedule]>
        (delete (connector_id k) (reconnection_schedules_ p)) /\
    close_state_ p' = CLOSE_STATE_OPEN /\
    notify_state_ p' = notify_state_ p /\
    connections_by_shard_ p' = connections_by_shard_ p.
Proof.
  intros Hopen Hsched Hdesired Hcase.
  unfold on_reconnect. simpl. rewrite Hsched, Hopen. simpl.
  destruct Hcase as [(Hok & Hroom)|(Hok & Hcan & Hcrit)].
  - rewrite Hok. apply no_room_test in Hroom. rewrite Hroom.
    eexists. split; [reflexivity|].
    match goal with
    | |- context [schedule_reconnect (Some ?s) ?d ?q] =>
        destruct (schedule_reconnect_reuse q s d Hdesired)
          as (Ht & Hp & Hs & Hc & Hn & Hv)
    end.
    rewrite Ht, Hs, Hc, Hn, Hv. simpl.
    rewrite <- app_assoc. repeat split; try assumption.
  - rewrite Hok, Hcan, Hcrit. simpl.
    eexists. split; [reflexivity|].
    match goal with
    | |- context [schedule_reconnect (Some ?s) ?d ?q] =>
        destruct (schedule_reconnect_reuse q s d Hdesired)
          as (Ht & Hp & Hs & Hc & Hn & Hv)
    end.
    rewrite Ht, Hs, Hc, Hn, Hv. simpl. repeat split; try assumption.
Qed.

Lemma reconnect_reuses_schedule_witness :
  exists p',
    on_reconnect (connected second_on_shard_0 waiting_connector) reconnecting_pool
    = Ok p' /\
    trace p' = [OnPoolUp] ++ [ConnClose 9] ++ [DelayedConnect 8 None 3 2] /\
    (exists new,
        pending_connections_ p' = [] ++ [new] /\
        connector_id new = 8%nat /\
        desired_shard_num new = None) /\
    reconnection_schedules_ p'
    = <[8%nat := mkSchedule 3 3]> (delete 7%nat {[ 7%nat := mkSchedule 3 2 ]}) /\
    close_state_ p' = CLOSE_STATE_OPEN /\
    notify_state_ p' = NOTIFY_STATE_UP /\
    connections_by_shard_ p' = [[busy_on_shard_0]; [idle_on_shard_1]].
Proof.
  apply (reconnect_reuses_schedule reconnecting_pool
           (connected second_on_shard_0 waiting_connector) (mkSchedule 3 2)).
  - reflexivity.
  - reflexivity.
  - left. reflexivity.
  - left. split; [reflexivity|].
    intros slot Hslot. vm_compute in Hslot. injection Hslot as <-. simpl. lia.
Defined.

(** After a transient error the same schedule gives its next delay. *)
Lemma reconnect_after_transient_error :
  exists p',
    on_reconnect (failed_transiently 3 "connection refused" waiting_connector)
      reconnecting_pool = Ok p' /\
    trace p' = [OnPoolUp; DelayedConnect 8 None 3 2] /\
    reconnection_schedules_ p' !! 8%nat = Some (mkSchedule 3 3).
Proof. eexists. split; [vm_compute; reflexivity|]. split; reflexivity. Qed.

(** ** Closing *)

Section Closing.

Lemma has_connections_false p :
  has_connections p = false <-> concat (connections_by_shard_ p) = [].
Proof.
  unfold has_connections.
  induction (connections_by_shard_ p) as [|v l IH]; simpl; [tauto|].
  destruct v as [|c v]; simpl; [exact IH|]. split; discriminate.
Qed.

(** The first call: every connection is closed, every pending connector is
    canceled, in the state CLOSING, and the pool then waits. *)
Lemma waiting_for_connections_spec p :
  let w := waiting_for_connections p in
  close_state_ (close_connections (set_close_state p CLOSE_STATE_CLOSING))
  = CLOSE_STATE_CLOSING /\
  close_state_ w = CLOSE_STATE_WAITING_FOR_CONNECTIONS /\
  trace w = trace p
            ++ map (fun c => ConnClose (conn_id c)) (concat (connections_by_shard_ p))
            ++ map (fun k => ConnectorCancel (connector_id k)) (pending_connections_ p) /\
  connections_by_shard_ w = map (map mark_closing) (connections_by_shard_ p) /\
  pending_connections_ w = pending_connections_ p /\
  notify_state_ w = notify_state_ p /\
  ref_count_ w = ref_count_ p.
Proof.
  unfold waiting_for_connections, cancel_connectors, close_connections. simpl.
  rewrite <- app_assoc. repeat split.
Qed.

Lemma internal_close_open p :
  close_state_ p = CLOSE_STATE_OPEN ->
  internal_close p = maybe_closed (waiting_for_connections p).
Proof. intros H. unfold internal_close. now rewrite H. Qed.

Lemma internal_close_not_open p :
  close_state_ p <> CLOSE_STATE_OPEN -> internal_close p = p.
Proof.
  intros H. unfold internal_close. now rewrite bool_decide_eq_false_2.
Qed.

Lemma maybe_closed_terminal p :
  terminal p ->
  let p' := maybe_closed p in
  close_state_ p' = CLOSE_STATE_CLOSED /\
  trace p' = trace p
             ++ (if bool_decide (notify_state_ p = NOTIFY_STATE_UP)
                 then [OnPoolDown] else [])
             ++ [OnClose] /\
  ref_count_ p' = ref_count_ p - 1 /\
  notify_state_ p' = notify_state_ p /\
  connections_by_shard_ p' = connections_by_shard_ p /\
  pending_connections_ p' = pending_connections_ p /\
  reconnection_schedules_ p' = reconnection_schedules_ p.
Proof.
  intros (Hc & Hh & Hp). unfold maybe_closed. rewrite Hc, Hh, Hp. simpl.
  destruct (bool_decide (notify_state_ p = NOTIFY_STATE_UP)); simpl;
    rewrite <- ?app_assoc; repeat split; assumption.
Qed.

Lemma maybe_closed_not_terminal p :
  ~ terminal p -> maybe_closed p = p.
Proof.
  intros H. unfold maybe_closed.
  destruct (bool_decide (close_state_ p = CLOSE_STATE_WAITING_FOR_CONNECTIONS)) eqn:E1;
    [|reflexivity].
  destruct (has_connections p) eqn:E2; [reflexivity|].
  destruct (bool_decide (pending_connections_ p = [])) eqn:E3; [|reflexivity].
  exfalso. apply H. unfold terminal.
  apply bool_decide_eq_true in E1, E3. auto.
Qed.

Lemma terminal_dec p : terminal p \/ ~ terminal p.
Proof.
  unfold terminal.
  destruct (decide (close_state_ p = CLOSE_STATE_WAITING_FOR_CONNECTIONS));
    destruct (has_connections p);
    destruct (pending_connections_ p); intuition congruence.
Qed.

Lemma close_state_internal_close p :
  close_state_ (internal_close p) <> CLOSE_STATE_OPEN.
Proof.
  destruct (decide (close_state_ p = CLOSE_STATE_OPEN)) as [H|H].
  - rewrite internal_close_open by assumption.
    destruct (terminal_dec (waiting_for_connections p)) as [T|T].
    + destruct (maybe_closed_terminal _ T) as (-> & _). discriminate.
    + rewrite maybe_closed_not_terminal by assumption. simpl. discriminate.
  - now rewrite internal_close_not_open.
Qed.

End Closing.

(** ** The listener's view of the pool's methods *)

Section Views.

Implicit Types (p : ConnectionPool) (v : view).

Lemma notifications_emit p es :
  notifications (emit p es) = notifications p ++ List.filter is_notification es.
Proof. unfold notifications. simpl. apply List.filter_app. Qed.

Lemma notifications_quiet {A} (f : A -> event) (l : list A) :
  (forall a, is_notification (f a) = false) ->
  List.filter is_notification (map f l) = [].
Proof.
  intros H. induction l as [|a l IH]; simpl; [reflexivity|]. now rewrite H.
Qed.

(** Two pools that differ in neither state dimension, reference count nor
    trace look the same. *)
Lemma view_of_ext p q :
  close_state_ q = close_state_ p ->
  notify_state_ q = notify_state_ p ->
  ref_count_ q = ref_count_ p ->
  notifications q = notifications p ->
  view_of q = view_of p.
Proof. unfold view_of. now intros -> -> -> ->. Qed.

Lemma view_schedule_reconnect schedule desired p :
  view_of (schedule_reconnect schedule desired p) = view_of p.
Proof.
  unfold schedule_reconnect.
  destruct schedule; simpl; apply view_of_ext; simpl; try reflexivity;
    unfold notifications; simpl; rewrite List.filter_app; simpl;
    now rewrite app_nil_r.
Qed.

Lemma view_notify_up_or_down p :
  rtc vstep (view_of p) (view_of (notify_up_or_down p)).
Proof.
  unfold notify_up_or_down.
  destruct ((bool_decide (notify_state_ p = NOTIFY_STATE_NEW)
             || bool_decide (notify_state_ p = NOTIFY_STATE_UP))
            && negb (has_connections p)) eqn:E1.
  - apply rtc_once. unfold view_of. rewrite notifications_emit. simpl.
    apply vstep_down.
    apply andb_prop in E1 as [E1 _]. apply orb_prop in E1 as [E1|E1];
      apply bool_decide_eq_true in E1; auto.
  - destruct ((bool_decide (notify_state_ p = NOTIFY_STATE_NEW)
               || bool_decide (notify_state_ p = NOTIFY_STATE_DOWN))
              && has_connections p) eqn:E2.
    + apply rtc_once. unfold view_of. rewrite notifications_emit. simpl.
      apply vstep_up.
      apply andb_prop in E2 as [E2 _]. apply orb_prop in E2 as [E2|E2];
        apply bool_decide_eq_true in E2; auto.
    + apply rtc_refl.
Qed.

Lemma view_notify_critical_error code message p :
  rtc vstep (view_of p) (view_of (notify_critical_error code message p)).
Proof.
  unfold notify_critical_error.
  destruct (bool_decide (notify_state_ p = NOTIFY_STATE_CRITICAL)) eqn:E; simpl.
  - apply rtc_refl.
  - apply rtc_once. unfold view_of. rewrite notifications_emit. simpl.
    apply vstep_critical. now apply bool_decide_eq_false in E.
Qed.

Lemma view_maybe_closed p :
  rtc vstep (view_of p) (view_of (maybe_closed p)).
Proof.
  destruct (terminal_dec p) as [T|T].
  - destruct (maybe_closed_terminal p T) as (Hc & Ht & Hr & Hn & _).
    apply rtc_once. unfold view_of, notifications.
    rewrite Hc, Ht, Hr, Hn. destruct T as (-> & _).
    rewrite !List.filter_app.
    replace (List.filter is_notification
               (if bool_decide (notify_state_ p = NOTIFY_STATE_UP)
                then [OnPoolDown] else []))
      with (if bool_decide (notify_state_ p = NOTIFY_STATE_UP)
            then [OnPoolDown] else [])
      by (now destruct (bool_decide (notify_state_ p = NOTIFY_STATE_UP))).
    apply vstep_closed.
  - rewrite maybe_closed_not_terminal by assumption. apply rtc_refl.
Qed.

Lemma view_waiting_for_connections p :
  close_state_ p = CLOSE_STATE_OPEN ->
  vstep (view_of p) (view_of (waiting_for_connections p)).
Proof.
  intros H.
  destruct (waiting_for_connections_spec p) as (_ & Hc & Ht & _ & _ & Hn & Hr).
  unfold view_of, notifications. rewrite Hc, Ht, Hn, Hr, H.
  rewrite !List.filter_app, !notifications_quiet by reflexivity.
  rewrite !app_nil_r. apply vstep_closing.
Qed.

Lemma view_internal_close p :
  rtc vstep (view_of p) (view_of (internal_close p)).
Proof.
  destruct (decide (close_state_ p = CLOSE_STATE_OPEN)) as [H|H].
  - rewrite internal_close_open by assumption.
    eapply rtc_l; [now apply view_waiting_for_connections|].
    apply view_maybe_closed.
  - rewrite internal_close_not_open by assumption. apply rtc_refl.
Qed.

Lemma view_add_connection c p p' :
  add_connection c p = Ok p' -> view_of p' = view_of p.
Proof.
  unfold add_connection.
  destruct (connections_by_shard_ p !! slot_index (conn_shard_id c));
    [|discriminate].
  now intros [= <-].
Qed.

Lemma view_close_connection c p p' :
  close_connection c p = Ok p' -> rtc vstep (view_of p) (view_of p').
Proof.
  unfold close_connection.
  destruct (connections_by_shard_ p !! slot_index (conn_shard_id c)) as [slot|];
    [|discriminate].
  simpl.
  destruct (bool_decide (close_state_ p = CLOSE_STATE_OPEN)); simpl;
    intros [= <-].
  - rewrite view_schedule_reconnect.
    match goal with |- rtc _ _ (view_of (notify_up_or_down ?q)) =>
      change (view_of p) with (view_of q) end.
    apply view_notify_up_or_down.
  - match goal with |- rtc _ _ (view_of (maybe_closed ?q)) =>
      change (view_of p) with (view_of q) end.
    apply view_maybe_closed.
Qed.

Lemma view_on_reconnect k p p' :
  on_reconnect k p = Ok p' -> rtc vstep (view_of p) (view_of p').
Proof.
  unfold on_reconnect. simpl.
  destruct (reconnection_schedules_ p !! connector_id k) as [schedule|];
    [|discriminate].
  set (q := set_schedules _ _).
  change (view_of p) with (view_of q).
  destruct (bool_decide (close_state_ p = CLOSE_STATE_OPEN)); simpl.
  2: { intros [= <-]. apply view_maybe_closed. }
  destruct (is_ok k).
  { match goal with |- context [if ?b then _ else _] => destruct b end.
    - destruct (add_connection (release_connection k) q) as [q'|] eqn:E;
        simpl; [|discriminate].
      intros [= <-]. apply view_add_connection in E. rewrite <- E.
      apply view_notify_up_or_down.
    - intros [= <-]. rewrite view_schedule_reconnect.
      replace (view_of (emit q [ConnClose (conn_id (release_connection k))]))
        with (view_of q); [apply rtc_refl|].
      symmetry. apply view_of_ext; try reflexivity.
      rewrite notifications_emit. simpl. now rewrite app_nil_r. }
  destruct (is_canceled k); simpl.
  { intros [= <-]. apply rtc_refl. }
  destruct (is_critical_error k).
  - intros [= <-].
    eapply rtc_trans; [apply view_notify_critical_error|].
    apply view_internal_close.
  - intros [= <-]. rewrite view_schedule_reconnect. apply rtc_refl.
Qed.

(** Every call moves the view along the steps of the state machine. *)
Lemma view_run_op o p p' :
  run_op p o = Ok p' -> rtc vstep (view_of p) (view_of p').
Proof.
  destruct o as [|c|k]; simpl.
  - intros [= <-]. apply view_internal_close.
  - apply view_close_connection.
  - apply view_on_reconnect.
Qed.

Lemma view_exec ops : forall p p',
  exec ops p = Ok p' -> rtc vstep (view_of p) (view_of p').
Proof.
  unfold exec. induction ops as [|o ops IH]; simpl; intros p p'.
  - intros [= <-]. apply rtc_refl.
  - destruct (run_op p o) as [q|] eqn:E; simpl; [|discriminate].
    intros H. eapply rtc_trans; [eapply view_run_op; eassumption|now apply IH].
Qed.

End Views.

Section Construction.

Implicit Types (p : ConnectionPool) (c : PooledConnection).

(** A property that [schedule_reconnect] keeps is kept by the constructor's
    loop over the slots. *)
Lemma reconnect_missing_keeps (P : ConnectionPool -> Prop) :
  (forall schedule desired p, P p -> P (schedule_reconnect schedule desired p)) ->
  forall shards p, P p -> P (fold_left reconnect_missing shards p).
Proof.
  intros HP shards. induction shards as [|s shards IH]; intros p Hp; simpl;
    [assumption|].
  apply IH. unfold reconnect_missing.
  generalize (Z.to_nat
                (sint32 (wrap64 (num_connections_per_shard_ p
                   - Z.of_nat (length (default [] (connections_by_shard_ p !! s))))))).
  intros n. induction n as [|n IHn]; simpl; [assumption|].
  destruct (has_shard_aware_port (host_sharding_info _)); now apply HP.
Qed.

Lemma view_place_connection p c p' :
  place_connection p c = Ok p' -> view_of p' = view_of p.
Proof.
  unfold place_connection.
  destruct (is_closing c); simpl; [now intros [= <-]|].
  destruct (connections_by_shard_ p !! slot_index (conn_shard_id c)) as [slot|];
    [|discriminate].
  destruct (Z.of_nat (length slot) <? num_connections_per_shard_ p).
  - apply view_add_connection.
  - intros [= <-]. apply view_of_ext; try reflexivity.
    rewrite notifications_emit. simpl. now rewrite app_nil_r.
Qed.

Lemma foldM_keeps {A S} (f : S -> A -> outcome S) (P : S -> Prop) :
  (forall s a s', f s a = Ok s' -> P s -> P s') ->
  forall l s s', foldM f l s = Ok s' -> P s -> P s'.
Proof.
  intros HP l. induction l as [|a l IH]; simpl; intros s s'.
  - now intros [= <-].
  - destruct (f s a) as [s1|] eqn:E; simpl; [|discriminate].
    intros H Hs. eapply IH; [eassumption|]. eapply HP; eassumption.
Qed.

(** What the constructor computes before its loops. *)
Lemma ConnectionPool_new_inv connections si n p0 :
  ConnectionPool_new connections si n = Ok p0 ->
  exists per_shard p1,
    foldM place_connection connections
      (mkPool si n CLOSE_STATE_OPEN NOTIFY_STATE_NEW
         (replicate (Z.to_nat (host_shard_slots si)) []) per_shard [] ∅ 1 [] 0 0)
    = Ok p1 /\
    p0 = fold_left reconnect_missing
           (seq 0 (length (connections_by_shard_ (notify_up_or_down p1))))
           (notify_up_or_down p1) /\
    match si with
    | Some si => shards_count si <> 0 /\ shards_count si <= vector_max_size
    | None => True
    end.
Proof.
  unfold ConnectionPool_new, host_shard_slots.
  destruct si as [si|]; simpl.
  - unfold get_shards_count.
    destruct (Z.ltb_spec vector_max_size (shards_count si)); simpl; [discriminate|].
    destruct (Z.eqb_spec (shards_count si) 0); simpl; [discriminate|].
    match goal with |- context [foldM place_connection connections ?q] =>
      destruct (foldM place_connection connections q) as [p1|] eqn:E end;
      simpl; [|discriminate].
    intros [= <-]. do 2 eexists. split; [exact E|]. split; [reflexivity|].
    split; assumption.
  - match goal with |- context [foldM place_connection connections ?q] =>
      destruct (foldM place_connection connections q) as [p1|] eqn:E end;
      simpl; [|discriminate].
    intros [= <-]. do 2 eexists. split; [exact E|]. split; reflexivity.
Qed.

(** The constructor moves the view from its initial value along the steps of
    the state machine. *)
Lemma view_ConnectionPool_new connections si n p0 :
  ConnectionPool_new connections si n = Ok p0 ->
  rtc vstep initial_view (view_of p0).
Proof.
  intros H. apply ConnectionPool_new_inv in H as (per_shard & p1 & Hfold & -> & _).
  match goal with |- rtc _ _ (view_of (fold_left _ ?l ?q)) =>
    assert (E : view_of (fold_left reconnect_missing l q) = view_of q) end.
  { apply (reconnect_missing_keeps
             (fun p => view_of p = view_of (notify_up_or_down p1)));
      [|reflexivity].
    intros schedule desired p Hp. now rewrite view_schedule_reconnect. }
  rewrite E.
  eapply rtc_trans; [|apply view_notify_up_or_down].
  replace (view_of p1) with initial_view; [apply rtc_refl|].
  symmetry.
  apply (foldM_keeps place_connection (fun p => view_of p = initial_view)
           (fun s a s' Hs Hv => eq_trans (view_place_connection s a s' Hs) Hv)
           _ _ _ Hfold).
  reflexivity.
Qed.

End Construction.

(** ** The state machine of the view *)

Section StateMachine.

Implicit Types v : view.

Lemma closes_app c n r es l :
  closes (mkView c n r (es ++ l))
  = (closes (mkView c n r es) + length (List.filter is_on_close l))%nat.
Proof. unfold closes. simpl. now rewrite List.filter_app, length_app. Qed.

Lemma criticals_app c n r es l :
  criticals (mkView c n r (es ++ l))
  = (criticals (mkView c n r es) + length (List.filter is_critical_error_event l))%nat.
Proof. unfold criticals. simpl. now rewrite List.filter_app, length_app. Qed.

Lemma closed_once_initial : closed_once initial_view.
Proof. right. repeat split. discriminate. Qed.

Lemma critical_once_initial : critical_once initial_view.
Proof. right. repeat split. discriminate. Qed.

Lemma closed_once_step v v' : vstep v v' -> closed_once v -> closed_once v'.
Proof.
  intros Hstep. destruct Hstep; unfold closed_once; simpl;
    rewrite ?closes_app; unfold closes; simpl; intros [(Hc & Hn & Hr)|(Hc & Hn & Hr)];
    try discriminate; try contradiction.
  all: try (left; repeat split; [assumption|lia|assumption]).
  all: try (right; repeat split; [assumption|lia|assumption]).
  - right. repeat split; [discriminate|assumption|assumption].
  - left. repeat split; [|lia].
    destruct (bool_decide (n = NOTIFY_STATE_UP)); simpl; lia.
Qed.

Lemma critical_once_step v v' : vstep v v' -> critical_once v -> critical_once v'.
Proof.
  intros Hstep. destruct Hstep; unfold critical_once; simpl;
    rewrite ?criticals_app; unfold criticals; simpl.
  - intros [(Hn & _)|(Hn & Hc)]; [destruct H; congruence|].
    right. split; [discriminate|lia].
  - intros [(Hn & _)|(Hn & Hc)]; [destruct H; congruence|].
    right. split; [discriminate|lia].
  - intros [(Hn & _)|(Hn & Hc)]; [contradiction|].
    left. split; [reflexivity|lia].
  - trivial.
  - rewrite List.filter_app, length_app.
    destruct (bool_decide (n = NOTIFY_STATE_UP)); simpl;
      intros [(Hn & Hc)|(Hn & Hc)]; [left|right|left|right]; split;
      try assumption; lia.
Qed.

(** CRITICAL is terminal for the notify dimension: from there the only
    notification left is [on_close]. *)
Lemma critical_absorbing_step v v' :
  vstep v v' -> v_notify v = NOTIFY_STATE_CRITICAL ->
  v_notify v' = NOTIFY_STATE_CRITICAL /\
  exists es, v_events v' = v_events v ++ es /\ Forall (fun e => e = OnClose) es.
Proof.
  intros Hstep. destruct Hstep; simpl; intros Hn.
  - destruct H; congruence.
  - destruct H; congruence.
  - contradiction.
  - split; [assumption|]. exists []. now rewrite app_nil_r.
  - split; [assumption|]. subst n. simpl. exists [OnClose]. split; [reflexivity|].
    now constructor.
Qed.

Lemma closed_once_rtc v v' : rtc vstep v v' -> closed_once v -> closed_once v'.
Proof. induction 1; [trivial|]. intros. eauto using closed_once_step. Qed.

Lemma critical_once_rtc v v' : rtc vstep v v' -> critical_once v -> critical_once v'.
Proof. induction 1; [trivial|]. intros. eauto using critical_once_step. Qed.

Lemma critical_absorbing_rtc v v' :
  rtc vstep v v' -> v_notify v = NOTIFY_STATE_CRITICAL ->
  v_notify v' = NOTIFY_STATE_CRITICAL /\
  exists es, v_events v' = v_events v ++ es /\ Forall (fun e => e = OnClose) es.
Proof.
  induction 1 as [v|v w v' Hstep _ IH]; intros Hn.
  - split; [assumption|]. exists []. now rewrite app_nil_r.
  - destruct (critical_absorbing_step _ _ Hstep Hn) as (Hw & es1 & E1 & F1).
    destruct (IH Hw) as (Hv' & es2 & E2 & F2).
    split; [assumption|]. exists (es1 ++ es2).
    split; [now rewrite E2, E1, app_assoc|].
    now apply Forall_app.
Qed.

End StateMachine.

Section ReachingClosed.

Implicit Types p q : ConnectionPool.

Lemma has_connections_ext p q :
  connections_by_shard_ q = connections_by_shard_ p ->
  has_connections q = has_connections p.
Proof. unfold has_connections. now intros ->. Qed.

Lemma view_close_state p q :
  view_of q = view_of p -> close_state_ q = close_state_ p.
Proof. unfold view_of. now intros [= -> _ _ _]. Qed.

(** [maybe_closed] is the only way into CLOSED, and it is taken from a
    terminal state only. *)
Lemma maybe_closed_reaches_closed q :
  close_state_ (maybe_closed q) = CLOSE_STATE_CLOSED ->
  close_state_ q <> CLOSE_STATE_CLOSED ->
  terminal q /\
  has_connections (maybe_closed q) = false /\
  pending_connections_ (maybe_closed q) = [].
Proof.
  intros Hc Hq. destruct (terminal_dec q) as [T|T].
  - split; [assumption|].
    destruct (maybe_closed_terminal q T) as (_ & _ & _ & _ & Hv & Hp & _).
    rewrite Hp, (has_connections_ext _ _ Hv). now destruct T as (_ & ? & ?).
  - rewrite maybe_closed_not_terminal in Hc by assumption. contradiction.
Qed.

Lemma internal_close_reaches_closed p :
  close_state_ (internal_close p) = CLOSE_STATE_CLOSED ->
  close_state_ p <> CLOSE_STATE_CLOSED ->
  has_connections (internal_close p) = false /\
  pending_connections_ (internal_close p) = [].
Proof.
  intros Hc Hp. destruct (decide (close_state_ p = CLOSE_STATE_OPEN)) as [H|H].
  - rewrite internal_close_open in * by assumption.
    apply maybe_closed_reaches_closed; [assumption|]. simpl. discriminate.
  - rewrite internal_close_not_open in Hc by assumption. contradiction.
Qed.

Lemma close_state_schedule_reconnect schedule desired p :
  close_state_ (schedule_reconnect schedule desired p) = close_state_ p.
Proof. apply view_close_state, view_schedule_reconnect. Qed.

Lemma close_state_notify_up_or_down p :
  close_state_ (notify_up_or_down p) = close_state_ p.
Proof.
  unfold notify_up_or_down.
  repeat match goal with |- context [if ?b then _ else _] => destruct b end;
    reflexivity.
Qed.

Lemma close_state_notify_critical_error code message p :
  close_state_ (notify_critical_error code message p) = close_state_ p.
Proof.
  unfold notify_critical_error.
  now destruct (negb (bool_decide (notify_state_ p = NOTIFY_STATE_CRITICAL))).
Qed.

(** A call after which the pool is CLOSED, and before which it was not,
    leaves neither a connection nor a pending connector. *)
Lemma run_op_reaches_closed o p p' :
  run_op p o = Ok p' ->
  close_state_ p <> CLOSE_STATE_CLOSED ->
  close_state_ p' = CLOSE_STATE_CLOSED ->
  has_connections p' = false /\ pending_connections_ p' = [].
Proof.
  destruct o as [|c|k]; simpl.
  - intros [= <-] Hp Hc. now apply internal_close_reaches_closed.
  - unfold close_connection.
    destruct (connections_by_shard_ p !! slot_index (conn_shard_id c)) as [slot|];
      [|discriminate].
    simpl. destruct (bool_decide (close_state_ p = CLOSE_STATE_OPEN)) eqn:E; simpl;
      intros [= <-] Hp Hc.
    + rewrite close_state_schedule_reconnect, close_state_notify_up_or_down in Hc.
      simpl in Hc. apply bool_decide_eq_true in E. congruence.
    + now apply maybe_closed_reaches_closed.
  - unfold on_reconnect. simpl.
    destruct (reconnection_schedules_ p !! connector_id k) as [schedule|];
      [|discriminate].
    set (q := set_schedules _ _).
    destruct (bool_decide (close_state_ p = CLOSE_STATE_OPEN)) eqn:E; simpl.
    2: { intros [= <-] Hp Hc. now apply maybe_closed_reaches_closed. }
    apply bool_decide_eq_true in E.
    destruct (is_ok k).
    { match goal with |- context [if ?b then _ else _] => destruct b end.
      - destruct (add_connection (release_connection k) q) as [q'|] eqn:Ea;
          simpl; [|discriminate].
        intros [= <-] Hp Hc. rewrite close_state_notify_up_or_down in Hc.
        apply view_add_connection, view_close_state in Ea.
        simpl in Ea. congruence.
      - intros [= <-] Hp Hc. rewrite close_state_schedule_reconnect in Hc.
        simpl in Hc. congruence. }
    destruct (is_canceled k); simpl.
    { intros [= <-] Hp Hc. simpl in Hc. congruence. }
    destruct (is_critical_error k).
    + intros [= <-] Hp Hc. apply internal_close_reaches_closed; [assumption|].
      rewrite close_state_notify_critical_error. simpl. congruence.
    + intros [= <-] Hp Hc. rewrite close_state_schedule_reconnect in Hc.
      simpl in Hc. congruence.
Qed.

End ReachingClosed.

(** C6.  [close()] on an open pool passes through CLOSING, where it closes
    every connection of every slot and cancels every pending connector,
    arrives at WAITING_FOR_CONNECTIONS and evaluates the terminal condition;
    on a pool that is not open it does nothing, so a second call changes
    nothing.  The terminal condition holds exactly in WAITING_FOR_CONNECTIONS
    with no connection and no pending connector: then the pool becomes CLOSED,
    emits DOWN if the notify state is UP, emits [on_close] and gives up its
    self-reference; in any other state [maybe_closed] changes nothing.  A call
    that takes the pool to CLOSED leaves no connection and no connector, and
    over every run of a constructed pool [on_close] has been emitted once if
    the pool is CLOSED and never otherwise. *)
Theorem close_protocol :
  (forall p, close_state_ p = CLOSE_STATE_OPEN ->
     close p = maybe_closed (waiting_for_connections p) /\
     close_state_ (close_connections (set_close_state p CLOSE_STATE_CLOSING))
     = CLOSE_STATE_CLOSING /\
     close_state_ (waiting_for_connections p) = CLOSE_STATE_WAITING_FOR_CONNECTIONS /\
     trace (waiting_for_connections p)
     = trace p
       ++ map (fun c => ConnClose (conn_id c)) (concat (connections_by_shard_ p))
       ++ map (fun k => ConnectorCancel (connector_id k)) (pending_connections_ p)) /\
  (forall p, close_state_ p <> CLOSE_STATE_OPEN -> close p = p) /\
  (forall p, close (close p) = close p) /\
  (forall p, terminal p ->
     close_state_ (maybe_closed p) = CLOSE_STATE_CLOSED /\
     trace (maybe_closed p)
     = trace p
       ++ (if bool_decide (notify_state_ p = NOTIFY_STATE_UP) then [OnPoolDown] else [])
       ++ [OnClose] /\
     ref_count_ (maybe_closed p) = ref_count_ p - 1) /\
  (forall p, ~ terminal p -> maybe_closed p = p) /\
  (forall p o p', run_op p o = Ok p' ->
     close_state_ p <> CLOSE_STATE_CLOSED ->
     close_state_ p' = CLOSE_STATE_CLOSED ->
     has_connections p' = false /\ pending_connections_ p' = []) /\
  (forall connections si n p0 ops p,
     ConnectionPool_new connections si n = Ok p0 ->
     exec ops p0 = Ok p ->
     closed_once (view_of p)).
Proof.
  split.
  { intros p H. split; [now apply internal_close_open|].
    destruct (waiting_for_connections_spec p) as (H1 & H2 & H3 & _). auto. }
  split; [intros p H; now apply internal_close_not_open|].
  split.
  { intros p. apply internal_close_not_open, close_state_internal_close. }
  split.
  { intros p T. destruct (maybe_closed_terminal p T) as (H1 & H2 & H3 & _). auto. }
  split; [intros p T; now apply maybe_closed_not_terminal|].
  split; [intros p o p'; apply run_op_reaches_closed|].
  intros connections si n p0 ops p Hnew Hexec.
  eapply closed_once_rtc; [|apply closed_once_initial].
  eapply rtc_trans; [eapply view_ConnectionPool_new; eassumption|].
  now apply (view_exec ops).
Qed.

Lemma close_protocol_witness :
  exists p,
    exec [Close; OnReconnect (canceled first_connector);
          OnReconnect (canceled second_connector)] cold_pool = Ok p /\
    close_state_ p = CLOSE_STATE_CLOSED /\
    closed_once (view_of p).
Proof.
  eexists. split; [vm_compute; reflexivity|]. split; [reflexivity|].
  apply (proj2 (proj2 (proj2 (proj2 (proj2 (proj2 close_protocol)))))
           [] None 2 cold_pool
           [Close; OnReconnect (canceled first_connector);
            OnReconnect (canceled second_connector)]);
    vm_compute; reflexivity.
Defined.

(** C9.  Once the notify state is CRITICAL it stays CRITICAL over every run,
    and the only notification the listener still gets is [on_close]: no
    [on_pool_up], no [on_pool_down], no second [on_pool_critical_error].
    Over every run of a constructed pool [on_pool_critical_error] has been
    emitted once if the notify state is CRITICAL and never otherwise.
    [notify_up_or_down] and [notify_critical_error] do nothing in CRITICAL,
    and [maybe_closed] emits no DOWN unless the notify state is UP. *)
Theorem critical_is_terminal :
  (forall p ops p',
     notify_state_ p = NOTIFY_STATE_CRITICAL ->
     exec ops p = Ok p' ->
     notify_state_ p' = NOTIFY_STATE_CRITICAL /\
     exists es, notifications p' = notifications p ++ es /\
                Forall (fun e => e = OnClose) es) /\
  (forall connections si n p0 ops p,
     ConnectionPool_new connections si n = Ok p0 ->
     exec ops p0 = Ok p ->
     critical_once (view_of p) /\ (criticals (view_of p) <= 1)%nat) /\
  (forall p, notify_state_ p = NOTIFY_STATE_CRITICAL -> notify_up_or_down p = p) /\
  (forall p code message,
     notify_state_ p = NOTIFY_STATE_CRITICAL ->
     notify_critical_error code message p = p) /\
  (forall p, notify_state_ p <> NOTIFY_STATE_UP ->
     exists es, trace (maybe_closed p) = trace p ++ es /\ OnPoolDown ∉ es).
Proof.
  split.
  { intros p ops p' Hn Hexec.
    apply (critical_absorbing_rtc (view_of p) (view_of p')); [|assumption].
    now apply (view_exec ops). }
  split.
  { intros connections si n p0 ops p Hnew Hexec.
    assert (H : critical_once (view_of p)).
    { eapply critical_once_rtc; [|apply critical_once_initial].
      eapply rtc_trans; [eapply view_ConnectionPool_new; eassumption|].
      now apply (view_exec ops). }
    split; [assumption|]. destruct H as [(_ & ->)|(_ & ->)]; lia. }
  split.
  { intros p Hn. unfold notify_up_or_down. now rewrite Hn. }
  split.
  { intros p code message Hn. unfold notify_critical_error. now rewrite Hn. }
  intros p Hn. destruct (terminal_dec p) as [T|T].
  - destruct (maybe_closed_terminal p T) as (_ & -> & _).
    rewrite bool_decide_eq_false_2 by assumption.
    eexists. split; [reflexivity|]. simpl.
    intros H. apply list_elem_of_singleton in H. discriminate.
  - rewrite maybe_closed_not_terminal by assumption.
    exists []. split; [now rewrite app_nil_r|]. apply not_elem_of_nil.
Qed.

Lemma critical_is_terminal_witness :
  exists p,
    exec [OnReconnect (failed_critically 10 "protocol version not supported"
                         first_connector);
          OnReconnect (canceled second_connector)] cold_pool = Ok p /\
    notify_state_ p = NOTIFY_STATE_CRITICAL /\
    critical_once (view_of p) /\ (criticals (view_of p) <= 1)%nat.
Proof.
  eexists. split; [vm_compute; reflexivity|]. split; [reflexivity|].
  apply (proj1 (proj2 critical_is_terminal)
           [] None 2 cold_pool
           [OnReconnect (failed_critically 10 "protocol version not supported"
                           first_connector);
            OnReconnect (canceled second_connector)]);
    vm_compute; reflexivity.
Defined.

(** ** Cold start and critical error *)

Section ColdStart.

Implicit Types (p q : ConnectionPool) (k : DelayedConnector).

Lemma pending_scheduled_schedule_reconnect schedule desired p :
  pending_scheduled p -> pending_scheduled (schedule_reconnect schedule desired p).
Proof.
  intros (Hnd & Hall).
  assert (Hfresh : next_connector p ∉ map connector_id (pending_connections_ p)).
  { intros Hin. apply list_elem_of_fmap in Hin as (k & E & Hk).
    apply Hall in Hk as (Hlt & _). lia. }
  unfold schedule_reconnect, pending_scheduled.
  destruct schedule as [s|]; simpl.
  all: rewrite map_app; simpl; split;
    [ apply NoDup_app; split; [assumption|]; split;
      [ intros x Hx Hx'; apply list_elem_of_singleton in Hx'; now subst x
      | apply NoDup_singleton ]
    | intros k Hk; apply elem_of_app in Hk as [Hk|Hk];
      [ destruct (Hall k Hk) as (Hlt & Hs); split; [lia|];
        rewrite lookup_insert_ne by lia; assumption
      | apply list_elem_of_singleton in Hk; subst k; simpl; split; [lia|];
        rewrite lookup_insert_eq; eauto ] ].
Qed.

Lemma connections_schedule_reconnect schedule desired p :
  connections_by_shard_ (schedule_reconnect schedule desired p)
  = connections_by_shard_ p.
Proof. unfold schedule_reconnect. now destruct schedule. Qed.

Lemma remove_connector_head k l :
  connector_id k ∉ map connector_id l ->
  forall k0, connector_id k0 = connector_id k ->
  remove_connector k0 (k :: l) = l.
Proof.
  intros Hk k0 E. unfold remove_connector. rewrite filter_cons.
  destruct (decide (connector_id k ≠ connector_id k0)) as [H|_]; [congruence|].
  rewrite E. clear E k0.
  induction l as [|x l IH]; [reflexivity|].
  rewrite filter_cons. simpl in Hk. apply not_elem_of_cons in Hk as (Hx & Hl).
  destruct (decide (connector_id x ≠ connector_id k)) as [_|H].
  - f_equal. now apply IH.
  - exfalso. apply H. congruence.
Qed.

(** A canceled connector reporting to a pool that waits for its connectors:
    the last report closes the pool. *)
Lemma drain l : forall p,
  pending_connections_ p = l ->
  l <> [] ->
  NoDup (map connector_id l) ->
  (forall k, k ∈ l -> is_Some (reconnection_schedules_ p !! connector_id k)) ->
  close_state_ p = CLOSE_STATE_WAITING_FOR_CONNECTIONS ->
  has_connections p = false ->
  exists p',
    exec (cancellations l) p = Ok p' /\
    close_state_ p' = CLOSE_STATE_CLOSED /\
    notify_state_ p' = notify_state_ p /\
    trace p' = trace p
               ++ (if bool_decide (notify_state_ p = NOTIFY_STATE_UP)
                   then [OnPoolDown] else [])
               ++ [OnClose].
Proof.
  induction l as [|k l IH]; intros p Hl Hne Hnd Hs Hc Hh; [contradiction|].
  apply NoDup_cons in Hnd as (Hk & Hnd).
  unfold cancellations, exec. simpl. unfold on_reconnect. simpl.
  rewrite Hl, (remove_connector_head k l Hk) by reflexivity.
  destruct (Hs k) as [schedule Hsched]; [apply elem_of_cons; now left|].
  rewrite Hsched, Hc. simpl.
  set (q := set_schedules _ _).
  destruct l as [|k' l'].
  - assert (T : terminal q) by (repeat split; assumption).
    destruct (maybe_closed_terminal q T) as (H1 & H2 & _ & H4 & _).
    exists (maybe_closed q). simpl. repeat split; assumption.
  - assert (T : ~ terminal q) by (intros (_ & _ & H); discriminate).
    rewrite maybe_closed_not_terminal by assumption.
    destruct (IH q) as (p' & He & H1 & H2 & H3);
      try reflexivity; try assumption; try discriminate.
    { intros k0 Hk0. simpl. rewrite lookup_delete_ne.
      - apply Hs. apply elem_of_cons. now right.
      - intros E. apply Hk. rewrite E.
        exact (list_elem_of_fmap_2 connector_id _ _ Hk0). }
    exists p'. repeat split; assumption.
Qed.

Lemma has_connections_replicate n : forall p,
  connections_by_shard_ p = replicate n [] -> has_connections p = false.
Proof.
  intros p E. unfold has_connections. rewrite E. clear E.
  induction n as [|n IH]; simpl; [reflexivity|assumption].
Qed.

(** The pool the constructor builds from no connection at all. *)
Lemma cold_start si n p0 :
  ConnectionPool_new [] si n = Ok p0 ->
  view_of p0 = mkView CLOSE_STATE_OPEN NOTIFY_STATE_DOWN 1 [OnPoolDown] /\
  has_connections p0 = false /\
  pending_scheduled p0.
Proof.
  intros H. apply ConnectionPool_new_inv in H as (per_shard & p1 & Hfold & -> & _).
  simpl in Hfold. injection Hfold as <-.
  match goal with |- context [notify_up_or_down ?q] => set (p1 := q) end.
  assert (Hh : has_connections p1 = false)
    by (apply (has_connections_replicate (Z.to_nat (host_shard_slots si))); reflexivity).
  assert (E : notify_up_or_down p1 = emit (set_notify_state p1 NOTIFY_STATE_DOWN) [OnPoolDown]).
  { unfold notify_up_or_down. now rewrite Hh. }
  rewrite E.
  match goal with |- context [fold_left reconnect_missing ?l ?q] =>
    apply (reconnect_missing_keeps
             (fun p => view_of p = mkView CLOSE_STATE_OPEN NOTIFY_STATE_DOWN 1 [OnPoolDown]
                       /\ has_connections p = false /\ pending_scheduled p)) end.
  - intros schedule desired p (Hv & Hc & Hp).
    rewrite view_schedule_reconnect.
    rewrite (has_connections_ext _ _ (connections_schedule_reconnect _ _ _)).
    auto using pending_scheduled_schedule_reconnect.
  - split; [reflexivity|]. split; [exact Hh|]. split.
    + simpl. apply NoDup_nil_2.
    + intros k Hk. simpl in Hk. now apply elem_of_nil in Hk.
Qed.

Lemma filter_NoDup_ids k l :
  NoDup (map connector_id l) ->
  NoDup (map connector_id (remove_connector k l)).
Proof.
  unfold remove_connector. induction l as [|x l IH]; simpl; intros H;
    [apply NoDup_nil_2|].
  apply NoDup_cons in H as (Hx & Hl). rewrite filter_cons.
  destruct (decide (connector_id x ≠ connector_id k)); [|now apply IH].
  simpl. apply NoDup_cons. split; [|now apply IH].
  intros Hin. apply Hx. apply list_elem_of_fmap in Hin as (y & E & Hy).
  apply list_elem_of_filter in Hy as (_ & Hy). apply list_elem_of_fmap. eauto.
Qed.

End ColdStart.

Lemma has_connections_mark_closing p q :
  connections_by_shard_ q = map (map mark_closing) (connections_by_shard_ p) ->
  has_connections q = has_connections p.
Proof.
  unfold has_connections. intros ->.
  induction (connections_by_shard_ p) as [|v l IH]; simpl; [reflexivity|].
  now rewrite IH, length_map.
Qed.

(** [notify_up_or_down] emits DOWN exactly from NEW or UP without a
    connection. *)
Lemma notify_up_or_down_down p :
  (notify_state_ p = NOTIFY_STATE_NEW \/ notify_state_ p = NOTIFY_STATE_UP) /\
  has_connections p = false <->
  notify_up_or_down p = emit (set_notify_state p NOTIFY_STATE_DOWN) [OnPoolDown].
Proof.
  unfold notify_up_or_down. split.
  - intros ([->| ->] & ->); reflexivity.
  - destruct (notify_state_ p) eqn:En; destruct (has_connections p) eqn:Eh; simpl;
      intros H; auto;
      apply (f_equal trace) in H; simpl in H;
      try (apply (f_equal (@length event)) in H; rewrite ?length_app in H;
           simpl in H; lia);
      try (apply app_inv_head in H; discriminate).
Qed.

(** C7, as amended.  A pool created with no connection emits [on_pool_down]
    from its constructor: the notify state goes from NEW to DOWN, there being
    no connection.  When one of its connectors then fails with a critical
    error, the pool emits [on_pool_critical_error], closes, and, once the
    remaining connectors have reported their cancellation, is CLOSED and has
    emitted [on_close]; the listener has then seen DOWN, the critical error
    and the close, and no second DOWN.  [notify_up_or_down] emits DOWN exactly
    from NEW or UP when no connection is there. *)
Theorem critical_error_after_cold_start
  (si : option ShardingInfo) (n : Z) (p0 : ConnectionPool) :
  ConnectionPool_new [] si n = Ok p0 ->
  notifications p0 = [OnPoolDown] /\
  notify_state_ p0 = NOTIFY_STATE_DOWN /\
  (forall k code message,
     k ∈ pending_connections_ p0 ->
     exists p1 p2,
       on_reconnect (failed_critically code message k) p0 = Ok p1 /\
       exec (cancellations (pending_connections_ p1)) p1 = Ok p2 /\
       close_state_ p2 = CLOSE_STATE_CLOSED /\
       notify_state_ p2 = NOTIFY_STATE_CRITICAL /\
       notifications p2
       = [OnPoolDown; OnPoolCriticalError code message; OnClose]) /\
  (forall p,
     (notify_state_ p = NOTIFY_STATE_NEW \/ notify_state_ p = NOTIFY_STATE_UP) /\
     has_connections p = false <->
     notify_up_or_down p = emit (set_notify_state p NOTIFY_STATE_DOWN) [OnPoolDown]).
Proof.
  intros Hnew.
  destruct (cold_start _ _ _ Hnew) as (Hv & Hh & (Hnd & Hall)).
  unfold view_of in Hv. injection Hv as Hc Hn Hr Hev.
  split; [assumption|]. split; [assumption|].
  split; [|apply notify_up_or_down_down].
  intros k code message Hk.
  destruct (Hall k Hk) as (_ & [schedule Hs]).
  unfold on_reconnect. simpl. rewrite Hs, Hc. simpl.
  set (q := set_schedules _ _).
  assert (Ec : notify_critical_error code message q
               = emit (set_notify_state q NOTIFY_STATE_CRITICAL)
                      [OnPoolCriticalError code message]).
  { unfold notify_critical_error. simpl. now rewrite Hn. }
  rewrite Ec. set (c := emit _ _).
  rewrite (internal_close_open c) by exact Hc.
  destruct (waiting_for_connections_spec c) as (_ & Wc & Wt & Wv & Wp & Wn & Wr).
  set (w := waiting_for_connections c) in *.
  assert (Wh : has_connections w = false)
    by (rewrite (has_connections_mark_closing c w Wv); exact Hh).
  assert (Wnot : List.filter is_notification (trace w)
                 = [OnPoolDown; OnPoolCriticalError code message]).
  { rewrite Wt. subst c. simpl.
    rewrite !List.filter_app, !notifications_quiet by reflexivity.
    fold (notifications p0). rewrite Hev. reflexivity. }
  destruct (pending_connections_ w) as [|k' l'] eqn:Ew.
  - assert (T : terminal w) by (repeat split; assumption).
    destruct (maybe_closed_terminal w T) as (H1 & H2 & _ & H4 & _ & H6 & _).
    exists (maybe_closed w), (maybe_closed w).
    split; [reflexivity|]. rewrite H6, Ew. split; [reflexivity|].
    split; [assumption|]. split; [now rewrite H4, Wn|].
    unfold notifications. rewrite H2, List.filter_app, Wnot, Wn. reflexivity.
  - assert (T : ~ terminal w) by (intros (_ & _ & H); congruence).
    rewrite maybe_closed_not_terminal by assumption.
    destruct (drain (k' :: l') w) as (p2 & He & H1 & H2 & H3);
      try assumption; try discriminate.
    + rewrite Wp. apply filter_NoDup_ids, Hnd.
    + intros k0 Hk0. rewrite Wp in Hk0. simpl in Hk0.
      apply list_elem_of_filter in Hk0 as (Hne & Hk0).
      replace (reconnection_schedules_ w)
        with (delete (connector_id k) (reconnection_schedules_ p0)) by reflexivity.
      rewrite lookup_delete_ne by (simpl in Hne; congruence).
      now apply Hall.
    + exists w, p2. split; [reflexivity|]. rewrite Ew. split; [assumption|].
      split; [assumption|]. split; [now rewrite H2, Wn|].
      unfold notifications. rewrite H3, List.filter_app, Wnot, Wn. reflexivity.
Qed.

Lemma critical_error_after_cold_start_witness :
  notifications cold_pool = [OnPoolDown] /\
  notify_state_ cold_pool = NOTIFY_STATE_DOWN /\
  exists p1 p2,
    on_reconnect
      (failed_critically 10 "protocol version not supported" first_connector)
      cold_pool = Ok p1 /\
    exec (cancellations (pending_connections_ p1)) p1 = Ok p2 /\
    close_state_ p2 = CLOSE_STATE_CLOSED /\
    notify_state_ p2 = NOTIFY_STATE_CRITICAL /\
    notifications p2
    = [OnPoolDown; OnPoolCriticalError 10 "protocol version not supported"; OnClose].
Proof.
  destruct (critical_error_after_cold_start None 2 cold_pool) as (H1 & H2 & H3 & _);
    [vm_compute; reflexivity|].
  split; [exact H1|]. split; [exact H2|].
  apply H3. apply elem_of_cons. left. reflexivity.
Defined.

(** C7 as stated fails: created with no connection, the pool emits
    [on_pool_down] at once, from NEW and with no UP before it, and the
    listener has seen that DOWN when the critical error and the close
    arrive. *)
Lemma cold_start_emits_down :
  exists p0 p1,
    ConnectionPool_new [] None 1 = Ok p0 /\
    trace p0 = [OnPoolDown; DelayedConnect 0 None 0 0] /\
    on_reconnect
      (failed_critically 10 "protocol version not supported" first_connector) p0
    = Ok p1 /\
    close_state_ p1 = CLOSE_STATE_CLOSED /\
    notifications p1
    = [OnPoolDown; OnPoolCriticalError 10 "protocol version not supported"; OnClose].
Proof.
  do 2 eexists. split; [vm_compute; reflexivity|].
  split; [reflexivity|]. split; [vm_compute; reflexivity|].
  split; reflexivity.
Qed.

(** ** Indexing the slots *)

Section Indexing.

Implicit Types (p : ConnectionPool) (c : PooledConnection).

Lemma size_t_of_nonneg z : 0 <= size_t_of z.
Proof. unfold size_t_of, wrap64. apply Z.mod_pos_bound. lia. Qed.

Lemma add_connection_in_range c p :
  (slot_index (conn_shard_id c) < length (connections_by_shard_ p))%nat ->
  exists p', add_connection c p = Ok p' /\
             length (connections_by_shard_ p') = length (connections_by_shard_ p).
Proof.
  intros H. unfold add_connection.
  destruct (lookup_lt_is_Some_2 _ _ H) as [slot ->].
  eexists. split; [reflexivity|]. simpl. apply length_insert.
Qed.

(** The constructor's loop body indexes first and faults out of range. *)
Lemma place_connection_spec p c :
  (is_closing c = true -> place_connection p c = Ok p) /\
  (is_closing c = false ->
   (slot_index (conn_shard_id c) < length (connections_by_shard_ p))%nat ->
   exists p', place_connection p c = Ok p' /\
              length (connections_by_shard_ p') = length (connections_by_shard_ p)) /\
  (is_closing c = false ->
   (length (connections_by_shard_ p) <= slot_index (conn_shard_id c))%nat ->
   place_connection p c = Fault OutOfBounds).
Proof.
  unfold place_connection. split; [|split].
  - now intros ->.
  - intros -> H. simpl.
    destruct (lookup_lt_is_Some_2 _ _ H) as [slot Hs]. rewrite Hs.
    destruct (Z.of_nat (length slot) <? num_connections_per_shard_ p).
    + now apply add_connection_in_range.
    + eexists. split; reflexivity.
  - intros -> H. simpl. now rewrite (proj2 (lookup_ge_None _ _) H).
Qed.

Lemma place_connection_cases p c :
  (exists p', place_connection p c = Ok p' /\
              length (connections_by_shard_ p') = length (connections_by_shard_ p) /\
              (is_closing c = false ->
               (slot_index (conn_shard_id c) < length (connections_by_shard_ p))%nat)) \/
  (place_connection p c = Fault OutOfBounds /\ is_closing c = false /\
   (length (connections_by_shard_ p) <= slot_index (conn_shard_id c))%nat).
Proof.
  destruct (place_connection_spec p c) as (H1 & H2 & H3).
  destruct (is_closing c) eqn:Hc.
  - left. exists p. split; [now apply H1|]. split; [reflexivity|discriminate].
  - destruct (Nat.lt_ge_cases (slot_index (conn_shard_id c))
                (length (connections_by_shard_ p))) as [Hlt|Hge].
    + left. destruct (H2 eq_refl Hlt) as (p' & E & L). eauto.
    + right. auto.
Qed.

(** The loop over the supplied connections succeeds exactly when every one
    that is not closing selects an existing slot, and fails with an access
    out of bounds otherwise. *)
Lemma place_connections_spec connections : forall p,
  (Forall (fun c => is_closing c = false ->
                    (slot_index (conn_shard_id c) < length (connections_by_shard_ p))%nat)
          connections /\
   exists p', foldM place_connection connections p = Ok p') \/
  (Exists (fun c => is_closing c = false /\
                    (length (connections_by_shard_ p) <= slot_index (conn_shard_id c))%nat)
          connections /\
   foldM place_connection connections p = Fault OutOfBounds).
Proof.
  induction connections as [|c l IH]; intros p; simpl.
  - left. split; [constructor|eauto].
  - destruct (place_connection_cases p c) as [(p' & E & L & Hc)|(E & Hc & Hge)].
    + rewrite E. simpl. destruct (IH p') as [(Hall & q & Hq)|(Hex & Hq)].
      * left. rewrite L in Hall. split; [now constructor|eauto].
      * right. rewrite L in Hex. split; [now apply Exists_cons_tl|assumption].
    + rewrite E. right. split; [|reflexivity]. apply Exists_cons_hd. auto.
Qed.

Lemma slot_index_lt z n :
  0 <= n -> (slot_index z < Z.to_nat n)%nat <-> size_t_of z < n.
Proof.
  intros Hn. unfold slot_index. pose proof (size_t_of_nonneg z). lia.
Qed.

(** [on_reconnect] tests the index before it inserts: its only failure is the
    assertion on the schedule. *)
Lemma on_reconnect_fault k p f :
  on_reconnect k p = Fault f -> f = AssertionFailure.
Proof.
  unfold on_reconnect. simpl.
  destruct (reconnection_schedules_ p !! connector_id k) as [schedule|];
    [|now intros [= <-]].
  destruct (bool_decide (close_state_ p = CLOSE_STATE_OPEN)); simpl;
    [|discriminate].
  destruct (is_ok k).
  - match goal with |- context [if ?b then _ else _] => destruct b eqn:E end;
      [|discriminate].
    apply andb_prop in E as (E & _). apply Z.ltb_lt in E.
    match goal with |- context [add_connection ?c ?q] =>
      destruct (add_connection_in_range c q) as (q' & -> & _) end.
    + simpl. unfold slot_index.
      pose proof (size_t_of_nonneg (conn_shard_id (release_connection k))). lia.
    + discriminate.
  - destruct (is_canceled k); simpl; [discriminate|].
    destruct (is_critical_error k); discriminate.
Qed.

End Indexing.

Section ConstructorBounds.

Lemma ConnectionPool_new_cases connections si n :
  (exists s, si = Some s /\ vector_max_size < shards_count s /\
             ConnectionPool_new connections si n = Fault LengthError) \/
  (exists s, si = Some s /\ shards_count s = 0 /\
             ConnectionPool_new connections si n = Fault DivisionByZero) \/
  (match si with
   | Some s => shards_count s <> 0 /\ shards_count s <= vector_max_size
   | None => True
   end /\
   exists per_shard,
     ConnectionPool_new connections si n
     = (p1 ← foldM place_connection connections
               (mkPool si n CLOSE_STATE_OPEN NOTIFY_STATE_NEW
                  (replicate (Z.to_nat (host_shard_slots si)) []) per_shard
                  [] ∅ 1 [] 0 0);
        Ok (fold_left reconnect_missing
              (seq 0 (length (connections_by_shard_ (notify_up_or_down p1))))
              (notify_up_or_down p1)))).
Proof.
  unfold ConnectionPool_new, host_shard_slots.
  destruct si as [s|]; simpl.
  - unfold get_shards_count.
    destruct (Z.ltb_spec vector_max_size (shards_count s)); simpl; [left; eauto|].
    destruct (Z.eqb_spec (shards_count s) 0); simpl; [right; left; eauto|].
    right. right. split; [auto|]. eexists. reflexivity.
  - right. right. split; [trivial|]. eexists. reflexivity.
Qed.

(** When the constructor gets as far as sizing the slots, there are
    [max(1, shards_count)] of them. *)
Lemma slots_sized si :
  shards_count_typed si ->
  match si with
  | Some s => shards_count s <> 0 /\ shards_count s <= vector_max_size
  | None => True
  end ->
  host_shard_slots si = Z.max 1 (host_shards_count si) /\ 0 <= host_shard_slots si.
Proof.
  unfold shards_count_typed, host_shard_slots, host_shards_count, get_shards_count.
  destruct si as [s|]; intros Ht Hs; lia.
Qed.

End ConstructorBounds.

(** C10.  The constructor indexes the slots with each supplied non-closing
    connection's shard id as it comes, and [on_reconnect] compares the index
    with the number of slots first.  So the constructor returns a pool only if
    every supplied connection that is not closing reports a shard below
    [max(1, shards_count)], the shard id being read as the [size_t] index it
    is used as; under that condition it makes no access out of bounds, and
    returns a pool whenever the shard count is neither 0 nor beyond what a
    vector holds; and [on_reconnect] never makes one. *)
Theorem constructor_needs_shards_in_range
  (connections : list PooledConnection) (si : option ShardingInfo) (n : Z) :
  shards_count_typed si ->
  (is_Ok (ConnectionPool_new connections si n) -> shards_in_range connections si) /\
  (shards_in_range connections si ->
   ConnectionPool_new connections si n <> Fault OutOfBounds) /\
  (shards_in_range connections si ->
   match si with
   | Some s => shards_count s <> 0 /\ shards_count s <= vector_max_size
   | None => True
   end ->
   is_Ok (ConnectionPool_new connections si n)) /\
  (forall p k f, on_reconnect k p = Fault f -> f <> OutOfBounds).
Proof.
  intros Htyped.
  assert (Hloop :
    match si with
    | Some s => shards_count s <> 0 /\ shards_count s <= vector_max_size
    | None => True
    end ->
    forall per_shard,
      let init := mkPool si n CLOSE_STATE_OPEN NOTIFY_STATE_NEW
                    (replicate (Z.to_nat (host_shard_slots si)) []) per_shard
                    [] ∅ 1 [] 0 0 in
      (shards_in_range connections si /\
       exists p1, foldM place_connection connections init = Ok p1) \/
      (~ shards_in_range connections si /\
       foldM place_connection connections init = Fault OutOfBounds)).
  { intros Hs per_shard init.
    destruct (slots_sized si Htyped Hs) as (Hslots & Hpos).
    destruct (place_connections_spec connections init) as [(Hall & Hok)|(Hex & Hf)].
    - left. split; [|assumption]. unfold shards_in_range.
      eapply Forall_impl; [exact Hall|]. intros c Hc Hlive. simpl in Hc.
      rewrite length_replicate in Hc. rewrite <- Hslots.
      now apply slot_index_lt, Hc.
    - right. split; [|assumption]. unfold shards_in_range. intros Hall.
      apply Exists_exists in Hex as (c & Hin & Hlive & Hge).
      rewrite Forall_forall in Hall. specialize (Hall c Hin Hlive).
      simpl in Hge. rewrite length_replicate in Hge.
      rewrite <- Hslots in Hall. apply slot_index_lt in Hall; [lia|assumption]. }
  destruct (ConnectionPool_new_cases connections si n)
    as [(s & -> & Hbig & E)|[(s & -> & Hzero & E)|(Hs & per_shard & E)]].
  - rewrite E. split; [intros [p H]; discriminate|]. split; [discriminate|].
    split; [|intros p k f H; apply on_reconnect_fault in H; now subst f].
    intros _ (_ & H). lia.
  - rewrite E. split; [intros [p H]; discriminate|]. split; [discriminate|].
    split; [|intros p k f H; apply on_reconnect_fault in H; now subst f].
    intros _ (H & _). contradiction.
  - rewrite E. clear E.
    destruct (Hloop Hs per_shard) as [(Hr & p1 & ->)|(Hr & ->)]; simpl.
    + split; [auto|]. split; [discriminate|]. split; [unfold is_Ok; eauto|].
      intros p k f H. apply on_reconnect_fault in H. now subst f.
    + split; [intros [p H]; discriminate|]. split; [contradiction|].
      split; [contradiction|].
      intros p k f H. apply on_reconnect_fault in H. now subst f.
Qed.

Lemma constructor_needs_shards_in_range_witness :
  shards_in_range [busy_on_shard_0; idle_on_shard_1] (Some (sharding 2 12)) /\
  is_Ok (ConnectionPool_new [busy_on_shard_0; idle_on_shard_1] (Some (sharding 2 12)) 2).
Proof.
  assert (Hr : shards_in_range [busy_on_shard_0; idle_on_shard_1]
                 (Some (sharding 2 12))).
  { repeat constructor. }
  split; [exact Hr|].
  destruct (constructor_needs_shards_in_range
              [busy_on_shard_0; idle_on_shard_1] (Some (sharding 2 12)) 2)
    as (_ & _ & H & _).
  - unfold shards_count_typed. simpl. lia.
  - apply H; [exact Hr|]. simpl. unfold vector_max_size. lia.
Defined.

(** A supplied connection on shard 5 of a host with two shards: the
    constructor reads past the slots. *)
Lemma constructor_out_of_bounds :
  ConnectionPool_new [mkConn 1 5 0 false] (Some (sharding 2 12)) 2
  = Fault OutOfBounds.
Proof. reflexivity. Qed.

(** * Further properties of the code *)

(** ** The shard of a token *)

Section ShardArithmetic.

(** Shifting with wrap keeps the low [64 - m] bits and moves them up. *)
Lemma shift_wrap u m :
  0 <= m < 64 -> (u * 2 ^ m) mod 2 ^ 64 = (u mod 2 ^ (64 - m)) * 2 ^ m.
Proof.
  intros Hm.
  replace (2 ^ 64) with (2 ^ (64 - m) * 2 ^ m)
    by (rewrite <- Z.pow_add_r by lia; f_equal; lia).
  apply Z.mul_mod_distr_r; lia.
Qed.

(** The shard is the window [w], the low [64 - m] bits of the biased token,
    scaled from [0, 2^(64-m)) to [0, n). *)
Lemma shard_id_wide_window t n m :
  0 <= m < 64 ->
  shard_id_wide t n m
  = (((t + 2 ^ 63) mod 2 ^ 64) mod 2 ^ (64 - m) * n) / 2 ^ (64 - m).
Proof.
  intros Hm. unfold shard_id_wide. rewrite shift_wrap by assumption.
  set (w := ((t + 2 ^ 63) mod 2 ^ 64) mod 2 ^ (64 - m)).
  replace (2 ^ 64) with (2 ^ (64 - m) * 2 ^ m)
    by (rewrite <- Z.pow_add_r by lia; f_equal; lia).
  replace (w * 2 ^ m * n) with (w * n * 2 ^ m) by lia.
  apply Z.div_mul_cancel_r; lia.
Qed.

Lemma biased_token t : in_int64 t -> (t + 2 ^ 63) mod 2 ^ 64 = t + 2 ^ 63.
Proof. unfold in_int64. intros H. apply Z.mod_small. lia. Qed.

Lemma shard_id_as_window si t :
  usable si ->
  shard_id si t
  = Ok ((((t + 2 ^ 63) mod 2 ^ 64) mod 2 ^ (64 - sharding_ignore_MSB si)
         * shards_count si) / 2 ^ (64 - sharding_ignore_MSB si)).
Proof.
  intros (Hn & Hm).
  rewrite shard_id_correct, shard_id_reference_wide, shard_id_wide_window by assumption.
  reflexivity.
Qed.

End ShardArithmetic.

(** X1.  For usable sharding parameters [shard_id] returns the top 64 bits
    of the 128-bit product of the shard count with the biased token shifted
    left with wrap. *)
Theorem shard_id_is_top_of_product (si : ShardingInfo) (t : Z) :
  usable si ->
  shard_id si t
  = Ok (((((t + 2 ^ 63) mod 2 ^ 64) * 2 ^ sharding_ignore_MSB si) mod 2 ^ 64
         * shards_count si) / 2 ^ 64).
Proof.
  intros (Hn & Hm).
  rewrite shard_id_correct, shard_id_reference_wide by assumption.
  reflexivity.
Qed.

Lemma shard_id_is_top_of_product_witness :
  shard_id (sharding 4 12) 1234567890
  = Ok (((((1234567890 + 2 ^ 63) mod 2 ^ 64) * 2 ^ 12) mod 2 ^ 64 * 4) / 2 ^ 64).
Proof.
  apply (shard_id_is_top_of_product (sharding 4 12) 1234567890).
  unfold usable. simpl. lia.
Defined.

(** X2.  Tokens whose biased values agree above the low [64 - ignore_msb]
    bits are mapped in order: the larger token never gets the smaller shard.
    With [ignore_msb = 0] this holds for any two tokens. *)
Theorem shard_id_monotone (si : ShardingInfo) (t1 t2 s1 s2 : Z) :
  usable si ->
  in_int64 t1 -> in_int64 t2 ->
  t1 <= t2 ->
  (t1 + 2 ^ 63) / 2 ^ (64 - sharding_ignore_MSB si)
  = (t2 + 2 ^ 63) / 2 ^ (64 - sharding_ignore_MSB si) ->
  shard_id si t1 = Ok s1 -> shard_id si t2 = Ok s2 ->
  s1 <= s2.
Proof.
  intros Hu H1 H2 Hle Hwin E1 E2.
  rewrite (shard_id_as_window si t1 Hu) in E1.
  rewrite (shard_id_as_window si t2 Hu) in E2.
  injection E1 as <-. injection E2 as <-.
  destruct Hu as (Hn & Hm).
  rewrite !biased_token by assumption.
  set (P := 2 ^ (64 - sharding_ignore_MSB si)) in *.
  assert (HP : 0 < P) by (apply Z.pow_pos_nonneg; lia).
  apply Z.div_le_mono; [lia|].
  apply Z.mul_le_mono_nonneg_r; [lia|].
  rewrite !Z.mod_eq by lia. rewrite Hwin. lia.
Qed.

Lemma shard_id_monotone_witness :
  exists s1 s2,
    shard_id (sharding 4 0) (-5) = Ok s1 /\ shard_id (sharding 4 0) 7 = Ok s2 /\
    s1 <= s2.
Proof.
  exists 1, 2. split; [reflexivity|]. split; [reflexivity|].
  apply (shard_id_monotone (sharding 4 0) (-5) 7 1 2);
    unfold usable, in_int64; simpl; try lia; reflexivity.
Defined.

(** X3.  [ignore_msb] bits are ignored: two tokens that differ by a multiple
    of [2^(64 - ignore_msb)] get the same shard. *)
Theorem shard_id_ignores_msb (si : ShardingInfo) (t1 t2 : Z) :
  usable si ->
  (t1 - t2) mod 2 ^ (64 - sharding_ignore_MSB si) = 0 ->
  shard_id si t1 = shard_id si t2.
Proof.
  intros Hu Hd.
  rewrite (shard_id_as_window si t1 Hu), (shard_id_as_window si t2 Hu).
  destruct Hu as (Hn & Hm).
  set (P := 2 ^ (64 - sharding_ignore_MSB si)) in *.
  assert (HP : 0 < P) by (apply Z.pow_pos_nonneg; lia).
  assert (Hdiv : (P | 2 ^ 64)).
  { exists (2 ^ sharding_ignore_MSB si). unfold P.
    rewrite <- Z.pow_add_r by lia. f_equal. lia. }
  do 2 f_equal. f_equal.
  rewrite !Z.mod_mod_divide by assumption.
  apply Z.mod_divide in Hd; [|lia]. destruct Hd as [q Hq].
  replace (t1 + 2 ^ 63) with (t2 + 2 ^ 63 + q * P) by lia.
  apply Z.mod_add. lia.
Qed.

Lemma shard_id_ignores_msb_witness :
  shard_id (sharding 4 12) 5 = shard_id (sharding 4 12) (5 + 2 ^ 52).
Proof.
  apply (shard_id_ignores_msb (sharding 4 12) 5 (5 + 2 ^ 52)).
  - unfold usable. simpl. lia.
  - reflexivity.
Defined.

(** X4.  No shard is left without tokens: when the shard count does not
    exceed [2^(64 - ignore_msb)], every shard below it is the shard of some
    signed 64-bit token. *)
Theorem shard_id_onto (si : ShardingInfo) (s : Z) :
  usable si ->
  shards_count si <= 2 ^ (64 - sharding_ignore_MSB si) ->
  0 <= s < shards_count si ->
  exists t, in_int64 t /\ shard_id si t = Ok s.
Proof.
  intros Hu HnP Hs. pose proof Hu as (Hn & Hm).
  set (n := shards_count si) in *.
  set (P := 2 ^ (64 - sharding_ignore_MSB si)) in *.
  assert (HP : 0 < P) by (apply Z.pow_pos_nonneg; lia).
  assert (HP64 : P <= 2 ^ 64) by (apply Z.pow_le_mono_r; lia).
  set (w := (s * P + n - 1) / n).
  assert (Hw1 : s * P <= w * n).
  { unfold w. pose proof (Z.mod_pos_bound (s * P + n - 1) n ltac:(lia)).
    pose proof (Z.div_mod (s * P + n - 1) n ltac:(lia)). nia. }
  assert (Hw2 : w * n <= s * P + n - 1).
  { unfold w. rewrite Z.mul_comm. apply Z.mul_div_le. lia. }
  assert (Hw0 : 0 <= w) by (apply Z.div_pos; nia).
  assert (HwP : w < P) by nia.
  exists (w - 2 ^ 63). split; [unfold in_int64; lia|].
  rewrite (shard_id_as_window si _ Hu). fold n P. f_equal.
  replace (w - 2 ^ 63 + 2 ^ 63) with w by lia.
  rewrite (Z.mod_small w (2 ^ 64)) by lia.
  rewrite (Z.mod_small w P) by lia.
  symmetry. apply Z.div_unique with (r := w * n - s * P); lia.
Qed.

Lemma shard_id_onto_witness :
  exists t, in_int64 t /\ shard_id (sharding 4 12) t = Ok 3.
Proof.
  apply (shard_id_onto (sharding 4 12) 3); unfold usable; simpl; lia.
Defined.

(** ** Parsed descriptors in use *)

(** X5.  The integers of a parsed descriptor are [int]s: shard id and shift
    count lie in the range of [int], and the shard count, an [int] stored in
    a [size_t], is below 2^31 or, when the text was negative, at least
    2^64 - 2^31. *)
Theorem parsed_descriptor_ranges
  (params : gmap string (list string)) (d : ConnectionShardingInfo) :
  parse_sharding_info params = Some d ->
  in_int32 (csi_shard_id d) /\
  in_int32 (sharding_ignore_MSB (csi_sharding_info d)) /\
  (0 <= shards_count (csi_sharding_info d) < 2 ^ 31 \/
   2 ^ 64 - 2 ^ 31 <= shards_count (csi_sharding_info d) < 2 ^ 64).
Proof.
  intros H. pose proof (parsed_shards_count_range params d H) as Hr.
  apply parse_sharding_info_Some in H as (a & b & e & _ & _ & _ & _ & _ & ->).
  simpl in *. auto using atoi_in_int32.
Qed.

Lemma parsed_descriptor_ranges_witness :
  in_int32 3 /\ in_int32 12 /\
  (0 <= 18446744073709551615 < 2 ^ 31 \/
   2 ^ 64 - 2 ^ 31 <= 18446744073709551615 < 2 ^ 64).
Proof.
  apply (parsed_descriptor_ranges
           (supported ["3"] ["-1"] [Murmur3Partitioner] [biased_token_round_robin] ["12"])
           (mkConnectionShardingInfo 3
              (mkShardingInfo 18446744073709551615 Murmur3Partitioner
                 biased_token_round_robin 12 None None))).
  vm_compute. reflexivity.
Defined.

(** X6.  A descriptor parsed from a positive shard count and a shift count
    from 0 to 63 routes every token: the value [shard_id] returns, with
    signed overflow taken with wrap-around, is a shard below the count that
    was read. *)
Theorem parsed_descriptor_routes
  (params : gmap string (list string)) (d : ConnectionShardingInfo)
  (b e : string) (t : Z) :
  parse_sharding_info params = Some d ->
  params !! SCYLLA_NR_SHARDS_PARAM_KEY = Some [b] ->
  params !! SCYLLA_SHARDING_IGNORE_MSB = Some [e] ->
  1 <= atoi b ->
  0 <= atoi e < 64 ->
  exists s, shard_id (csi_sharding_info d) t = Ok s /\ 0 <= s < atoi b.
Proof.
  intros H Hb He Hpos Hshift.
  apply parse_sharding_info_Some in H as (a & b' & e' & _ & Hb' & _ & _ & He' & ->).
  rewrite Hb in Hb'. rewrite He in He'. injection Hb' as <-. injection He' as <-.
  pose proof (atoi_in_int32 b) as Hr. unfold in_int32 in Hr.
  assert (Hn : size_t_of (atoi b) = atoi b) by (apply wrap64_small; lia).
  eexists. split.
  - apply shard_id_correct; simpl; rewrite ?Hn; lia.
  - simpl. rewrite Hn. apply shard_id_reference_range. lia.
Qed.

Lemma parsed_descriptor_routes_witness :
  exists s,
    shard_id (mkShardingInfo 8 Murmur3Partitioner biased_token_round_robin 12 None None)
             (-42) = Ok s /\
    0 <= s < atoi "8".
Proof.
  apply (parsed_descriptor_routes
           (supported ["3"] ["8"] [Murmur3Partitioner] [biased_token_round_robin] ["12"])
           (mkConnectionShardingInfo 3
              (mkShardingInfo 8 Murmur3Partitioner biased_token_round_robin 12 None None))
           "8" "12" (-42)).
  - vm_compute. reflexivity.
  - reflexivity.
  - reflexivity.
  - vm_compute. discriminate.
  - vm_compute. split; [discriminate|reflexivity].
Defined.

(** X7.  A descriptor parsed from a shard count that [atoi] reads as 0 or as
    a negative number gives no pool: the constructor divides by zero, or asks
    the vector for more slots than it can hold. *)
Theorem parsed_descriptor_without_shards
  (params : gmap string (list string)) (d : ConnectionShardingInfo)
  (b : string) (connections : list PooledConnection) (n : Z) :
  parse_sharding_info params = Some d ->
  params !! SCYLLA_NR_SHARDS_PARAM_KEY = Some [b] ->
  atoi b <= 0 ->
  ConnectionPool_new connections (Some (csi_sharding_info d)) n
  = Fault (if atoi b =? 0 then DivisionByZero else LengthError).
Proof.
  intros H Hb Hneg.
  apply parse_sharding_info_Some in H as (a & b' & e' & _ & Hb' & _ & _ & _ & ->).
  rewrite Hb in Hb'. injection Hb' as <-.
  pose proof (atoi_in_int32 b) as Hr. unfold in_int32 in Hr.
  unfold ConnectionPool_new, get_shards_count. simpl.
  destruct (Z.eqb_spec (atoi b) 0) as [E|E].
  - rewrite E. reflexivity.
  - assert (Hn : size_t_of (atoi b) = atoi b + 2 ^ 64).
    { unfold size_t_of, wrap64.
      replace (atoi b) with (atoi b + 2 ^ 64 + (-1) * 2 ^ 64) at 1 by lia.
      rewrite Z.mod_add by lia. apply Z.mod_small. lia. }
    rewrite Hn.
    replace (vector_max_size <? atoi b + 2 ^ 64) with true; [reflexivity|].
    symmetry. apply Z.ltb_lt. unfold vector_max_size. lia.
Qed.

Lemma parsed_descriptor_without_shards_witness :
  ConnectionPool_new []
    (Some (mkShardingInfo 0 Murmur3Partitioner biased_token_round_robin 12 None None)) 2
  = Fault (if atoi "none" =? 0 then DivisionByZero else LengthError).
Proof.
  apply (parsed_descriptor_without_shards
           (supported ["3"] ["none"] [Murmur3Partitioner] [biased_token_round_robin] ["12"])
           (mkConnectionShardingInfo 3
              (mkShardingInfo 0 Murmur3Partitioner biased_token_round_robin 12 None None))
           "none" [] 2).
  - vm_compute. reflexivity.
  - reflexivity.
  - vm_compute. discriminate.
Defined.

(** ** Dispatch, continued *)

Section DispatchResult.

Lemma elem_of_slot (slots : list (list PooledConnection)) i slot c :
  slots !! i = Some slot -> c ∈ slot -> c ∈ concat slots.
Proof.
  intros Hs Hc. apply list_elem_of_In, in_concat. exists slot.
  split; apply list_elem_of_In; [eapply list_elem_of_lookup_2; eassumption|assumption].
Qed.

Lemma least_busy_of_live l r :
  least_busy_of l r ->
  match r with
  | Some c => is_closing c = false /\ c ∈ l
  | None => forall c, c ∈ l -> is_closing c = true
  end.
Proof.
  destruct r as [c|]; simpl; [|trivial].
  intros (Hc & l1 & l2 & -> & _). split; [assumption|].
  apply elem_of_app. right. apply elem_of_cons. now left.
Qed.

End DispatchResult.

(** X8.  [least_busy_comp] is a strict weak ordering, as [std::min_element]
    and [std::min] require of their comparator: nothing is less busy than
    itself, the relation is transitive, and so is being neither less nor more
    busy. *)
Theorem least_busy_comp_strict_weak_order :
  (forall a, least_busy_comp a a = false) /\
  (forall a b c, least_busy_comp a b = true -> least_busy_comp b c = true ->
                 least_busy_comp a c = true) /\
  (forall a b c,
     least_busy_comp a b = false -> least_busy_comp b a = false ->
     least_busy_comp b c = false -> least_busy_comp c b = false ->
     least_busy_comp a c = false /\ least_busy_comp c a = false).
Proof.
  unfold least_busy_comp. split; [|split].
  - intros a. destruct (is_closing a); [reflexivity|]. apply Z.ltb_irrefl.
  - intros a b c.
    destruct (is_closing a), (is_closing b), (is_closing c); try discriminate;
      try reflexivity.
    rewrite !Z.ltb_lt. lia.
  - intros a b c.
    destruct (is_closing a), (is_closing b), (is_closing c); try discriminate;
      auto.
    rewrite !Z.ltb_ge. lia.
Qed.

(** X9.  Whatever the token, what [find_least_busy] returns is a connection
    of the pool that is not closing, and it returns none only when every
    connection of the pool is closing. *)
Theorem find_least_busy_returns_live
  (p : ConnectionPool) (token : Z) (r : option PooledConnection) :
  find_least_busy p token = Ok r ->
  match r with
  | Some c => is_closing c = false /\ c ∈ concat (connections_by_shard_ p)
  | None => forall c, c ∈ concat (connections_by_shard_ p) -> is_closing c = true
  end.
Proof.
  pose proof (least_busy_of_live _ _ (find_least_busy_all_spec p)) as Hall.
  unfold find_least_busy.
  destruct ((token =? CASS_INT64_MIN) || negb (has_value (host_sharding_info p))).
  { now intros [= <-]. }
  destruct (host_sharding_info p) as [si|]; [|now intros [= <-]].
  destruct (shard_id si token) as [s|]; simpl; [|discriminate].
  destruct (connections_by_shard_ p !! slot_index s) as [slot|] eqn:Hslot;
    [|discriminate].
  pose proof (min_element_spec slot) as Hmin.
  destruct (min_element least_busy_comp slot) as [it|]; [|now intros [= <-]].
  destruct (is_closing it) eqn:Hit; [now intros [= <-]|].
  intros [= <-]. split; [assumption|].
  destruct Hmin as (_ & [(Hc & _)|Hb]); [congruence|].
  apply least_busy_of_live in Hb as (_ & Hin).
  eapply elem_of_slot; eassumption.
Qed.

Lemma find_least_busy_returns_live_witness :
  is_closing busy_on_shard_0 = false /\
  busy_on_shard_0 ∈ concat (connections_by_shard_ sample_pool).
Proof.
  apply (find_least_busy_returns_live sample_pool 1234567890 (Some busy_on_shard_0)).
  reflexivity.
Defined.

(** ** What the constructor builds *)

Section ConstructorResult.

Implicit Types (p : ConnectionPool) (c : PooledConnection).

Lemma supplied_for_snoc i pre c :
  supplied_for i (pre ++ [c])
  = supplied_for i pre
    ++ (if decide (is_closing c = false /\ slot_index (conn_shard_id c) = i)
        then [c] else []).
Proof.
  unfold supplied_for. rewrite filter_app. f_equal.
Qed.

Lemma concat_insert_snoc (slots : list (list PooledConnection)) c : forall j slot,
  slots !! j = Some slot ->
  concat (<[j := slot ++ [c]]> slots) ≡ₚ c :: concat slots.
Proof.
  induction slots as [|a l IH]; intros [|j] slot H; simpl in *; try discriminate.
  - injection H as ->. rewrite <- app_assoc. simpl.
    symmetry. apply Permutation_middle.
  - rewrite (IH j slot H). symmetry. apply Permutation_middle.
Qed.

Lemma elem_of_concat_insert (slots : list (list PooledConnection)) j slot c x :
  slots !! j = Some slot ->
  x ∈ concat (<[j := slot ++ [c]]> slots) <-> x ∈ concat slots \/ x = c.
Proof.
  intros Hj. rewrite (concat_insert_snoc slots c j slot Hj), elem_of_cons. tauto.
Qed.

Lemma take_snoc_room {A} (n : nat) (L : list A) (x : A) :
  (length (take n L) < n)%nat -> take n L = L /\ take n (L ++ [x]) = L ++ [x].
Proof.
  rewrite length_take. intros H.
  split; apply take_ge; rewrite ?length_app; simpl; lia.
Qed.

Lemma take_snoc_full {A} (n : nat) (L : list A) (x : A) :
  (n <= length (take n L))%nat -> take n (L ++ [x]) = take n L.
Proof.
  rewrite length_take. intros H. apply take_app_le. lia.
Qed.

Lemma placed_step pre slots cap p c p' :
  placed pre slots cap p ->
  place_connection p c = Ok p' ->
  placed (pre ++ [c]) slots cap p'.
Proof.
  intros (Hlen & Hcap & Hslots & Hleak & Htrace).
  unfold place_connection.
  destruct (is_closing c) eqn:Hc; simpl.
  { intros [= <-]. repeat split; try assumption.
    - intros i Hi. rewrite supplied_for_snoc, Hslots by assumption.
      rewrite decide_False by (intros (H & _); congruence).
      now rewrite app_nil_r.
    - intros x Hx Hlive. apply elem_of_app in Hx as [Hx|Hx]; [auto|].
      apply list_elem_of_singleton in Hx. congruence.
    - intros e He. destruct (Htrace e He) as (x & Hx & Hlive & ->).
      exists x. split; [apply elem_of_app; now left|auto]. }
  destruct (connections_by_shard_ p !! slot_index (conn_shard_id c)) as [slot|] eqn:Hj;
    [|discriminate].
  assert (Hjlt : (slot_index (conn_shard_id c) < slots)%nat)
    by (rewrite <- Hlen; eapply lookup_lt_Some; eassumption).
  pose proof (Hslots _ Hjlt) as Hslot. rewrite Hj in Hslot. injection Hslot as Hslot.
  assert (Hother : forall i, i <> slot_index (conn_shard_id c) ->
            supplied_for i (pre ++ [c]) = supplied_for i pre).
  { intros i Hi. rewrite supplied_for_snoc.
    rewrite decide_False by (intros (_ & H); congruence).
    apply app_nil_r. }
  assert (Hsame : supplied_for (slot_index (conn_shard_id c)) (pre ++ [c])
                  = supplied_for (slot_index (conn_shard_id c)) pre ++ [c]).
  { rewrite supplied_for_snoc. now rewrite decide_True by auto. }
  destruct (Z.ltb_spec (Z.of_nat (length slot)) (num_connections_per_shard_ p))
    as [Hroom|Hfull].
  - unfold add_connection. rewrite Hj. intros [= <-]. simpl.
    destruct (take_snoc_room (Z.to_nat cap)
                (supplied_for (slot_index (conn_shard_id c)) pre) c) as (E1 & E2).
    { rewrite <- Hslot. lia. }
    unfold placed. simpl.
    split; [rewrite length_insert; assumption|]. split; [assumption|].
    split; [|split].
    + intros i Hi. destruct (decide (i = slot_index (conn_shard_id c))) as [->|Hne].
      * rewrite list_lookup_insert_eq by lia. now rewrite Hsame, E2, Hslot, E1.
      * rewrite list_lookup_insert_ne by congruence.
        rewrite Hother by assumption. now apply Hslots.
    + intros x Hx Hlive. apply elem_of_app in Hx as [Hx|Hx].
      * destruct (Hleak x Hx Hlive) as [H|H]; [|now right].
        left. apply (elem_of_concat_insert _ _ _ _ _ Hj). now left.
      * apply list_elem_of_singleton in Hx.
        left. apply (elem_of_concat_insert _ _ _ _ _ Hj). now right.
    + intros e He. destruct (Htrace e He) as (x & Hx & Hlive & ->).
      exists x. split; [apply elem_of_app; now left|auto].
  - intros [= <-]. unfold placed. simpl.
    split; [assumption|]. split; [assumption|]. split; [|split].
    + intros i Hi. destruct (decide (i = slot_index (conn_shard_id c))) as [->|Hne].
      * rewrite Hsame, take_snoc_full by (rewrite <- Hslot; lia).
        now apply Hslots.
      * rewrite Hother by assumption. now apply Hslots.
    + intros x Hx Hlive. apply elem_of_app in Hx as [Hx|Hx].
      * destruct (Hleak x Hx Hlive) as [H|H]; [now left|].
        right. apply elem_of_app. now left.
      * apply list_elem_of_singleton in Hx. subst x.
        right. apply elem_of_app. right. now apply list_elem_of_singleton.
    + intros e He. apply elem_of_app in He as [He|He].
      * destruct (Htrace e He) as (x & Hx & Hlive & ->).
        exists x. split; [apply elem_of_app; now left|auto].
      * apply list_elem_of_singleton in He. subst e.
        exists c. split; [apply elem_of_app; right; now apply list_elem_of_singleton|auto].
Qed.

Lemma placed_fold l : forall pre slots cap p p',
  placed pre slots cap p ->
  foldM place_connection l p = Ok p' ->
  placed (pre ++ l) slots cap p'.
Proof.
  induction l as [|c l IH]; intros pre slots cap p p' Hp; simpl.
  - intros [= <-]. now rewrite app_nil_r.
  - destruct (place_connection p c) as [q|] eqn:E; simpl; [|discriminate].
    intros H. replace (pre ++ c :: l) with ((pre ++ [c]) ++ l)
      by now rewrite <- app_assoc.
    eapply IH; [|eassumption]. eapply placed_step; eassumption.
Qed.

Lemma placed_initial si n slots cap :
  placed [] slots cap
    (mkPool si n CLOSE_STATE_OPEN NOTIFY_STATE_NEW (replicate slots []) cap
       [] ∅ 1 [] 0 0).
Proof.
  unfold placed. simpl. split; [apply length_replicate|]. split; [reflexivity|].
  split; [|split].
  - intros i Hi. rewrite lookup_replicate_2 by assumption.
    unfold supplied_for. now rewrite filter_nil, take_nil.
  - intros c Hc. now apply elem_of_nil in Hc.
  - intros e He. now apply elem_of_nil in He.
Qed.

(** The constructor, with the target it computes in sight. *)
Lemma ConnectionPool_new_shape connections si n p0 :
  ConnectionPool_new connections si n = Ok p0 ->
  exists p1,
    foldM place_connection connections
      (mkPool si n CLOSE_STATE_OPEN NOTIFY_STATE_NEW
         (replicate (Z.to_nat (host_shard_slots si)) []) (target_per_shard si n)
         [] ∅ 1 [] 0 0)
    = Ok p1 /\
    p0 = fold_left reconnect_missing
           (seq 0 (length (connections_by_shard_ (notify_up_or_down p1))))
           (notify_up_or_down p1).
Proof.
  unfold ConnectionPool_new, host_shard_slots, target_per_shard.
  destruct si as [si|]; simpl.
  - destruct (vector_max_size <? get_shards_count si); simpl; [discriminate|].
    destruct (get_shards_count si =? 0); simpl; [discriminate|].
    match goal with |- context [foldM place_connection connections ?q] =>
      destruct (foldM place_connection connections q) as [p1|] eqn:E end;
      simpl; [|discriminate].
    intros [= <-]. eauto.
  - match goal with |- context [foldM place_connection connections ?q] =>
      destruct (foldM place_connection connections q) as [p1|] eqn:E end;
      simpl; [|discriminate].
    intros [= <-]. eauto.
Qed.

Lemma reconnects_added_refl q : reconnects_added q q.
Proof.
  repeat split. exists []. split; [now rewrite app_nil_r|constructor].
Qed.

Lemma reconnects_added_schedule q schedule desired p :
  reconnects_added q p -> reconnects_added q (schedule_reconnect schedule desired p).
Proof.
  intros (Hc & Hn & Hh & es & Ht & Hes).
  unfold reconnects_added, schedule_reconnect.
  destruct schedule; simpl; repeat split; try assumption;
    eexists; (split; [rewrite Ht, <- app_assoc; reflexivity|]);
    apply Forall_app; split; try assumption; repeat constructor.
Qed.

Lemma reconnects_added_loop q shards :
  reconnects_added q (fold_left reconnect_missing shards q).
Proof.
  apply (reconnect_missing_keeps (reconnects_added q)).
  - intros. now apply reconnects_added_schedule.
  - apply reconnects_added_refl.
Qed.

Lemma notify_up_or_down_keeps p :
  connections_by_shard_ (notify_up_or_down p) = connections_by_shard_ p /\
  num_connections_per_shard_ (notify_up_or_down p) = num_connections_per_shard_ p /\
  host_sharding_info (notify_up_or_down p) = host_sharding_info p /\
  pending_connections_ (notify_up_or_down p) = pending_connections_ p /\
  reconnection_schedules_ (notify_up_or_down p) = reconnection_schedules_ p /\
  next_connector (notify_up_or_down p) = next_connector p /\
  next_schedule (notify_up_or_down p) = next_schedule p /\
  exists es, trace (notify_up_or_down p) = trace p ++ es /\
             Forall (fun e => e = OnPoolUp \/ e = OnPoolDown) es.
Proof.
  unfold notify_up_or_down.
  repeat match goal with |- context [if ?b then _ else _] => destruct b end;
    simpl; do 7 (split; [reflexivity|]);
    first [ exists [OnPoolDown]; split; [reflexivity|constructor; [auto|constructor]]
          | exists [OnPoolUp]; split; [reflexivity|constructor; [auto|constructor]]
          | exists []; split; [now rewrite app_nil_r|constructor] ].
Qed.

End ConstructorResult.

(** X10.  The constructor fills each slot with the first supplied
    connections that are not closing and report that slot's shard, in the
    order supplied and up to the target; every other supplied connection that
    is not closing is closed, and nothing else is: no connection is lost and
    none is closed without cause. *)
Theorem constructor_places_first_connections
  (connections : list PooledConnection) (si : option ShardingInfo) (n : Z)
  (p0 : ConnectionPool) :
  ConnectionPool_new connections si n = Ok p0 ->
  (forall i, (i < length (connections_by_shard_ p0))%nat ->
     connections_by_shard_ p0 !! i
     = Some (take (capacity p0) (supplied_for i connections))) /\
  (forall c, c ∈ connections -> is_closing c = false ->
     c ∈ concat (connections_by_shard_ p0) \/ ConnClose (conn_id c) ∈ trace p0) /\
  (forall id, ConnClose id ∈ trace p0 ->
     exists c, c ∈ connections /\ is_closing c = false /\ conn_id c = id).
Proof.
  intros H. apply ConnectionPool_new_shape in H as (p1 & Hfold & ->).
  pose proof (placed_fold _ _ _ _ _ _ (placed_initial _ _ _ _) Hfold)
    as (Hlen & Hcap & Hslots & Hleak & Htrace).
  simpl in Hslots, Hleak, Htrace.
  destruct (notify_up_or_down_keeps p1) as (Nc & Nn & _ & _ & _ & _ & _ & es1 & Nt & Nes).
  match goal with |- context [fold_left reconnect_missing ?l ?q] =>
    destruct (reconnects_added_loop q l) as (Rc & Rn & _ & es2 & Rt & Res);
    set (p0 := fold_left reconnect_missing l q) in * end.
  unfold capacity. rewrite Rc, Rn, Nc, Nn, Hcap.
  split; [|split].
  - intros i Hi. apply Hslots. now rewrite <- Hlen.
  - intros c Hc Hlive. destruct (Hleak c Hc Hlive) as [H|H]; [now left|].
    right. rewrite Rt, Nt. apply elem_of_app. left. apply elem_of_app. now left.
  - intros id Hid. rewrite Rt, Nt in Hid.
    apply elem_of_app in Hid as [Hid|Hid].
    + apply elem_of_app in Hid as [Hid|Hid].
      * destruct (Htrace _ Hid) as (c & Hc & Hlive & E). injection E as E. eauto.
      * rewrite Forall_forall in Nes. apply Nes in Hid as [Hid|Hid]; discriminate.
    + rewrite Forall_forall in Res. apply Res in Hid. discriminate.
Qed.

Lemma constructor_places_first_connections_witness :
  exists p0,
    ConnectionPool_new
      [busy_on_shard_0; second_on_shard_0; idle_on_shard_1] (Some (sharding 2 12)) 2
    = Ok p0 /\
    connections_by_shard_ p0 !! 0%nat
    = Some (take (capacity p0)
              (supplied_for 0 [busy_on_shard_0; second_on_shard_0; idle_on_shard_1])) /\
    ConnClose 9 ∈ trace p0.
Proof.
  eexists. split; [vm_compute; reflexivity|].
  match goal with |- connections_by_shard_ ?p !! _ = _ /\ _ =>
    destruct (constructor_places_first_connections
                [busy_on_shard_0; second_on_shard_0; idle_on_shard_1]
                (Some (sharding 2 12)) 2 p) as (H1 & _ & _) end.
  - vm_compute. reflexivity.
  - split; [apply H1; simpl; lia|]. simpl. constructor.
Defined.

Section ConstructorReconnects.

Implicit Types (p q : ConnectionPool).

Lemma replicate_snoc {A} (k : nat) (x : A) : replicate k x ++ [x] = replicate (S k) x.
Proof. induction k as [|k IH]; simpl; [reflexivity|]. now rewrite IH. Qed.

Lemma schedule_reconnect_fresh desired p :
  let p' := schedule_reconnect None desired p in
  map desired_shard_num (pending_connections_ p')
  = map desired_shard_num (pending_connections_ p)
    ++ [match desired with
        | Some d => if has_shard_aware_port (host_sharding_info p) then Some d else None
        | None => None
        end] /\
  connections_by_shard_ p' = connections_by_shard_ p /\
  num_connections_per_shard_ p' = num_connections_per_shard_ p /\
  host_sharding_info p' = host_sharding_info p.
Proof.
  unfold schedule_reconnect. simpl. rewrite map_app. simpl. repeat split.
Qed.

Lemma needed_ext p q i :
  connections_by_shard_ q = connections_by_shard_ p ->
  num_connections_per_shard_ q = num_connections_per_shard_ p ->
  needed q i = needed p i.
Proof. unfold needed. now intros -> ->. Qed.

Lemma wished_shard_ext p q i :
  host_sharding_info q = host_sharding_info p -> wished_shard q i = wished_shard p i.
Proof. unfold wished_shard. now intros ->. Qed.

Lemma reconnect_missing_pending p i :
  let p' := reconnect_missing p i in
  map desired_shard_num (pending_connections_ p')
  = map desired_shard_num (pending_connections_ p)
    ++ replicate (needed p i) (wished_shard p i) /\
  connections_by_shard_ p' = connections_by_shard_ p /\
  num_connections_per_shard_ p' = num_connections_per_shard_ p /\
  host_sharding_info p' = host_sharding_info p.
Proof.
  unfold reconnect_missing. fold (needed p i).
  induction (needed p i) as [|k IH]; simpl.
  - rewrite app_nil_r. repeat split.
  - destruct IH as (Hp & Hc & Hn & Hh).
    set (q := Nat.iter k _ p) in *.
    assert (E : (if has_shard_aware_port (host_sharding_info q)
                 then schedule_reconnect None (Some (sint32 (Z.of_nat i))) q
                 else schedule_reconnect None None q)
                = schedule_reconnect None (wished_shard p i) q).
    { unfold wished_shard. rewrite Hh.
      now destruct (has_shard_aware_port (host_sharding_info p)). }
    rewrite E.
    destruct (schedule_reconnect_fresh (wished_shard p i) q) as (Sp & Sc & Sn & Sh).
    rewrite Sp, Sc, Sn, Sh, Hp, Hc, Hn, Hh, <- app_assoc.
    repeat split. f_equal.
    replace (match wished_shard p i with
             | Some d => if has_shard_aware_port (host_sharding_info p)
                         then Some d else None
             | None => None
             end) with (wished_shard p i).
    + change (wished_shard p i :: replicate k (wished_shard p i))
        with (replicate (S k) (wished_shard p i)).
      apply replicate_snoc.
    + unfold wished_shard.
      now destruct (has_shard_aware_port (host_sharding_info p)).
Qed.

Lemma reconnect_loop_pending shards : forall p,
  let p' := fold_left reconnect_missing shards p in
  map desired_shard_num (pending_connections_ p')
  = map desired_shard_num (pending_connections_ p)
    ++ flat_map (fun i => replicate (needed p i) (wished_shard p i)) shards.
Proof.
  induction shards as [|i shards IH]; intros p; simpl.
  - now rewrite app_nil_r.
  - destruct (reconnect_missing_pending p i) as (Hp & Hc & Hn & Hh).
    rewrite IH, Hp, <- app_assoc. do 2 f_equal.
    apply flat_map_ext. intros j.
    now rewrite (needed_ext p _ j Hc Hn), (wished_shard_ext p _ j Hh).
Qed.

End ConstructorReconnects.

Section ConstructorCounts.

Lemma missing_total {X Y} (slots : list (list X)) (cap : nat) (w : nat -> Y) :
  Forall (fun s => (length s <= cap)%nat) slots ->
  (length (flat_map (fun i => replicate (cap - length (default [] (slots !! i))) (w i))
                    (seq 0 (length slots)))
   + length (concat slots) = cap * length slots)%nat.
Proof.
  induction slots as [|s slots IH] using rev_ind; intros Hall; [simpl; lia|].
  apply Forall_app in Hall as [Hall Hs].
  apply Forall_inv in Hs. specialize (IH Hall).
  rewrite concat_app, !length_app, seq_app, flat_map_app, length_app. simpl.
  rewrite !app_nil_r, length_replicate, list_lookup_middle by reflexivity. simpl.
  assert (E : flat_map (fun i => replicate (cap - length (default [] ((slots ++ [s]) !! i))) (w i))
                (seq 0 (length slots))
              = flat_map (fun i => replicate (cap - length (default [] (slots !! i))) (w i))
                  (seq 0 (length slots))).
  { rewrite !flat_map_concat_map. f_equal. apply map_ext_in.
    intros i Hi. apply in_seq in Hi. now rewrite lookup_app_l by lia. }
  rewrite E. lia.
Qed.

Lemma place_connection_pending p c p' :
  place_connection p c = Ok p' -> pending_connections_ p' = pending_connections_ p.
Proof.
  unfold place_connection, add_connection.
  destruct (is_closing c); simpl; [now intros [= <-]|].
  destruct (connections_by_shard_ p !! slot_index (conn_shard_id c)); [|discriminate].
  destruct (_ <? _); now intros [= <-].
Qed.

Lemma place_connections_pending l : forall p p',
  foldM place_connection l p = Ok p' -> pending_connections_ p' = pending_connections_ p.
Proof.
  induction l as [|c l IH]; intros p p'; simpl.
  - now intros [= <-].
  - destruct (place_connection p c) as [q|] eqn:E; simpl; [|discriminate].
    intros H. rewrite (IH _ _ H). eapply place_connection_pending; eassumption.
Qed.

End ConstructorCounts.

Lemma needed_small p i :
  0 <= num_connections_per_shard_ p < 2 ^ 31 ->
  (length (default [] (connections_by_shard_ p !! i)) <= capacity p)%nat ->
  needed p i = (capacity p - length (default [] (connections_by_shard_ p !! i)))%nat.
Proof.
  unfold needed, capacity, sint32, wrap64. intros Hper Hlen.
  set (len := length _) in *.
  rewrite (Z.mod_small (_ - _)) by lia.
  rewrite Z.mod_small by lia. lia.
Qed.

(** X11.  The target the constructor computes is the host's quota divided by
    the number of slots, rounded up: the slots together can hold the quota,
    and with one connection fewer per slot they could not. *)
Theorem constructor_target_is_ceiling
  (connections : list PooledConnection) (si : option ShardingInfo) (n : Z)
  (p0 : ConnectionPool) :
  ConnectionPool_new connections si n = Ok p0 ->
  shards_count_typed si ->
  0 <= n ->
  Z.of_nat (length (connections_by_shard_ p0)) = host_shard_slots si /\
  1 <= host_shard_slots si /\
  (num_connections_per_shard_ p0 - 1) * host_shard_slots si < n /\
  n <= num_connections_per_shard_ p0 * host_shard_slots si.
Proof.
  intros H Hty Hn.
  pose proof (ConnectionPool_new_inv _ _ _ _ H) as (_ & _ & _ & _ & Hcnt).
  apply ConnectionPool_new_shape in H as (p1 & Hfold & ->).
  pose proof (placed_fold _ _ _ _ _ _ (placed_initial _ _ _ _) Hfold)
    as (Hlen & Hcap & _).
  destruct (notify_up_or_down_keeps p1) as (Nc & Nn & _).
  match goal with |- context [fold_left reconnect_missing ?l ?q] =>
    destruct (reconnects_added_loop q l) as (Rc & Rn & _);
    set (p0 := fold_left reconnect_missing l q) in * end.
  rewrite Rc, Rn, Nc, Nn, Hlen, Hcap.
  unfold shards_count_typed, host_shards_count in Hty.
  unfold host_shard_slots, target_per_shard.
  destruct si as [si|]; [|lia].
  unfold get_shards_count. destruct Hcnt as [Hnz _].
  set (cnt := shards_count si) in *.
  assert (Hpos : 1 <= cnt) by lia.
  pose proof (Z.div_mod n cnt ltac:(lia)) as Hdiv.
  pose proof (Z.mod_pos_bound n cnt ltac:(lia)) as Hmod.
  split; [lia|]. split; [lia|].
  destruct (Z.eqb_spec (n mod cnt) 0); nia.
Qed.

Lemma constructor_target_is_ceiling_witness :
  exists p0,
    ConnectionPool_new [busy_on_shard_0] (Some (sharding 4 12)) 6 = Ok p0 /\
    num_connections_per_shard_ p0 = 2 /\
    (num_connections_per_shard_ p0 - 1) * 4 < 6 /\
    6 <= num_connections_per_shard_ p0 * 4.
Proof.
  eexists. split; [vm_compute; reflexivity|].
  split; [reflexivity|].
  match goal with |- context [num_connections_per_shard_ ?p] =>
    destruct (constructor_target_is_ceiling [busy_on_shard_0]
                (Some (sharding 4 12)) 6 p) as (_ & _ & H1 & H2) end.
  - vm_compute. reflexivity.
  - unfold shards_count_typed. simpl. lia.
  - lia.
  - split; [exact H1|exact H2].
Defined.

(** The reconnects the constructor schedules, and the room the slots have. *)
Lemma ConnectionPool_new_wishes connections si n p0 :
  ConnectionPool_new connections si n = Ok p0 ->
  0 <= num_connections_per_shard_ p0 < 2 ^ 31 ->
  map desired_shard_num (pending_connections_ p0)
  = flat_map (fun i => replicate
                         (capacity p0 - length (default [] (connections_by_shard_ p0 !! i)))
                         (wished_shard p0 i))
             (seq 0 (length (connections_by_shard_ p0))) /\
  (forall i, (length (default [] (connections_by_shard_ p0 !! i)) <= capacity p0)%nat).
Proof.
  intros H Hper.
  apply ConnectionPool_new_shape in H as (p1 & Hfold & E).
  pose proof (placed_fold _ _ _ _ _ _ (placed_initial _ _ _ _) Hfold)
    as (Hlen & Hcap & Hslots & _).
  pose proof (place_connections_pending _ _ _ Hfold) as Hpend. simpl in Hpend.
  destruct (notify_up_or_down_keeps p1) as (Nc & Nn & Nh & Np & _).
  set (q := notify_up_or_down p1) in *.
  pose proof (reconnect_loop_pending (seq 0 (length (connections_by_shard_ q))) q) as Hloop.
  destruct (reconnects_added_loop q (seq 0 (length (connections_by_shard_ q))))
    as (Rc & Rn & Rh & _).
  rewrite <- E in Hloop, Rc, Rn, Rh. simpl in Hloop. clear E.
  rewrite Np, Hpend in Hloop. simpl in Hloop.
  assert (Hfit : forall i,
            (length (default [] (connections_by_shard_ p0 !! i)) <= capacity p0)%nat).
  { intros i. unfold capacity. rewrite Rc, Rn, Nc, Nn, Hcap.
    destruct (Nat.lt_ge_cases i (length (connections_by_shard_ p1))) as [Hi|Hi].
    - rewrite Hslots by (now rewrite <- Hlen). simpl. rewrite length_take. lia.
    - rewrite lookup_ge_None_2 by assumption. simpl. lia. }
  split; [|exact Hfit].
  rewrite Hloop, Rc. apply flat_map_ext. intros i.
  rewrite <- (needed_ext q p0 i Rc Rn), <- (wished_shard_ext q p0 i Rh).
  rewrite needed_small by auto. now rewrite Rc.
Qed.

Lemma ConnectionPool_new_total connections si n p0 :
  ConnectionPool_new connections si n = Ok p0 ->
  0 <= num_connections_per_shard_ p0 < 2 ^ 31 ->
  (length (concat (connections_by_shard_ p0)) + length (pending_connections_ p0)
   = capacity p0 * length (connections_by_shard_ p0))%nat.
Proof.
  intros H Hper. destruct (ConnectionPool_new_wishes _ _ _ _ H Hper) as (Hmap & Hfit).
  rewrite <- (length_map desired_shard_num), Hmap, Nat.add_comm.
  apply missing_total. apply Forall_forall. intros s Hs.
  apply list_elem_of_lookup in Hs as [i Hi].
  specialize (Hfit i). now rewrite Hi in Hfit.
Qed.

(** X12.  After the first connections are placed the constructor schedules,
    slot by slot and in the order of the slots, exactly the reconnects each
    slot is short of, naming the slot as the desired shard when the host
    advertises a shard-aware port and naming none otherwise; so the
    connections in the pool and the attempts under way together make up the
    target for every slot. *)
Theorem constructor_schedules_what_is_missing
  (connections : list PooledConnection) (si : option ShardingInfo) (n : Z)
  (p0 : ConnectionPool) :
  ConnectionPool_new connections si n = Ok p0 ->
  0 <= num_connections_per_shard_ p0 < 2 ^ 31 ->
  map desired_shard_num (pending_connections_ p0)
  = flat_map (fun i => replicate
                         (capacity p0 - length (default [] (connections_by_shard_ p0 !! i)))
                         (wished_shard p0 i))
             (seq 0 (length (connections_by_shard_ p0))) /\
  (length (pending_connections_ p0) + length (concat (connections_by_shard_ p0))
   = capacity p0 * length (connections_by_shard_ p0))%nat.
Proof.
  intros H Hper.
  destruct (ConnectionPool_new_wishes _ _ _ _ H Hper) as (Hmap & _).
  split; [exact Hmap|].
  rewrite Nat.add_comm. eapply ConnectionPool_new_total; eassumption.
Qed.

Lemma constructor_schedules_what_is_missing_witness :
  exists p0,
    ConnectionPool_new [busy_on_shard_0] (Some (sharding 2 12)) 3 = Ok p0 /\
    (length (pending_connections_ p0) + length (concat (connections_by_shard_ p0))
     = capacity p0 * length (connections_by_shard_ p0))%nat.
Proof.
  eexists. split; [vm_compute; reflexivity|].
  match goal with |- context [pending_connections_ ?p] =>
    destruct (constructor_schedules_what_is_missing [busy_on_shard_0]
                (Some (sharding 2 12)) 3 p) as (_ & H) end.
  - vm_compute. reflexivity.
  - simpl. lia.
  - exact H.
Defined.

(** ** What every call keeps *)

Section Frames.

Implicit Types (p q : ConnectionPool).

Lemma same_data_refl p : same_data p p.
Proof. repeat split. Qed.

Lemma same_data_trans p q r : same_data p q -> same_data q r -> same_data p r.
Proof.
  intros (A1 & A2 & A3 & A4 & A5 & A6 & A7) (B1 & B2 & B3 & B4 & B5 & B6 & B7).
  unfold same_data. rewrite B1, B2, B3, B4, B5, B6, B7. repeat split; assumption.
Qed.

Lemma same_data_maybe_closed p : same_data p (maybe_closed p).
Proof.
  unfold maybe_closed.
  repeat match goal with |- context [if ?b then _ else _] => destruct b end;
    repeat split.
Qed.

Lemma same_data_notify_up_or_down p : same_data p (notify_up_or_down p).
Proof.
  unfold notify_up_or_down.
  repeat match goal with |- context [if ?b then _ else _] => destruct b end;
    repeat split.
Qed.

Lemma same_data_notify_critical_error code message p :
  same_data p (notify_critical_error code message p).
Proof.
  unfold notify_critical_error.
  repeat match goal with |- context [if ?b then _ else _] => destruct b end;
    repeat split.
Qed.

(** [internal_close] changes the closing flags of the connections and nothing
    else of the data. *)
Lemma internal_close_data p :
  host_sharding_info (internal_close p) = host_sharding_info p /\
  (connections_by_shard_ (internal_close p) = connections_by_shard_ p \/
   connections_by_shard_ (internal_close p)
   = map (map mark_closing) (connections_by_shard_ p)) /\
  num_connections_per_shard_ (internal_close p) = num_connections_per_shard_ p /\
  pending_connections_ (internal_close p) = pending_connections_ p /\
  reconnection_schedules_ (internal_close p) = reconnection_schedules_ p /\
  next_connector (internal_close p) = next_connector p /\
  next_schedule (internal_close p) = next_schedule p.
Proof.
  unfold internal_close.
  destruct (bool_decide (close_state_ p = CLOSE_STATE_OPEN)); [|repeat split; now left].
  match goal with |- context [maybe_closed ?q] =>
    destruct (same_data_maybe_closed q) as (-> & -> & -> & -> & -> & -> & ->) end.
  simpl. repeat split. now right.
Qed.

Lemma lookup_map {A B} (f : A -> B) (l : list A) (i : nat) :
  map f l !! i = f <$> l !! i.
Proof.
  revert i. induction l as [|x l IH]; intros [|i]; simpl; try reflexivity. apply IH.
Qed.

Lemma elem_of_map {A B} (f : A -> B) (l : list A) (y : B) :
  y ∈ map f l <-> exists x, y = f x /\ x ∈ l.
Proof.
  rewrite list_elem_of_In, in_map_iff. split; intros (x & H1 & H2); exists x.
  - split; [congruence|now apply list_elem_of_In].
  - split; [congruence|now apply list_elem_of_In].
Qed.

Lemma shaped_ext slots cap p q :
  connections_by_shard_ q = connections_by_shard_ p ->
  num_connections_per_shard_ q = num_connections_per_shard_ p ->
  shaped slots cap p -> shaped slots cap q.
Proof.
  unfold shaped, slots_fit, slots_by_shard, capacity. now intros -> ->.
Qed.

Lemma shaped_same slots cap p q : same_data p q -> shaped slots cap p -> shaped slots cap q.
Proof. intros (_ & H1 & H2 & _). now apply shaped_ext. Qed.

Lemma shaped_mark_closing slots cap p q :
  connections_by_shard_ q = map (map mark_closing) (connections_by_shard_ p) ->
  num_connections_per_shard_ q = num_connections_per_shard_ p ->
  shaped slots cap p -> shaped slots cap q.
Proof.
  unfold shaped, slots_fit, slots_by_shard, capacity.
  intros -> -> (Hlen & Hcap & Hfit & Hby).
  split; [now rewrite length_map|]. split; [assumption|]. split.
  - apply Forall_map. eapply Forall_impl; [exact Hfit|].
    intros s Hs. simpl. now rewrite length_map.
  - intros i s c Hi Hc. rewrite lookup_map in Hi.
    destruct (connections_by_shard_ p !! i) as [s0|] eqn:E; [|discriminate].
    injection Hi as <-. apply elem_of_map in Hc as (x & -> & Hx).
    simpl. eapply Hby; eassumption.
Qed.

Lemma shaped_remove slots cap p c s q :
  connections_by_shard_ p !! slot_index (conn_shard_id c) = Some s ->
  connections_by_shard_ q
  = <[slot_index (conn_shard_id c) := remove_connection c s]> (connections_by_shard_ p) ->
  num_connections_per_shard_ q = num_connections_per_shard_ p ->
  shaped slots cap p -> shaped slots cap q.
Proof.
  unfold shaped, slots_fit, slots_by_shard, capacity.
  intros Hs -> -> (Hlen & Hcap & Hfit & Hby).
  split; [now rewrite length_insert|]. split; [assumption|]. split.
  - apply Forall_insert; [assumption|].
    rewrite Forall_forall in Hfit.
    specialize (Hfit s (list_elem_of_lookup_2 _ _ _ Hs)).
    unfold remove_connection. etransitivity; [apply length_filter|exact Hfit].
  - intros i s' x Hi Hx.
    destruct (decide (i = slot_index (conn_shard_id c))) as [->|Hne].
    + rewrite list_lookup_insert_eq in Hi by (eapply lookup_lt_Some; eassumption).
      injection Hi as <-. apply list_elem_of_filter in Hx as [_ Hx].
      eapply Hby; eassumption.
    + rewrite list_lookup_insert_ne in Hi by congruence. eapply Hby; eassumption.
Qed.

Lemma shaped_add slots cap p c s q :
  connections_by_shard_ p !! slot_index (conn_shard_id c) = Some s ->
  Z.of_nat (length s) < num_connections_per_shard_ p ->
  connections_by_shard_ q
  = <[slot_index (conn_shard_id c) := s ++ [c]]> (connections_by_shard_ p) ->
  num_connections_per_shard_ q = num_connections_per_shard_ p ->
  shaped slots cap p -> shaped slots cap q.
Proof.
  unfold shaped, slots_fit, slots_by_shard, capacity.
  intros Hs Hroom -> -> (Hlen & Hcap & Hfit & Hby).
  split; [now rewrite length_insert|]. split; [assumption|]. split.
  - apply Forall_insert; [assumption|]. rewrite length_app. simpl. lia.
  - intros i s' x Hi Hx.
    destruct (decide (i = slot_index (conn_shard_id c))) as [->|Hne].
    + rewrite list_lookup_insert_eq in Hi by (eapply lookup_lt_Some; eassumption).
      injection Hi as <-. apply elem_of_app in Hx as [Hx|Hx].
      * eapply Hby; eassumption.
      * apply list_elem_of_singleton in Hx. now subst x.
    + rewrite list_lookup_insert_ne in Hi by congruence. eapply Hby; eassumption.
Qed.

Lemma same_slots_schedule_reconnect schedule desired p :
  host_sharding_info (schedule_reconnect schedule desired p) = host_sharding_info p /\
  connections_by_shard_ (schedule_reconnect schedule desired p) = connections_by_shard_ p /\
  num_connections_per_shard_ (schedule_reconnect schedule desired p)
  = num_connections_per_shard_ p.
Proof. unfold schedule_reconnect. destruct schedule; repeat split. Qed.

Lemma shaped_schedule_reconnect slots cap schedule desired p :
  shaped slots cap p -> shaped slots cap (schedule_reconnect schedule desired p).
Proof.
  destruct (same_slots_schedule_reconnect schedule desired p) as (_ & H1 & H2).
  now apply shaped_ext.
Qed.

Lemma shaped_internal_close slots cap p :
  shaped slots cap p -> shaped slots cap (internal_close p).
Proof.
  destruct (internal_close_data p) as (_ & [H|H] & Hn & _).
  - now apply shaped_ext.
  - now apply shaped_mark_closing.
Qed.

Lemma shaped_close_connection slots cap c p p' :
  close_connection c p = Ok p' -> shaped slots cap p -> shaped slots cap p'.
Proof.
  unfold close_connection.
  destruct (connections_by_shard_ p !! slot_index (conn_shard_id c)) as [s|] eqn:Hs;
    [|discriminate].
  intros H Hp.
  assert (Hq : shaped slots cap
                 (set_connections p
                    (<[slot_index (conn_shard_id c) := remove_connection c s]>
                       (connections_by_shard_ p))))
    by (eapply shaped_remove; [exact Hs|reflexivity|reflexivity|exact Hp]).
  revert H. simpl.
  destruct (negb (bool_decide (close_state_ p = CLOSE_STATE_OPEN))); intros [= <-].
  - eapply shaped_same; [apply same_data_maybe_closed|exact Hq].
  - apply shaped_schedule_reconnect.
    eapply shaped_same; [apply same_data_notify_up_or_down|exact Hq].
Qed.

Lemma shaped_on_reconnect slots cap k p p' :
  on_reconnect k p = Ok p' -> shaped slots cap p -> shaped slots cap p'.
Proof.
  unfold on_reconnect. simpl.
  destruct (reconnection_schedules_ p !! connector_id k) as [schedule|]; [|discriminate].
  set (q := set_schedules _ _).
  intros H Hp.
  assert (Hq : shaped slots cap q) by (eapply shaped_ext; [reflexivity|reflexivity|exact Hp]).
  revert H. simpl.
  destruct (negb (bool_decide (close_state_ p = CLOSE_STATE_OPEN))).
  { intros [= <-]. eapply shaped_same; [apply same_data_maybe_closed|exact Hq]. }
  destruct (is_ok k).
  - destruct (_ && _) eqn:Hroom.
    + apply andb_true_iff in Hroom as [Hin Hroom].
      apply Z.ltb_lt in Hin, Hroom.
      unfold add_connection. fold (slot_index (conn_shard_id (release_connection k))) in *.
      destruct (connections_by_shard_ q !! slot_index (conn_shard_id (release_connection k)))
        as [s|] eqn:Hs; simpl; [|discriminate].
      intros [= <-].
      eapply shaped_same; [apply same_data_notify_up_or_down|].
      eapply shaped_add; [exact Hs| |reflexivity|reflexivity|exact Hq].
      change (connections_by_shard_ q) with (connections_by_shard_ p) in Hs.
      rewrite Hs in Hroom. exact Hroom.
    + intros [= <-]. apply shaped_schedule_reconnect.
      eapply shaped_ext; [reflexivity|reflexivity|exact Hq].
  - destruct (negb (is_canceled k)); [|now intros [= <-]].
    destruct (is_critical_error k); intros [= <-].
    + apply shaped_internal_close.
      eapply shaped_same; [apply same_data_notify_critical_error|exact Hq].
    + now apply shaped_schedule_reconnect.
Qed.

Lemma shaped_run_op slots cap o p p' :
  run_op p o = Ok p' -> shaped slots cap p -> shaped slots cap p'.
Proof.
  destruct o as [|c|k]; simpl.
  - intros [= <-]. apply shaped_internal_close.
  - apply shaped_close_connection.
  - apply shaped_on_reconnect.
Qed.

Lemma shaped_exec slots cap ops p p' :
  exec ops p = Ok p' -> shaped slots cap p -> shaped slots cap p'.
Proof.
  apply (foldM_keeps run_op (shaped slots cap)).
  intros s a s' H. eapply shaped_run_op; eassumption.
Qed.

Lemma shaped_ConnectionPool_new connections si n p0 :
  ConnectionPool_new connections si n = Ok p0 ->
  shaped (length (connections_by_shard_ p0)) (num_connections_per_shard_ p0) p0.
Proof.
  intros H. apply ConnectionPool_new_shape in H as (p1 & Hfold & ->).
  pose proof (placed_fold _ _ _ _ _ _ (placed_initial _ _ _ _) Hfold)
    as (Hlen & Hcap & Hslots & _).
  destruct (notify_up_or_down_keeps p1) as (Nc & Nn & _).
  match goal with |- context [fold_left reconnect_missing ?l ?q] =>
    destruct (reconnects_added_loop q l) as (Rc & Rn & _);
    set (p0 := fold_left reconnect_missing l q) in * end.
  eapply (shaped_ext _ _ p1); [now rewrite Rc, Nc|now rewrite Rn, Nn|].
  rewrite Rc, Rn, Nc, Nn.
  unfold shaped, slots_fit, slots_by_shard, capacity.
  split; [reflexivity|]. split; [reflexivity|]. split.
  - apply Forall_forall. intros s Hs. apply list_elem_of_lookup in Hs as [i Hi].
    rewrite Hslots in Hi by (rewrite <- Hlen; eapply lookup_lt_Some; eassumption).
    injection Hi as <-. rewrite length_take, Hcap. lia.
  - intros i s c Hi Hc.
    rewrite Hslots in Hi by (rewrite <- Hlen; eapply lookup_lt_Some; eassumption).
    injection Hi as <-. apply elem_of_take in Hc as (j & Hj & _).
    apply list_elem_of_lookup_2 in Hj. unfold supplied_for in Hj.
    apply list_elem_of_filter in Hj as [[_ Hj] _]. exact Hj.
Qed.

End Frames.

(** X13.  Whatever calls follow the construction, the pool keeps the number
    of slots and the target it was built with, no slot ever holds more
    connections than the target, and every connection sits in the slot of the
    shard it reports. *)
Theorem pool_keeps_its_shape
  (connections : list PooledConnection) (si : option ShardingInfo) (n : Z)
  (p0 : ConnectionPool) (ops : list op) (p : ConnectionPool) :
  ConnectionPool_new connections si n = Ok p0 ->
  exec ops p0 = Ok p ->
  length (connections_by_shard_ p) = length (connections_by_shard_ p0) /\
  num_connections_per_shard_ p = num_connections_per_shard_ p0 /\
  (forall s, s ∈ connections_by_shard_ p -> (length s <= capacity p0)%nat) /\
  (forall i s c, connections_by_shard_ p !! i = Some s -> c ∈ s ->
     slot_index (conn_shard_id c) = i).
Proof.
  intros Hnew Hexec.
  pose proof (shaped_exec _ _ _ _ _ Hexec (shaped_ConnectionPool_new _ _ _ _ Hnew))
    as (Hlen & Hcap & Hfit & Hby).
  split; [exact Hlen|]. split; [exact Hcap|]. split; [|exact Hby].
  intros s Hs. unfold slots_fit, capacity in Hfit. rewrite Forall_forall in Hfit.
  unfold capacity. rewrite <- Hcap. now apply Hfit.
Qed.

Lemma pool_keeps_its_shape_witness :
  exists p0 p,
    ConnectionPool_new [busy_on_shard_0] (Some (sharding 2 12)) 2 = Ok p0 /\
    exec [CloseConnection busy_on_shard_0; Close] p0 = Ok p /\
    length (connections_by_shard_ p) = length (connections_by_shard_ p0) /\
    num_connections_per_shard_ p = num_connections_per_shard_ p0.
Proof.
  do 2 eexists. split; [vm_compute; reflexivity|].
  split; [vm_compute; reflexivity|].
  match goal with |- length (connections_by_shard_ ?p) = length (connections_by_shard_ ?p0) /\ _ =>
    destruct (pool_keeps_its_shape [busy_on_shard_0] (Some (sharding 2 12)) 2 p0
                [CloseConnection busy_on_shard_0; Close] p) as (H1 & H2 & _) end.
  - vm_compute. reflexivity.
  - vm_compute. reflexivity.
  - split; [exact H1|exact H2].
Defined.

(** ** Connectors and their schedules *)

Section Ownership.

Implicit Types (p q : ConnectionPool).

Lemma schedules_owned_ext p q :
  pending_connections_ q = pending_connections_ p ->
  reconnection_schedules_ q = reconnection_schedules_ p ->
  next_connector q = next_connector p ->
  schedules_owned p -> schedules_owned q.
Proof. unfold schedules_owned, pending_scheduled. now intros -> -> ->. Qed.

Lemma schedules_owned_same p q : same_data p q -> schedules_owned p -> schedules_owned q.
Proof. intros (_ & _ & _ & H1 & H2 & H3 & _). now apply schedules_owned_ext. Qed.

Lemma schedules_owned_schedule_reconnect schedule desired p :
  schedules_owned p -> schedules_owned (schedule_reconnect schedule desired p).
Proof.
  intros (Hp & Hown). split; [now apply pending_scheduled_schedule_reconnect|].
  unfold schedule_reconnect. destruct schedule as [s|]; simpl.
  all: intros id Hid; rewrite map_app; apply elem_of_app; simpl;
    destruct (decide (id = next_connector p)) as [->|Hne];
    [ right; now apply list_elem_of_singleton
    | left; rewrite lookup_insert_ne in Hid by congruence; now apply Hown ].
Qed.

Lemma schedules_owned_remove k p :
  schedules_owned p ->
  schedules_owned
    (set_schedules (set_pending p (remove_connector k (pending_connections_ p)))
       (delete (connector_id k) (reconnection_schedules_ p))).
Proof.
  intros ((Hnd & Hall) & Hown). unfold schedules_owned, pending_scheduled. simpl.
  split; [split|].
  - now apply filter_NoDup_ids.
  - intros x Hx. apply list_elem_of_filter in Hx as (Hne & Hx).
    destruct (Hall x Hx) as (Hlt & Hs). split; [exact Hlt|].
    now rewrite lookup_delete_ne by congruence.
  - intros id Hid.
    destruct (decide (id = connector_id k)) as [->|Hne].
    + rewrite lookup_delete_eq in Hid. now destruct Hid.
    + rewrite lookup_delete_ne in Hid by congruence.
      apply Hown, list_elem_of_fmap in Hid as (x & -> & Hx).
      apply list_elem_of_fmap. exists x. split; [reflexivity|].
      apply list_elem_of_filter. split; assumption.
Qed.

Lemma schedules_owned_internal_close p :
  schedules_owned p -> schedules_owned (internal_close p).
Proof.
  destruct (internal_close_data p) as (_ & _ & _ & H1 & H2 & H3 & _).
  now apply schedules_owned_ext.
Qed.

Lemma schedules_owned_close_connection c p p' :
  close_connection c p = Ok p' -> schedules_owned p -> schedules_owned p'.
Proof.
  unfold close_connection.
  destruct (connections_by_shard_ p !! slot_index (conn_shard_id c)) as [s|];
    [|discriminate].
  simpl. intros H Hp.
  destruct (negb (bool_decide (close_state_ p = CLOSE_STATE_OPEN)));
    injection H as <-.
  - eapply schedules_owned_same; [apply same_data_maybe_closed|].
    eapply schedules_owned_ext; [reflexivity|reflexivity|reflexivity|exact Hp].
  - apply schedules_owned_schedule_reconnect.
    eapply schedules_owned_same; [apply same_data_notify_up_or_down|].
    eapply schedules_owned_ext; [reflexivity|reflexivity|reflexivity|exact Hp].
Qed.

Lemma schedules_owned_on_reconnect k p p' :
  on_reconnect k p = Ok p' -> schedules_owned p -> schedules_owned p'.
Proof.
  unfold on_reconnect. simpl.
  destruct (reconnection_schedules_ p !! connector_id k) as [schedule|]; [|discriminate].
  intros H Hp. apply (schedules_owned_remove k) in Hp.
  set (q := set_schedules _ _) in *.
  revert H. simpl.
  destruct (negb (bool_decide (close_state_ p = CLOSE_STATE_OPEN))).
  { intros [= <-]. eapply schedules_owned_same; [apply same_data_maybe_closed|exact Hp]. }
  destruct (is_ok k).
  - destruct (_ && _).
    + unfold add_connection.
      destruct (connections_by_shard_ q !! _) as [s|]; simpl; [|discriminate].
      intros [= <-].
      eapply schedules_owned_same; [apply same_data_notify_up_or_down|].
      eapply schedules_owned_ext; [reflexivity|reflexivity|reflexivity|exact Hp].
    + intros [= <-]. apply schedules_owned_schedule_reconnect.
      eapply schedules_owned_ext; [reflexivity|reflexivity|reflexivity|exact Hp].
  - destruct (negb (is_canceled k)); [|now intros [= <-]].
    destruct (is_critical_error k); intros [= <-].
    + apply schedules_owned_internal_close.
      eapply schedules_owned_same; [apply same_data_notify_critical_error|exact Hp].
    + now apply schedules_owned_schedule_reconnect.
Qed.

Lemma schedules_owned_exec ops p p' :
  exec ops p = Ok p' -> schedules_owned p -> schedules_owned p'.
Proof.
  apply (foldM_keeps run_op schedules_owned).
  intros s [|c|k] s'; simpl.
  - intros [= <-]. apply schedules_owned_internal_close.
  - apply schedules_owned_close_connection.
  - apply schedules_owned_on_reconnect.
Qed.

Lemma place_connection_connectors p c p' :
  place_connection p c = Ok p' ->
  pending_connections_ p' = pending_connections_ p /\
  reconnection_schedules_ p' = reconnection_schedules_ p /\
  next_connector p' = next_connector p.
Proof.
  unfold place_connection, add_connection.
  destruct (is_closing c); simpl; [now intros [= <-]|].
  destruct (connections_by_shard_ p !! slot_index (conn_shard_id c)); [|discriminate].
  destruct (_ <? _); now intros [= <-].
Qed.

Lemma schedules_owned_ConnectionPool_new connections si n p0 :
  ConnectionPool_new connections si n = Ok p0 -> schedules_owned p0.
Proof.
  intros H. apply ConnectionPool_new_shape in H as (p1 & Hfold & ->).
  apply (reconnect_missing_keeps schedules_owned).
  { intros. now apply schedules_owned_schedule_reconnect. }
  eapply schedules_owned_same; [apply same_data_notify_up_or_down|].
  eapply (foldM_keeps place_connection schedules_owned); [|exact Hfold|].
  - intros s a s' E. apply place_connection_connectors in E as (E1 & E2 & E3).
    now apply schedules_owned_ext.
  - split; [split|]; simpl.
    + apply NoDup_nil_2.
    + intros x Hx. now apply elem_of_nil in Hx.
    + intros id [x Hx]. now rewrite lookup_empty in Hx.
Qed.

Lemma on_reconnect_ok_iff k p :
  is_Ok (on_reconnect k p) <-> is_Some (reconnection_schedules_ p !! connector_id k).
Proof.
  split.
  - intros [p' H]. revert H. unfold on_reconnect. simpl.
    destruct (reconnection_schedules_ p !! connector_id k); [eauto|discriminate].
  - intros Hs. destruct (on_reconnect k p) as [p'|f] eqn:E; [now exists p'|].
    pose proof (on_reconnect_fault _ _ _ E) as ->.
    revert E. unfold on_reconnect. simpl.
    destruct Hs as [schedule ->].
    destruct (negb (bool_decide (close_state_ p = CLOSE_STATE_OPEN))); [discriminate|].
    destruct (is_ok k).
    + destruct (_ && _); [|discriminate].
      unfold add_connection. simpl.
      destruct (connections_by_shard_ p !! _); simpl; discriminate.
    + destruct (negb (is_canceled k)); [|discriminate].
      destruct (is_critical_error k); discriminate.
Qed.

End Ownership.

(** X14.  Whatever calls follow the construction, the pending connectors are
    distinct objects and the schedules on file are exactly theirs; so the
    report of a connector runs through when the connector is pending, and
    fails the assertion of [on_reconnect] when it is not, as for a connector
    that reports twice. *)
Theorem schedules_belong_to_pending_connectors
  (connections : list PooledConnection) (si : option ShardingInfo) (n : Z)
  (p0 : ConnectionPool) (ops : list op) (p : ConnectionPool) :
  ConnectionPool_new connections si n = Ok p0 ->
  exec ops p0 = Ok p ->
  NoDup (map connector_id (pending_connections_ p)) /\
  (forall id, is_Some (reconnection_schedules_ p !! id) <->
              id ∈ map connector_id (pending_connections_ p)) /\
  (forall k, connector_id k ∈ map connector_id (pending_connections_ p) ->
             is_Ok (on_reconnect k p)) /\
  (forall k, connector_id k ∉ map connector_id (pending_connections_ p) ->
             on_reconnect k p = Fault AssertionFailure).
Proof.
  intros Hnew Hexec.
  pose proof (schedules_owned_exec _ _ _ Hexec
                (schedules_owned_ConnectionPool_new _ _ _ _ Hnew))
    as ((Hnd & Hall) & Hown).
  assert (Hiff : forall id, is_Some (reconnection_schedules_ p !! id) <->
                            id ∈ map connector_id (pending_connections_ p)).
  { intros id. split; [apply Hown|].
    intros Hid. apply list_elem_of_fmap in Hid as (x & -> & Hx). now apply Hall. }
  split; [exact Hnd|]. split; [exact Hiff|]. split.
  - intros k Hk. apply on_reconnect_ok_iff, Hiff, Hk.
  - intros k Hk. destruct (on_reconnect k p) as [p'|f] eqn:E.
    + exfalso. apply Hk, Hiff, on_reconnect_ok_iff. now exists p'.
    + f_equal. eapply on_reconnect_fault; eassumption.
Qed.

Lemma schedules_belong_to_pending_connectors_witness :
  exists p0 p,
    ConnectionPool_new [] None 2 = Ok p0 /\
    exec [OnReconnect (connected busy_on_shard_0 first_connector)] p0 = Ok p /\
    is_Ok (on_reconnect (canceled second_connector) p) /\
    on_reconnect (canceled first_connector) p = Fault AssertionFailure.
Proof.
  do 2 eexists. split; [vm_compute; reflexivity|].
  split; [vm_compute; reflexivity|].
  match goal with |- is_Ok (on_reconnect _ ?p) /\ _ =>
    destruct (schedules_belong_to_pending_connectors [] None 2 _
                [OnReconnect (connected busy_on_shard_0 first_connector)] p
                eq_refl eq_refl) as (_ & _ & H1 & H2) end.
  split.
  - apply H1. vm_compute. constructor.
  - apply H2. vm_compute. intros H. inversion H; subst.
    match goal with H : _ ∈ [] |- _ => inversion H end.
Defined.

(** ** A pool that is no longer open *)

Section ClosingPool.

Implicit Types (p q : ConnectionPool).

(** How a pool that is no longer open can have moved: not at all, or from
    WAITING_FOR_CONNECTIONS to CLOSED with the closing notifications. *)
Lemma maybe_closed_moves q :
  notify_state_ (maybe_closed q) = notify_state_ q /\
  ((close_state_ (maybe_closed q) = close_state_ q /\ trace (maybe_closed q) = trace q) \/
   (close_state_ q = CLOSE_STATE_WAITING_FOR_CONNECTIONS /\
    close_state_ (maybe_closed q) = CLOSE_STATE_CLOSED /\
    trace (maybe_closed q) = trace q ++ closing_tail (notify_state_ q))).
Proof.
  unfold maybe_closed, closing_tail.
  destruct (bool_decide_reflect (close_state_ q = CLOSE_STATE_WAITING_FOR_CONNECTIONS));
    simpl; [|now auto].
  destruct (negb (has_connections q)); simpl; [|now auto].
  destruct (bool_decide (pending_connections_ q = [])); simpl; [|now auto].
  destruct (bool_decide (notify_state_ q = NOTIFY_STATE_UP)); simpl.
  - split; [reflexivity|]. right. now rewrite <- app_assoc.
  - split; [reflexivity|]. right. auto.
Qed.

Lemma run_op_quiet o p p' :
  close_state_ p <> CLOSE_STATE_OPEN ->
  run_op p o = Ok p' ->
  notify_state_ p' = notify_state_ p /\
  sublist (pending_connections_ p') (pending_connections_ p) /\
  ((close_state_ p' = close_state_ p /\ trace p' = trace p) \/
   (close_state_ p = CLOSE_STATE_WAITING_FOR_CONNECTIONS /\
    close_state_ p' = CLOSE_STATE_CLOSED /\
    trace p' = trace p ++ closing_tail (notify_state_ p))).
Proof.
  intros Hp. destruct o as [|c|k]; simpl.
  - rewrite internal_close_not_open by assumption. intros [= <-]. auto.
  - unfold close_connection.
    destruct (connections_by_shard_ p !! slot_index (conn_shard_id c)) as [s|];
      [|discriminate].
    simpl. rewrite bool_decide_eq_false_2 by assumption. simpl. intros [= <-].
    match goal with |- context [maybe_closed ?q] =>
      destruct (maybe_closed_moves q) as (Hn & Hm);
      destruct (same_data_maybe_closed q) as (_ & _ & _ & Hq & _) end.
    rewrite Hn, Hq. simpl in *. auto.
  - unfold on_reconnect. simpl.
    destruct (reconnection_schedules_ p !! connector_id k) as [schedule|]; [|discriminate].
    rewrite bool_decide_eq_false_2 by assumption. simpl. intros [= <-].
    match goal with |- context [maybe_closed ?q] =>
      destruct (maybe_closed_moves q) as (Hn & Hm);
      destruct (same_data_maybe_closed q) as (_ & _ & _ & Hq & _) end.
    rewrite Hn, Hq. simpl in *.
    split; [reflexivity|]. split; [apply sublist_filter; apply _|exact Hm].
Qed.

Lemma exec_quiet ops : forall p p',
  close_state_ p <> CLOSE_STATE_OPEN ->
  exec ops p = Ok p' ->
  notify_state_ p' = notify_state_ p /\
  sublist (pending_connections_ p') (pending_connections_ p) /\
  ((close_state_ p' = close_state_ p /\ trace p' = trace p) \/
   (close_state_ p = CLOSE_STATE_WAITING_FOR_CONNECTIONS /\
    close_state_ p' = CLOSE_STATE_CLOSED /\
    trace p' = trace p ++ closing_tail (notify_state_ p))).
Proof.
  induction ops as [|o ops IH]; intros p p' Hp; unfold exec; simpl.
  - intros [= <-]. auto.
  - destruct (run_op p o) as [q|] eqn:E; simpl; [|discriminate].
    intros H. destruct (run_op_quiet _ _ _ Hp E) as (Hn & Hs & Hm).
    assert (Hq : close_state_ q <> CLOSE_STATE_OPEN)
      by (destruct Hm as [[-> _]|(_ & -> & _)]; [assumption|discriminate]).
    destruct (IH _ _ Hq H) as (Hn' & Hs' & Hm').
    rewrite Hn', Hn. split; [reflexivity|].
    split; [etransitivity; eassumption|].
    destruct Hm as [[Hc Ht]|(Hc1 & Hc2 & Ht)].
    + rewrite Hc, Ht, Hn in Hm'. exact Hm'.
    + right. destruct Hm' as [[Hc' Ht']|(Hc' & _)]; [|congruence].
      rewrite Hc', Ht'. auto.
Qed.

End ClosingPool.

(** X15.  Once a pool is no longer open, no call makes it start a connection
    attempt, close a connection or cancel a connector, none adds a pending
    connector, and none changes the notify state: all the pool still does
    towards its collaborators is to report, once, that it is down if it was
    up and that it has closed, when it leaves WAITING_FOR_CONNECTIONS; a
    closed pool is silent. *)
Theorem closing_pool_only_reports_its_close
  (p : ConnectionPool) (ops : list op) (p' : ConnectionPool) :
  close_state_ p <> CLOSE_STATE_OPEN ->
  exec ops p = Ok p' ->
  close_state_ p' <> CLOSE_STATE_OPEN /\
  notify_state_ p' = notify_state_ p /\
  sublist (pending_connections_ p') (pending_connections_ p) /\
  (exists es,
     trace p' = trace p ++ es /\
     (es = [] \/ es = closing_tail (notify_state_ p)) /\
     (es <> [] <->
      close_state_ p = CLOSE_STATE_WAITING_FOR_CONNECTIONS /\
      close_state_ p' = CLOSE_STATE_CLOSED)) /\
  (close_state_ p = CLOSE_STATE_CLOSED ->
   close_state_ p' = CLOSE_STATE_CLOSED /\ trace p' = trace p).
Proof.
  intros Hp Hexec.
  destruct (exec_quiet ops p p' Hp Hexec) as (Hn & Hs & [[Hc Ht]|(Hc1 & Hc2 & Ht)]).
  - split; [now rewrite Hc|]. split; [exact Hn|]. split; [exact Hs|]. split.
    + exists []. split; [now rewrite app_nil_r|]. split; [now left|].
      split; [intros H; now contradiction H|].
      intros (H1 & H2). congruence.
    + intros H. split; [congruence|exact Ht].
  - split; [rewrite Hc2; discriminate|]. split; [exact Hn|]. split; [exact Hs|]. split.
    + exists (closing_tail (notify_state_ p)). split; [exact Ht|]. split; [now right|].
      split; [auto|]. intros _. unfold closing_tail.
      destruct (bool_decide _); discriminate.
    + intros H. congruence.
Qed.

Lemma closing_pool_only_reports_its_close_witness :
  exists p',
    exec [CloseConnection busy_on_shard_0; CloseConnection idle_on_shard_1; Close]
      (close sample_pool) = Ok p' /\
    close_state_ p' <> CLOSE_STATE_OPEN /\
    notify_state_ p' = notify_state_ (close sample_pool).
Proof.
  eexists. split; [vm_compute; reflexivity|].
  match goal with |- close_state_ ?p' <> _ /\ _ =>
    destruct (closing_pool_only_reports_its_close (close sample_pool)
                [CloseConnection busy_on_shard_0; CloseConnection idle_on_shard_1; Close]
                p') as (H1 & H2 & _) end.
  - vm_compute. discriminate.
  - vm_compute. reflexivity.
  - split; [exact H1|exact H2].
Defined.

(** ** The end of the close protocol *)

Section Teardown.

Implicit Types (p q : ConnectionPool).

Lemma settled_maybe_closed q :
  close_state_ q = CLOSE_STATE_WAITING_FOR_CONNECTIONS \/
  close_state_ q = CLOSE_STATE_CLOSED ->
  settled (maybe_closed q).
Proof.
  intros Hq. destruct (terminal_dec q) as [T|T].
  - left. now destruct (maybe_closed_terminal q T) as (H & _).
  - rewrite maybe_closed_not_terminal by assumption.
    destruct Hq as [Hq|Hq]; [right|left]; auto.
Qed.

Lemma settled_not_open p : settled p ->
  close_state_ p <> CLOSE_STATE_OPEN /\
  (close_state_ p = CLOSE_STATE_WAITING_FOR_CONNECTIONS \/
   close_state_ p = CLOSE_STATE_CLOSED).
Proof. intros [H|[H _]]; rewrite H; split; auto; discriminate. Qed.

Lemma close_connection_not_open c p s :
  close_state_ p <> CLOSE_STATE_OPEN ->
  connections_by_shard_ p !! slot_index (conn_shard_id c) = Some s ->
  close_connection c p
  = Ok (maybe_closed
          (set_connections p
             (<[slot_index (conn_shard_id c) := remove_connection c s]>
                (connections_by_shard_ p)))).
Proof.
  intros Hp Hs. unfold close_connection. rewrite Hs. simpl.
  now rewrite bool_decide_eq_false_2 by assumption.
Qed.

Lemma on_reconnect_not_open k p schedule :
  close_state_ p <> CLOSE_STATE_OPEN ->
  reconnection_schedules_ p !! connector_id k = Some schedule ->
  on_reconnect k p
  = Ok (maybe_closed
          (set_schedules (set_pending p (remove_connector k (pending_connections_ p)))
             (delete (connector_id k) (reconnection_schedules_ p)))).
Proof.
  intros Hp Hs. unfold on_reconnect. simpl. rewrite Hs. simpl.
  now rewrite bool_decide_eq_false_2 by assumption.
Qed.

Lemma no_connections p :
  (forall i s (c : PooledConnection), connections_by_shard_ p !! i = Some s -> c ∉ s) ->
  has_connections p = false.
Proof.
  intros H. unfold has_connections.
  destruct (existsb _ _) eqn:E; [exfalso|reflexivity].
  apply existsb_exists in E as (s & Hin & Hlen).
  apply list_elem_of_In, list_elem_of_lookup in Hin as [i Hi].
  destruct s as [|c s]; [discriminate|].
  apply (H i _ c Hi). constructor.
Qed.

Lemma teardown ops : forall p,
  settled p -> schedules_owned p -> answers ops p ->
  exists p', exec ops p = Ok p' /\
             close_state_ p' = CLOSE_STATE_CLOSED /\
             has_connections p' = false /\
             pending_connections_ p' = [].
Proof.
  induction ops as [|o ops IH]; intros p Hset Hown (A1 & A2 & A3 & A4).
  - exists p. split; [reflexivity|].
    assert (Hc : has_connections p = false).
    { apply no_connections. intros i s c Hi Hc.
      destruct (A1 i s c Hi Hc) as (c' & Hin & _). now apply elem_of_nil in Hin. }
    assert (Hp : pending_connections_ p = []).
    { destruct (pending_connections_ p) as [|k l]; [reflexivity|].
      exfalso. eapply elem_of_nil. apply (A4 (connector_id k)). simpl. constructor. }
    split; [|auto].
    destruct Hset as [H|[H T]]; [assumption|].
    exfalso. apply T. repeat split; assumption.
  - destruct (settled_not_open p Hset) as (Hno & Hwc).
    unfold exec. simpl. destruct o as [|c0|k0]; simpl.
    + rewrite internal_close_not_open by assumption. simpl.
      apply IH; [assumption|assumption|].
      split; [|split; [|split]].
      * intros i s c Hi Hc. destruct (A1 i s c Hi Hc) as (c' & Hin & E).
        exists c'. split; [|exact E].
        apply elem_of_cons in Hin as [Hin|Hin]; [discriminate|assumption].
      * intros c' Hin. apply A2. now right.
      * exact A3.
      * exact A4.
    + assert (Hs : is_Some (connections_by_shard_ p !! slot_index (conn_shard_id c0)))
        by (apply lookup_lt_is_Some, A2; constructor).
      destruct Hs as [s0 Hs0].
      pose proof (close_connection_not_open c0 p s0 Hno Hs0) as E.
      rewrite E. simpl.
      pose proof (schedules_owned_close_connection _ _ _ E Hown) as Hown'.
      set (q := set_connections p _) in *.
      destruct (same_data_maybe_closed q) as (_ & Dc & _ & Dp & _).
      apply IH; [now apply settled_maybe_closed|assumption|].
      unfold answers. rewrite Dc, Dp. simpl.
      split; [|split; [|split]].
      * intros i s c Hi Hc.
        destruct (decide (i = slot_index (conn_shard_id c0))) as [->|Hne].
        -- rewrite list_lookup_insert_eq in Hi by (eapply lookup_lt_Some; eassumption).
           injection Hi as <-. apply list_elem_of_filter in Hc as [Hid Hc].
           destruct (A1 _ _ c Hs0 Hc) as (c' & Hin & E1 & E2).
           exists c'. split; [|auto].
           apply elem_of_cons in Hin as [Hin|Hin]; [|assumption].
           injection Hin as ->. congruence.
        -- rewrite list_lookup_insert_ne in Hi by congruence.
           destruct (A1 _ _ c Hi Hc) as (c' & Hin & E1 & E2).
           exists c'. split; [|auto].
           apply elem_of_cons in Hin as [Hin|Hin]; [|assumption].
           injection Hin as ->. congruence.
      * intros c' Hin. rewrite length_insert. apply A2. now right.
      * exact A3.
      * exact A4.
    + simpl in A3, A4. apply NoDup_cons in A3 as (Hfresh & A3).
      assert (Hs : is_Some (reconnection_schedules_ p !! connector_id k0)).
      { destruct Hown as ((_ & Hall) & _).
        assert (Hin : connector_id k0 ∈ map connector_id (pending_connections_ p))
          by (apply A4; constructor).
        apply list_elem_of_fmap in Hin as (x & -> & Hx). now apply Hall. }
      destruct Hs as [schedule Hs].
      pose proof (on_reconnect_not_open k0 p schedule Hno Hs) as E.
      rewrite E. simpl.
      pose proof (schedules_owned_on_reconnect _ _ _ E Hown) as Hown'.
      set (q := set_schedules _ _) in *.
      destruct (same_data_maybe_closed q) as (_ & Dc & _ & Dp & _).
      apply IH; [now apply settled_maybe_closed|assumption|].
      unfold answers. rewrite Dc, Dp. simpl.
      split; [|split; [|split]].
      * intros i s c Hi Hc. destruct (A1 i s c Hi Hc) as (c' & Hin & E').
        exists c'. split; [|exact E'].
        apply elem_of_cons in Hin as [Hin|Hin]; [discriminate|assumption].
      * intros c' Hin. apply A2. now right.
      * exact A3.
      * intros id. split.
        -- intros Hid.
           assert (Hin : id ∈ map connector_id (pending_connections_ p))
             by (apply A4; now right).
           apply list_elem_of_fmap in Hin as (x & -> & Hx).
           apply list_elem_of_fmap. exists x. split; [reflexivity|].
           apply list_elem_of_filter. split; [|assumption].
           intros Heq. apply Hfresh. now rewrite <- Heq.
        -- intros Hid. apply list_elem_of_fmap in Hid as (x & -> & Hx).
           apply list_elem_of_filter in Hx as (Hne & Hx).
           assert (Hin : connector_id x ∈ connector_id k0 :: reported ops).
           { apply A4, list_elem_of_fmap. eauto. }
           apply elem_of_cons in Hin as [Hin|Hin]; [contradiction|assumption].
Qed.

Lemma reported_app a b : reported (a ++ b) = reported a ++ reported b.
Proof. apply flat_map_app. Qed.

Lemma reported_closures l : reported (map CloseConnection l) = [].
Proof. induction l as [|c l IH]; simpl; [reflexivity|exact IH]. Qed.

Lemma reported_cancellations l : reported (cancellations l) = map connector_id l.
Proof.
  induction l as [|k l IH]; simpl; [reflexivity|]. f_equal. exact IH.
Qed.

Lemma elem_of_concat_slot (slots : list (list PooledConnection)) c :
  c ∈ concat slots -> exists i slot, slots !! i = Some slot /\ c ∈ slot.
Proof.
  intros H. apply list_elem_of_In, in_concat in H as (slot & Hs & Hc).
  apply list_elem_of_In, list_elem_of_lookup in Hs as [i Hi].
  exists i, slot. split; [assumption|now apply list_elem_of_In].
Qed.

(** After [close()] on an open pool, the reports of its connections and of
    its connectors, in any order, are what the pool is waiting for. *)
Lemma answers_close p ops :
  close_state_ p = CLOSE_STATE_OPEN ->
  pending_scheduled p ->
  slots_by_shard p ->
  ops ≡ₚ map CloseConnection (concat (connections_by_shard_ p))
         ++ cancellations (pending_connections_ p) ->
  answers ops (close p).
Proof.
  intros Hopen (Hnd & _) Hby Hperm. unfold close.
  rewrite internal_close_open by assumption.
  destruct (same_data_maybe_closed (waiting_for_connections p))
    as (_ & Dc & _ & Dp & _).
  destruct (waiting_for_connections_spec p) as (_ & _ & _ & Wc & Wp & _).
  unfold answers. rewrite Dc, Dp, Wc, Wp. clear Dc Dp Wc Wp.
  split; [|split; [|split]].
  - intros i s c Hi Hc. rewrite lookup_map in Hi.
    destruct (connections_by_shard_ p !! i) as [s0|] eqn:Hs0; [|discriminate].
    injection Hi as <-. apply elem_of_map in Hc as (x & -> & Hx).
    exists x. split; [|split; [reflexivity|eapply Hby; eassumption]].
    rewrite Hperm. apply elem_of_app. left.
    apply list_elem_of_fmap. exists x. split; [reflexivity|].
    eapply elem_of_slot; eassumption.
  - intros c' Hin. rewrite Hperm in Hin. rewrite length_map.
    apply elem_of_app in Hin as [Hin|Hin].
    + apply list_elem_of_fmap in Hin as (x & [= ->] & Hx).
      apply elem_of_concat_slot in Hx as (i & slot & Hi & Hx).
      rewrite (Hby _ _ _ Hi Hx). eapply lookup_lt_Some; eassumption.
    + apply list_elem_of_fmap in Hin as (x & Heq & _). discriminate.
  - unfold reported. rewrite Hperm. fold (reported (map CloseConnection
      (concat (connections_by_shard_ p)) ++ cancellations (pending_connections_ p))).
    now rewrite reported_app, reported_closures, reported_cancellations.
  - intros id. unfold reported. rewrite Hperm.
    fold (reported (map CloseConnection
      (concat (connections_by_shard_ p)) ++ cancellations (pending_connections_ p))).
    now rewrite reported_app, reported_closures, reported_cancellations.
Qed.

End Teardown.

(** X16.  The close protocol completes.  When [close()] is called on an open
    pool that the constructor and any calls have produced, and afterwards
    every connection of the pool reports its teardown and every pending
    connector its cancellation, in whatever order, the pool ends up CLOSED
    and empty, and it has closed each connection, canceled each connector
    and then told the listener, once, that it is down if it was up and that
    it has closed. *)
Theorem close_completes_in_any_order
  (connections : list PooledConnection) (si : option ShardingInfo) (n : Z)
  (p0 : ConnectionPool) (before : list op) (p : ConnectionPool) (ops : list op) :
  ConnectionPool_new connections si n = Ok p0 ->
  exec before p0 = Ok p ->
  close_state_ p = CLOSE_STATE_OPEN ->
  ops ≡ₚ map CloseConnection (concat (connections_by_shard_ p))
         ++ cancellations (pending_connections_ p) ->
  exists p',
    exec (Close :: ops) p = Ok p' /\
    close_state_ p' = CLOSE_STATE_CLOSED /\
    has_connections p' = false /\
    pending_connections_ p' = [] /\
    trace p'
    = trace p
      ++ map (fun c => ConnClose (conn_id c)) (concat (connections_by_shard_ p))
      ++ map (fun k => ConnectorCancel (connector_id k)) (pending_connections_ p)
      ++ closing_tail (notify_state_ p).
Proof.
  intros Hnew Hexec Hopen Hperm.
  pose proof (schedules_owned_exec _ _ _ Hexec
                (schedules_owned_ConnectionPool_new _ _ _ _ Hnew)) as Hown.
  pose proof (shaped_exec _ _ _ _ _ Hexec (shaped_ConnectionPool_new _ _ _ _ Hnew))
    as (_ & _ & _ & Hby).
  pose proof (answers_close p ops Hopen (proj1 Hown) Hby Hperm) as Hans.
  assert (Hown1 : schedules_owned (close p)) by now apply schedules_owned_internal_close.
  assert (Hclose : close p = maybe_closed (waiting_for_connections p))
    by now apply internal_close_open.
  destruct (waiting_for_connections_spec p) as (_ & Ww & Wt & _ & _ & Wn & _).
  assert (Hset : settled (close p))
    by (rewrite Hclose; apply settled_maybe_closed; now left).
  destruct (teardown ops (close p) Hset Hown1 Hans) as (p' & E & Hc & Hh & Hp).
  exists p'. split; [unfold exec; simpl; exact E|].
  split; [exact Hc|]. split; [exact Hh|]. split; [exact Hp|].
  destruct (settled_not_open _ Hset) as (Hno & _).
  destruct (exec_quiet ops _ _ Hno E) as (_ & _ & Hm).
  destruct (maybe_closed_moves (waiting_for_connections p)) as (Hn & Hw).
  rewrite <- Hclose in Hn, Hw. rewrite Wn in Hn. rewrite Wn, Wt in Hw.
  destruct Hw as [[Hw1 Hw2]|(_ & Hw1 & Hw2)].
  - rewrite Ww in Hw1.
    destruct Hm as [[Hm1 _]|(_ & _ & Hm2)]; [congruence|].
    rewrite Hm2, Hw2, Hn, <- !app_assoc. reflexivity.
  - destruct Hm as [[_ Hm2]|(Hm1 & _)]; [|congruence].
    rewrite Hm2, Hw2, <- !app_assoc. reflexivity.
Qed.

Lemma close_completes_in_any_order_witness :
  exists p0 p p',
    ConnectionPool_new [busy_on_shard_0] (Some (sharding 2 12)) 2 = Ok p0 /\
    exec [] p0 = Ok p /\
    exec [Close; OnReconnect (canceled first_connector); CloseConnection busy_on_shard_0] p
    = Ok p' /\
    close_state_ p' = CLOSE_STATE_CLOSED /\
    trace p' = trace p ++ [ConnClose 1; ConnectorCancel 0; OnPoolDown; OnClose].
Proof.
  do 2 eexists.
  destruct (close_completes_in_any_order [busy_on_shard_0] (Some (sharding 2 12)) 2
              _ [] _
              [OnReconnect (canceled first_connector); CloseConnection busy_on_shard_0]
              eq_refl eq_refl eq_refl) as (p' & H1 & H2 & _ & _ & H3).
  - vm_compute. apply perm_swap.
  - exists p'. split; [reflexivity|]. split; [reflexivity|].
    split; [exact H1|]. split; [exact H2|exact H3].
Defined.

(** ** What the listener of an open pool knows *)

Section Informed.

Implicit Types (p q : ConnectionPool).

Lemma told_ext p q :
  notify_state_ q = notify_state_ p ->
  connections_by_shard_ q = connections_by_shard_ p ->
  told p -> told q.
Proof.
  unfold told. intros -> Hc. now rewrite (has_connections_ext p q Hc).
Qed.

Lemma told_notify_up_or_down p :
  notify_state_ p <> NOTIFY_STATE_CRITICAL -> told (notify_up_or_down p).
Proof.
  intros Hn. unfold told.
  rewrite (has_connections_ext p (notify_up_or_down p))
    by apply same_data_notify_up_or_down.
  unfold notify_up_or_down.
  destruct (notify_state_ p) eqn:En, (has_connections p) eqn:Eh; simpl;
    rewrite ?En; auto; contradiction.
Qed.

Lemma told_not_critical p : told p -> notify_state_ p <> NOTIFY_STATE_CRITICAL.
Proof. intros [[H _]|[H _]]; rewrite H; discriminate. Qed.

Lemma notify_state_schedule_reconnect schedule desired p :
  notify_state_ (schedule_reconnect schedule desired p) = notify_state_ p.
Proof. unfold schedule_reconnect. now destruct schedule. Qed.

Lemma told_schedule_reconnect schedule desired p :
  told p -> told (schedule_reconnect schedule desired p).
Proof.
  apply told_ext; [apply notify_state_schedule_reconnect|].
  apply connections_schedule_reconnect.
Qed.

Lemma informed_not_open p : close_state_ p <> CLOSE_STATE_OPEN -> informed p.
Proof. intros H H'. contradiction. Qed.

Lemma informed_run_op o p p' :
  run_op p o = Ok p' -> informed p -> informed p'.
Proof.
  intros H Hp.
  destruct (decide (close_state_ p = CLOSE_STATE_OPEN)) as [Hopen|Hno].
  2:{ apply informed_not_open.
      destruct (run_op_quiet _ _ _ Hno H) as (_ & _ & [[-> _]|(_ & -> & _)]);
        [assumption|discriminate]. }
  specialize (Hp Hopen). pose proof (told_not_critical _ Hp) as Hnc.
  destruct o as [|c|k]; simpl in H.
  - injection H as <-. apply informed_not_open, close_state_internal_close.
  - revert H. unfold close_connection.
    destruct (connections_by_shard_ p !! slot_index (conn_shard_id c)) as [s|];
      [|discriminate].
    simpl. rewrite Hopen. simpl. intros [= <-] _.
    apply told_schedule_reconnect, told_notify_up_or_down. exact Hnc.
  - revert H. unfold on_reconnect. simpl.
    destruct (reconnection_schedules_ p !! connector_id k) as [schedule|]; [|discriminate].
    rewrite Hopen. simpl.
    destruct (is_ok k).
    + destruct (_ && _).
      * unfold add_connection. simpl.
        destruct (connections_by_shard_ p !! _) as [s|]; simpl; [|discriminate].
        intros [= <-] _. apply told_notify_up_or_down. exact Hnc.
      * intros [= <-] _. apply told_schedule_reconnect.
        eapply told_ext; [| |exact Hp]; reflexivity.
    + destruct (negb (is_canceled k)).
      * destruct (is_critical_error k); intros [= <-].
        -- apply informed_not_open, close_state_internal_close.
        -- intros _. apply told_schedule_reconnect.
           eapply told_ext; [| |exact Hp]; reflexivity.
      * intros [= <-] _. eapply told_ext; [| |exact Hp]; reflexivity.
Qed.

Lemma told_ConnectionPool_new connections si n p0 :
  ConnectionPool_new connections si n = Ok p0 -> told p0.
Proof.
  intros H. apply ConnectionPool_new_shape in H as (p1 & Hfold & ->).
  apply (reconnect_missing_keeps told).
  { intros. now apply told_schedule_reconnect. }
  apply told_notify_up_or_down.
  assert (Hn : notify_state_ p1 = NOTIFY_STATE_NEW).
  { eapply (foldM_keeps place_connection
              (fun p => notify_state_ p = NOTIFY_STATE_NEW)); [|exact Hfold|reflexivity].
    intros s a s'. unfold place_connection, add_connection.
    destruct (is_closing a); simpl; [now intros [= <-]|].
    destruct (connections_by_shard_ s !! slot_index (conn_shard_id a)); [|discriminate].
    destruct (_ <? _); now intros [= <-]. }
  rewrite Hn. discriminate.
Qed.

End Informed.

(** X17.  The listener of an open pool is kept informed: whatever calls
    follow the construction, as long as the pool is open its notify state is
    UP when it holds a connection and DOWN when it holds none, and never NEW
    or CRITICAL. *)
Theorem open_pool_has_informed_its_listener
  (connections : list PooledConnection) (si : option ShardingInfo) (n : Z)
  (p0 : ConnectionPool) (ops : list op) (p : ConnectionPool) :
  ConnectionPool_new connections si n = Ok p0 ->
  exec ops p0 = Ok p ->
  close_state_ p = CLOSE_STATE_OPEN ->
  (notify_state_ p = NOTIFY_STATE_UP /\ has_connections p = true) \/
  (notify_state_ p = NOTIFY_STATE_DOWN /\ has_connections p = false).
Proof.
  intros Hnew Hexec.
  apply (foldM_keeps run_op informed) with (l := ops) (s := p0); [|exact Hexec|].
  - intros s a s' H. eapply informed_run_op; eassumption.
  - intros _. eapply told_ConnectionPool_new; eassumption.
Qed.

Lemma open_pool_has_informed_its_listener_witness :
  exists p0 p,
    ConnectionPool_new [busy_on_shard_0] (Some (sharding 2 12)) 2 = Ok p0 /\
    exec [CloseConnection busy_on_shard_0] p0 = Ok p /\
    ((notify_state_ p = NOTIFY_STATE_UP /\ has_connections p = true) \/
     (notify_state_ p = NOTIFY_STATE_DOWN /\ has_connections p = false)).
Proof.
  do 2 eexists. split; [vm_compute; reflexivity|].
  split; [vm_compute; reflexivity|].
  eapply (open_pool_has_informed_its_listener [busy_on_shard_0]
            (Some (sharding 2 12)) 2 _ [CloseConnection busy_on_shard_0]).
  - vm_compute. reflexivity.
  - vm_compute. reflexivity.
  - vm_compute. reflexivity.
Defined.

(** ** UP and DOWN take turns *)

Section InTurns.

Implicit Types (p q : ConnectionPool).

Lemma alternates_snoc l e :
  alternates l -> last l <> Some e -> alternates (l ++ [e]).
Proof.
  intros Hl Hlast l1 a b l2 E.
  induction l2 as [|e' l2' _] using rev_ind.
  - replace (l1 ++ [a; b]) with ((l1 ++ [a]) ++ [b]) in E
      by now rewrite <- app_assoc.
    apply app_inj_tail in E as (-> & ->).
    rewrite last_snoc in Hlast. congruence.
  - replace (l1 ++ a :: b :: l2' ++ [e']) with ((l1 ++ a :: b :: l2') ++ [e']) in E
      by now rewrite <- app_assoc.
    apply app_inj_tail in E as (-> & _). eapply Hl. reflexivity.
Qed.

Lemma alternates_nil : alternates [].
Proof. intros [|x l1] a b l2 E; discriminate. Qed.

Lemma updown_emit p es :
  updown (emit p es) = updown p ++ List.filter is_up_or_down es.
Proof. unfold updown. simpl. apply List.filter_app. Qed.

Lemma in_turns_ext p q :
  close_state_ q = close_state_ p ->
  notify_state_ q = notify_state_ p ->
  updown q = updown p ->
  in_turns p -> in_turns q.
Proof. unfold in_turns, last_heard. now intros -> -> ->. Qed.

Lemma notify_up_or_down_cases p :
  notify_up_or_down p = p \/
  ((notify_state_ p = NOTIFY_STATE_NEW \/ notify_state_ p = NOTIFY_STATE_UP) /\
   notify_up_or_down p = emit (set_notify_state p NOTIFY_STATE_DOWN) [OnPoolDown]) \/
  ((notify_state_ p = NOTIFY_STATE_NEW \/ notify_state_ p = NOTIFY_STATE_DOWN) /\
   notify_up_or_down p = emit (set_notify_state p NOTIFY_STATE_UP) [OnPoolUp]).
Proof.
  unfold notify_up_or_down.
  destruct (notify_state_ p), (has_connections p); simpl; auto.
Qed.

Lemma in_turns_notify_up_or_down p :
  close_state_ p <> CLOSE_STATE_CLOSED ->
  in_turns p -> in_turns (notify_up_or_down p).
Proof.
  intros Hc (Ha & Hl). unfold last_heard in Hl.
  rewrite bool_decide_eq_false_2 in Hl by assumption.
  destruct (notify_up_or_down_cases p) as [->|[(Hn & ->)|(Hn & ->)]].
  - split; [assumption|]. unfold last_heard.
    now rewrite bool_decide_eq_false_2 by assumption.
  - unfold in_turns, last_heard, updown in *. simpl.
    rewrite List.filter_app. simpl. split; [|apply last_snoc].
    apply alternates_snoc; [assumption|].
    destruct Hn as [Hn|Hn]; rewrite Hn in Hl; rewrite Hl; discriminate.
  - unfold in_turns, last_heard, updown in *. simpl.
    rewrite List.filter_app. simpl.
    rewrite bool_decide_eq_false_2 by assumption. split; [|apply last_snoc].
    apply alternates_snoc; [assumption|].
    destruct Hn as [Hn|Hn]; rewrite Hn in Hl; rewrite Hl; discriminate.
Qed.

Lemma in_turns_maybe_closed p : in_turns p -> in_turns (maybe_closed p).
Proof.
  intros (Ha & Hl). unfold in_turns, last_heard in *. unfold maybe_closed.
  destruct (bool_decide_reflect (close_state_ p = CLOSE_STATE_WAITING_FOR_CONNECTIONS))
    as [Hw|]; simpl; [|now auto].
  destruct (negb (has_connections p)); simpl; [|now auto].
  destruct (bool_decide (pending_connections_ p = [])); simpl; [|now auto].
  rewrite Hw in Hl. simpl in Hl. unfold updown in *.
  destruct (bool_decide_reflect (notify_state_ p = NOTIFY_STATE_UP)) as [Hu|Hu]; simpl.
  - rewrite Hu in *. simpl. rewrite !List.filter_app. simpl.
    rewrite app_nil_r, last_snoc. split; [|reflexivity].
    apply alternates_snoc; [assumption|]. rewrite Hl. congruence.
  - rewrite List.filter_app. simpl. rewrite app_nil_r. split; [assumption|].
    destruct (notify_state_ p); auto. contradiction.
Qed.

Lemma in_turns_notify_critical_error code message p :
  in_turns p -> in_turns (notify_critical_error code message p).
Proof.
  intros (Ha & Hl). unfold notify_critical_error.
  destruct (bool_decide_reflect (notify_state_ p = NOTIFY_STATE_CRITICAL)); simpl;
    [now split|].
  split; [|exact I]. unfold updown. simpl.
  rewrite List.filter_app. simpl. now rewrite app_nil_r.
Qed.

Lemma updown_schedule_reconnect schedule desired p :
  updown (schedule_reconnect schedule desired p) = updown p.
Proof.
  unfold schedule_reconnect, updown. destruct schedule; simpl;
    rewrite List.filter_app; simpl; apply app_nil_r.
Qed.

Lemma in_turns_schedule_reconnect schedule desired p :
  in_turns p -> in_turns (schedule_reconnect schedule desired p).
Proof.
  apply in_turns_ext.
  - apply close_state_schedule_reconnect.
  - apply notify_state_schedule_reconnect.
  - apply updown_schedule_reconnect.
Qed.

Lemma updown_quiet (es : list event) :
  Forall (fun e => is_up_or_down e = false) es -> List.filter is_up_or_down es = [].
Proof.
  induction 1 as [|e es He _ IH]; simpl; [reflexivity|]. now rewrite He.
Qed.

Lemma in_turns_internal_close p : in_turns p -> in_turns (internal_close p).
Proof.
  intros Hp. unfold internal_close.
  destruct (bool_decide_reflect (close_state_ p = CLOSE_STATE_OPEN)) as [Ho|];
    [|assumption].
  apply in_turns_maybe_closed.
  destruct Hp as (Ha & Hl). unfold in_turns, last_heard in *.
  rewrite Ho in Hl. simpl in *.
  assert (E : updown (set_close_state
                        (cancel_connectors
                           (close_connections (set_close_state p CLOSE_STATE_CLOSING)))
                        CLOSE_STATE_WAITING_FOR_CONNECTIONS)
              = updown p).
  { unfold updown. simpl. rewrite !List.filter_app.
    rewrite (updown_quiet (map _ (concat _))), (updown_quiet (map _ (pending_connections_ p))).
    - now rewrite !app_nil_r.
    - apply Forall_map, Forall_forall. reflexivity.
    - apply Forall_map, Forall_forall. reflexivity. }
  rewrite E. split; assumption.
Qed.

Lemma in_turns_run_op o p p' : run_op p o = Ok p' -> in_turns p -> in_turns p'.
Proof.
  destruct o as [|c|k]; simpl.
  - intros [= <-]. apply in_turns_internal_close.
  - unfold close_connection.
    destruct (connections_by_shard_ p !! slot_index (conn_shard_id c)) as [s|];
      [|discriminate].
    simpl. intros H Hp.
    destruct (bool_decide_reflect (close_state_ p = CLOSE_STATE_OPEN)) as [Ho|Ho];
      simpl in H; injection H as <-.
    + apply in_turns_schedule_reconnect, in_turns_notify_up_or_down.
      * simpl. rewrite Ho. discriminate.
      * eapply in_turns_ext; [| | |exact Hp]; reflexivity.
    + apply in_turns_maybe_closed.
      eapply in_turns_ext; [| | |exact Hp]; reflexivity.
  - unfold on_reconnect. simpl.
    destruct (reconnection_schedules_ p !! connector_id k) as [schedule|]; [|discriminate].
    intros H Hp.
    destruct (bool_decide_reflect (close_state_ p = CLOSE_STATE_OPEN)) as [Ho|Ho];
      simpl in H.
    2:{ injection H as <-. apply in_turns_maybe_closed.
        eapply in_turns_ext; [| | |exact Hp]; reflexivity. }
    revert H. destruct (is_ok k).
    + destruct (_ && _).
      * unfold add_connection. simpl.
        destruct (connections_by_shard_ p !! _) as [s|]; simpl; [|discriminate].
        intros [= <-]. apply in_turns_notify_up_or_down.
        -- simpl. rewrite Ho. discriminate.
        -- eapply in_turns_ext; [| | |exact Hp]; reflexivity.
      * intros [= <-]. apply in_turns_schedule_reconnect.
        eapply in_turns_ext; [| | |exact Hp]; try reflexivity.
        unfold updown. simpl. rewrite List.filter_app. simpl. apply app_nil_r.
    + destruct (negb (is_canceled k)).
      * destruct (is_critical_error k); intros [= <-].
        -- apply in_turns_internal_close, in_turns_notify_critical_error.
           eapply in_turns_ext; [| | |exact Hp]; reflexivity.
        -- apply in_turns_schedule_reconnect.
           eapply in_turns_ext; [| | |exact Hp]; reflexivity.
      * intros [= <-]. eapply in_turns_ext; [| | |exact Hp]; reflexivity.
Qed.

Lemma place_connection_view p c p' :
  place_connection p c = Ok p' ->
  close_state_ p' = close_state_ p /\
  notify_state_ p' = notify_state_ p /\
  updown p' = updown p.
Proof.
  unfold place_connection, add_connection.
  destruct (is_closing c); simpl; [now intros [= <-]|].
  destruct (connections_by_shard_ p !! slot_index (conn_shard_id c)); [|discriminate].
  destruct (_ <? _); intros [= <-]; repeat split.
  unfold updown. simpl. rewrite List.filter_app. simpl. apply app_nil_r.
Qed.

Lemma in_turns_ConnectionPool_new connections si n p0 :
  ConnectionPool_new connections si n = Ok p0 -> in_turns p0.
Proof.
  intros H. apply ConnectionPool_new_shape in H as (p1 & Hfold & ->).
  apply (reconnect_missing_keeps in_turns).
  { intros. now apply in_turns_schedule_reconnect. }
  assert (Hp1 : in_turns p1 /\ close_state_ p1 = CLOSE_STATE_OPEN).
  { eapply (foldM_keeps place_connection
              (fun p => in_turns p /\ close_state_ p = CLOSE_STATE_OPEN));
      [|exact Hfold|].
    - intros s a s' E (Hs & Ho).
      apply place_connection_view in E as (E1 & E2 & E3).
      split; [now apply (in_turns_ext s)|congruence].
    - split; [|reflexivity]. split; [apply alternates_nil|reflexivity]. }
  destruct Hp1 as (Hp1 & Ho).
  apply in_turns_notify_up_or_down; [rewrite Ho; discriminate|assumption].
Qed.

End InTurns.

(** X18.  UP and DOWN take turns.  Whatever calls follow the construction,
    the listener never hears [on_pool_up] twice in a row nor [on_pool_down]
    twice in a row, and the last of the two it heard is the notify state of
    the pool, except that a pool that closed while UP has reported DOWN and
    kept its state. *)
Theorem up_and_down_take_turns
  (connections : list PooledConnection) (si : option ShardingInfo) (n : Z)
  (p0 : ConnectionPool) (ops : list op) (p : ConnectionPool) :
  ConnectionPool_new connections si n = Ok p0 ->
  exec ops p0 = Ok p ->
  (forall l1 a b l2, updown p = l1 ++ a :: b :: l2 -> a <> b) /\
  (notify_state_ p = NOTIFY_STATE_DOWN -> last (updown p) = Some OnPoolDown) /\
  (notify_state_ p = NOTIFY_STATE_UP ->
   last (updown p)
   = Some (if bool_decide (close_state_ p = CLOSE_STATE_CLOSED)
           then OnPoolDown else OnPoolUp)).
Proof.
  intros Hnew Hexec.
  assert (H : in_turns p).
  { apply (foldM_keeps run_op in_turns) with (l := ops) (s := p0); [|exact Hexec|].
    - intros s a s' E. eapply in_turns_run_op; eassumption.
    - eapply in_turns_ConnectionPool_new; eassumption. }
  destruct H as (Ha & Hl). unfold last_heard in Hl.
  split; [exact Ha|]. split; intros E; now rewrite E in Hl.
Qed.

Lemma up_and_down_take_turns_witness :
  exists p0 p,
    ConnectionPool_new [busy_on_shard_0] (Some (sharding 2 12)) 2 = Ok p0 /\
    exec [CloseConnection busy_on_shard_0;
          OnReconnect (connected busy_on_shard_0 first_connector);
          Close; CloseConnection busy_on_shard_0;
          OnReconnect (canceled second_connector)] p0 = Ok p /\
    updown p = [OnPoolUp; OnPoolDown; OnPoolUp; OnPoolDown] /\
    last (updown p) = Some OnPoolDown.
Proof.
  do 2 eexists. split; [vm_compute; reflexivity|].
  split; [vm_compute; reflexivity|].
  split; [vm_compute; reflexivity|].
  match goal with |- last (updown ?p) = _ =>
    destruct (up_and_down_take_turns [busy_on_shard_0] (Some (sharding 2 12)) 2 _
                [CloseConnection busy_on_shard_0;
                 OnReconnect (connected busy_on_shard_0 first_connector);
                 Close; CloseConnection busy_on_shard_0;
                 OnReconnect (canceled second_connector)] p eq_refl eq_refl)
      as (_ & _ & H) end.
  apply H. vm_compute. reflexivity.
Defined.

(** ** Routing by token in a running pool *)

Section Routing.

Implicit Types (p q : ConnectionPool).

Lemma host_run_op o p p' :
  run_op p o = Ok p' -> host_sharding_info p' = host_sharding_info p.
Proof.
  destruct o as [|c|k]; simpl.
  - intros [= <-]. apply internal_close_data.
  - unfold close_connection.
    destruct (connections_by_shard_ p !! slot_index (conn_shard_id c)) as [s|];
      [|discriminate].
    simpl. destruct (negb (bool_decide (close_state_ p = CLOSE_STATE_OPEN)));
      intros [= <-].
    + now destruct (same_data_maybe_closed
                      (set_connections p
                         (<[slot_index (conn_shard_id c) := remove_connection c s]>
                            (connections_by_shard_ p)))) as (-> & _).
    + destruct (same_slots_schedule_reconnect None (Some (conn_shard_id c))
                  (notify_up_or_down
                     (set_connections p
                        (<[slot_index (conn_shard_id c) := remove_connection c s]>
                           (connections_by_shard_ p))))) as (-> & _).
      now destruct (same_data_notify_up_or_down
                      (set_connections p
                         (<[slot_index (conn_shard_id c) := remove_connection c s]>
                            (connections_by_shard_ p)))) as (-> & _).
  - unfold on_reconnect. simpl.
    destruct (reconnection_schedules_ p !! connector_id k) as [schedule|]; [|discriminate].
    set (q := set_schedules _ _).
    change (host_sharding_info p) with (host_sharding_info q).
    destruct (negb (bool_decide (close_state_ p = CLOSE_STATE_OPEN))).
    { intros [= <-]. apply same_data_maybe_closed. }
    destruct (is_ok k).
    + destruct (_ && _).
      * unfold add_connection.
        destruct (connections_by_shard_ q !! _) as [s|]; simpl; [|discriminate].
        intros [= <-].
        match goal with |- context [notify_up_or_down ?r] =>
          now destruct (same_data_notify_up_or_down r) as (-> & _) end.
      * intros [= <-].
        match goal with |- context [schedule_reconnect ?a ?b ?r] =>
          now destruct (same_slots_schedule_reconnect a b r) as (-> & _) end.
    + destruct (negb (is_canceled k)); [|now intros [= <-]].
      destruct (is_critical_error k); intros [= <-].
      * match goal with |- context [internal_close ?r] =>
          destruct (internal_close_data r) as (-> & _) end.
        apply same_data_notify_critical_error.
      * match goal with |- context [schedule_reconnect ?a ?b ?r] =>
          now destruct (same_slots_schedule_reconnect a b r) as (-> & _) end.
Qed.

Lemma host_exec ops p p' :
  exec ops p = Ok p' -> host_sharding_info p' = host_sharding_info p.
Proof.
  intros H.
  apply (foldM_keeps run_op
           (fun q => host_sharding_info q = host_sharding_info p)) with (l := ops) (s := p);
    [|exact H|reflexivity].
  intros s a s' E Hs. rewrite <- Hs. eapply host_run_op; eassumption.
Qed.

Lemma host_ConnectionPool_new connections si n p0 :
  ConnectionPool_new connections si n = Ok p0 -> host_sharding_info p0 = si.
Proof.
  intros H. apply ConnectionPool_new_shape in H as (p1 & Hfold & ->).
  match goal with |- context [fold_left reconnect_missing ?l ?q] =>
    destruct (reconnects_added_loop q l) as (_ & _ & -> & _) end.
  destruct (same_data_notify_up_or_down p1) as (-> & _).
  eapply (foldM_keeps place_connection (fun q => host_sharding_info q = si));
    [|exact Hfold|reflexivity].
  intros s a s'. unfold place_connection, add_connection.
  destruct (is_closing a); simpl; [now intros [= <-]|].
  destruct (connections_by_shard_ s !! slot_index (conn_shard_id a)); [|discriminate].
  destruct (_ <? _); now intros [= <-].
Qed.

(** The second branch of [find_least_busy] when the slot of the token's
    shard holds a connection that is not closing. *)
Lemma find_least_busy_in_slot p si token s slot x :
  host_sharding_info p = Some si ->
  token <> CASS_INT64_MIN ->
  shard_id si token = Ok s ->
  connections_by_shard_ p !! slot_index s = Some slot ->
  x ∈ slot -> is_closing x = false ->
  exists c, find_least_busy p token = Ok (Some c) /\
            c ∈ slot /\ is_closing c = false /\
            inflight_request_count c <= inflight_request_count x.
Proof.
  intros Hh Ht Hs Hslot Hx Hlive. unfold find_least_busy.
  rewrite Hh, Hs. simpl.
  destruct (Z.eqb_spec token CASS_INT64_MIN) as [|_]; [contradiction|]. simpl.
  rewrite Hslot.
  pose proof (min_element_spec slot) as Hmin.
  destruct (min_element least_busy_comp slot) as [it|].
  2:{ subst slot. now apply elem_of_nil in Hx. }
  destruct Hmin as (_ & [(_ & Hnone)|(Hit & l1 & l2 & -> & H1 & H2)]).
  { rewrite (Hnone x Hx) in Hlive. discriminate. }
  rewrite Hit. exists it. split; [reflexivity|].
  split; [apply elem_of_app; right; constructor|]. split; [assumption|].
  apply elem_of_app in Hx as [Hx|Hx].
  - specialize (H1 x Hx Hlive). lia.
  - apply elem_of_cons in Hx as [->|Hx]; [lia|]. now apply H2.
Qed.

End Routing.

(** X19.  Routing in a running pool.  Whatever calls follow the construction
    of a pool for a sharded host, a request with a token whose shard has a
    connection that is not closing is given a connection of that shard's
    slot that reports this very shard, is not closing, and has no more
    requests in flight than any other such connection of the shard. *)
Theorem tokens_are_routed_to_their_shard
  (connections : list PooledConnection) (si : ShardingInfo) (n : Z)
  (p0 : ConnectionPool) (ops : list op) (p : ConnectionPool)
  (token s : Z) (slot : list PooledConnection) (x : PooledConnection) :
  ConnectionPool_new connections (Some si) n = Ok p0 ->
  exec ops p0 = Ok p ->
  token <> CASS_INT64_MIN ->
  shard_id si token = Ok s ->
  connections_by_shard_ p !! slot_index s = Some slot ->
  x ∈ slot ->
  is_closing x = false ->
  exists c, find_least_busy p token = Ok (Some c) /\
            c ∈ slot /\
            is_closing c = false /\
            slot_index (conn_shard_id c) = slot_index s /\
            inflight_request_count c <= inflight_request_count x.
Proof.
  intros Hnew Hexec Ht Hs Hslot Hx Hlive.
  pose proof (shaped_exec _ _ _ _ _ Hexec (shaped_ConnectionPool_new _ _ _ _ Hnew))
    as (_ & _ & _ & Hby).
  assert (Hh : host_sharding_info p = Some si).
  { rewrite (host_exec _ _ _ Hexec). eapply host_ConnectionPool_new; eassumption. }
  destruct (find_least_busy_in_slot p si token s slot x Hh Ht Hs Hslot Hx Hlive)
    as (c & E & Hc & Hcl & Hle).
  exists c. split; [exact E|]. split; [exact Hc|]. split; [exact Hcl|].
  split; [eapply Hby; eassumption|exact Hle].
Qed.

Lemma tokens_are_routed_to_their_shard_witness :
  exists p0,
    ConnectionPool_new [busy_on_shard_0; idle_on_shard_1] (Some (sharding 2 12)) 2 = Ok p0 /\
    exec [] p0 = Ok p0 /\
    find_least_busy p0 0 = Ok (Some busy_on_shard_0).
Proof.
  eexists. split; [vm_compute; reflexivity|]. split; [reflexivity|].
  match goal with |- find_least_busy ?p _ = _ =>
    destruct (tokens_are_routed_to_their_shard [busy_on_shard_0; idle_on_shard_1]
                (sharding 2 12) 2 p [] p 0 0 [busy_on_shard_0] busy_on_shard_0)
      as (c & H1 & Hc & _) end.
  - vm_compute. reflexivity.
  - reflexivity.
  - discriminate.
  - vm_compute. reflexivity.
  - vm_compute. reflexivity.
  - constructor.
  - reflexivity.
  - apply list_elem_of_singleton in Hc. subst c. exact H1.
Defined.

(** ** An open pool keeps working towards its target *)

Section OnTarget.

Implicit Types (p q : ConnectionPool).













End OnTarget.



(** ** From the advertised ports to the reconnects *)

Lemma has_value_parse_int params key :
  has_value (parse_int params key) = true <-> exists v, params !! key = Some [v].
Proof.
  destruct (parse_int params key) as [z|] eqn:E; simpl.
  - apply parse_int_Some in E as (v & Hv & _). split; [eauto|reflexivity].
  - split; [discriminate|]. intros (v & Hv).
    assert (H : parse_int params key = Some (atoi v))
      by (apply parse_int_Some; eauto).
    congruence.
Qed.

Lemma constructor_wishes connections si n p0 k :
  ConnectionPool_new connections si n = Ok p0 ->
  k ∈ pending_connections_ p0 ->
  exists i, (i < length (connections_by_shard_ p0))%nat /\
            desired_shard_num k
            = if has_shard_aware_port si then Some (sint32 (Z.of_nat i)) else None.
Proof.
  intros H Hk. pose proof (host_ConnectionPool_new _ _ _ _ H) as Hh.
  apply ConnectionPool_new_shape in H as (p1 & Hfold & E).
  pose proof (place_connections_pending _ _ _ Hfold) as Hpend. simpl in Hpend.
  destruct (same_data_notify_up_or_down p1) as (Nh & Nc & _ & Np & _).
  set (q := notify_up_or_down p1) in *.
  pose proof (reconnect_loop_pending (seq 0 (length (connections_by_shard_ q))) q) as Hloop.
  destruct (reconnects_added_loop q (seq 0 (length (connections_by_shard_ q))))
    as (Rc & _ & Rh & _).
  rewrite <- E in Hloop, Rc, Rh. simpl in Hloop. clear E.
  rewrite Np, Hpend in Hloop. simpl in Hloop.
  assert (Hd : desired_shard_num k ∈ map desired_shard_num (pending_connections_ p0))
    by (apply list_elem_of_fmap; eauto).
  rewrite Hloop in Hd. apply list_elem_of_In, in_flat_map in Hd as (i & Hi & Hd).
  apply in_seq in Hi. apply list_elem_of_In, elem_of_replicate in Hd as (Hd & _).
  exists i. split; [rewrite Rc; lia|].
  rewrite Hd. unfold wished_shard. now rewrite <- Rh, Hh.
Qed.

(** X21.  From the options of a connection to the reconnects of the pool.
    For a host whose descriptor was parsed from [params], every connection
    attempt the constructor schedules names a desired shard, one of the
    pool's slots, exactly when the options hold a single value under
    SCYLLA_SHARD_AWARE_PORT or under SCYLLA_SHARD_AWARE_PORT_SSL, whatever
    that value reads as; otherwise none does. *)
Theorem advertised_port_decides_desired_shard
  (params : gmap string (list string)) (d : ConnectionShardingInfo)
  (connections : list PooledConnection) (n : Z) (p0 : ConnectionPool)
  (k : DelayedConnector) :
  parse_sharding_info params = Some d ->
  ConnectionPool_new connections (Some (csi_sharding_info d)) n = Ok p0 ->
  k ∈ pending_connections_ p0 ->
  (is_Some (desired_shard_num k) <->
   (exists v, params !! SCYLLA_SHARD_AWARE_PORT = Some [v]) \/
   (exists v, params !! SCYLLA_SHARD_AWARE_PORT_SSL = Some [v])) /\
  (forall s, desired_shard_num k = Some s ->
     exists i, (i < length (connections_by_shard_ p0))%nat /\ s = sint32 (Z.of_nat i)).
Proof.
  intros Hparse Hnew Hk.
  destruct (constructor_wishes _ _ _ _ _ Hnew Hk) as (i & Hi & Hd).
  apply parse_sharding_info_Some in Hparse as (a & b & e & _ & _ & _ & _ & _ & ->).
  simpl in Hd.
  rewrite <- !has_value_parse_int.
  destruct (has_value (parse_int params SCYLLA_SHARD_AWARE_PORT)),
           (has_value (parse_int params SCYLLA_SHARD_AWARE_PORT_SSL));
    simpl in Hd; rewrite Hd; (split; [split|]).
  all: try (intros _; eauto; fail).
  all: try (intros [? H]; discriminate H).
  all: try (intros [H|H]; discriminate H).
  all: try (intros s [= <-]; eauto).
  all: try (intros s H; discriminate H).
Qed.

Lemma advertised_port_decides_desired_shard_witness :
  exists p0 k,
    ConnectionPool_new []
      (Some (mkShardingInfo 2 Murmur3Partitioner biased_token_round_robin 12
               (Some 0) None)) 2 = Ok p0 /\
    k ∈ pending_connections_ p0 /\
    is_Some (desired_shard_num k).
Proof.
  eexists. eexists. split; [vm_compute; reflexivity|].
  split; [vm_compute; constructor|].
  match goal with |- is_Some (desired_shard_num ?k) =>
    eapply (advertised_port_decides_desired_shard
              (<[SCYLLA_SHARD_AWARE_PORT := ["none"]]>
                 (supported ["0"] ["2"] [Murmur3Partitioner] [biased_token_round_robin]
                    ["12"]))
              (mkConnectionShardingInfo 0
                 (mkShardingInfo 2 Murmur3Partitioner biased_token_round_robin 12
                    (Some 0) None))
              [] 2 _ k) end.
  - vm_compute. reflexivity.
  - vm_compute. reflexivity.
  - vm_compute. constructor.
  - left. exists "none". vm_compute. reflexivity.
Defined.

(** ** Flush requests *)

Section FlushRequests.

Implicit Types (st : FlushState) (c : nat).

Lemma asked_snoc tr e :
  asked (tr ++ [e]) = match e with OnRequiresFlush => true | ConnFlush _ => false end.
Proof. unfold asked. now rewrite fold_left_app. Qed.

Lemma asked_flushed tr l :
  asked (tr ++ map ConnFlush l) = if l is [] then asked tr else false.
Proof.
  induction l as [|c l _] using rev_ind; simpl; [now rewrite app_nil_r|].
  rewrite map_app, app_assoc. simpl. rewrite asked_snoc.
  now destruct l.
Qed.

Lemma asked_while_waiting_step st o :
  (to_flush_ st <> ∅ -> asked (flush_trace st) = true) ->
  to_flush_ (run_flush_op st o) <> ∅ -> asked (flush_trace (run_flush_op st o)) = true.
Proof.
  intros Hst. destruct o as [c| |c]; simpl.
  - unfold requires_flush.
    destruct (bool_decide_reflect (to_flush_ st = ∅)); simpl; intros _.
    + apply asked_snoc.
    + now apply Hst.
  - intros H. now contradiction H.
  - intros Hne. apply Hst. intros E. apply Hne. rewrite E. apply leibniz_equiv.
    apply subseteq_empty_difference, empty_subseteq.
Qed.

Lemma flush_emits st :
  exists es, flush_trace (flush st) = flush_trace st ++ es /\
             NoDup es /\
             forall e, e ∈ es <-> exists c, e = ConnFlush c /\ c ∈ to_flush_ st.
Proof.
  exists (map ConnFlush (elements (to_flush_ st))). split; [reflexivity|]. split.
  - apply NoDup_fmap_2_strong; [|apply NoDup_elements].
    intros x y _ _ [= ->]. reflexivity.
  - intros e. rewrite list_elem_of_fmap. setoid_rewrite elem_of_elements. reflexivity.
Qed.

Lemma not_flushed_step c st o :
  o <> RequiresFlush c ->
  c ∉ to_flush_ st ->
  (c ∉ to_flush_ (run_flush_op st o)) /\
  exists es, flush_trace (run_flush_op st o) = flush_trace st ++ es /\ ConnFlush c ∉ es.
Proof.
  intros Ho Hc. destruct o as [c'| |c']; simpl.
  - assert (Hne : c' <> c) by congruence. unfold requires_flush.
    destruct (bool_decide (to_flush_ st = ∅)); simpl.
    + split; [rewrite not_elem_of_union, not_elem_of_singleton; auto|].
      exists [OnRequiresFlush]. split; [reflexivity|].
      intros Hin. apply list_elem_of_singleton in Hin. discriminate.
    + split; [rewrite not_elem_of_union, not_elem_of_singleton; auto|].
      exists []. split; [now rewrite app_nil_r|apply not_elem_of_nil].
  - split; [apply not_elem_of_empty|].
    exists (map ConnFlush (elements (to_flush_ st))). split; [reflexivity|].
    intros Hin. apply list_elem_of_fmap in Hin as (x & [= <-] & Hx).
    apply elem_of_elements in Hx. contradiction.
  - split; [rewrite elem_of_difference; tauto|].
    exists []. split; [now rewrite app_nil_r|apply not_elem_of_nil].
Qed.

Lemma not_flushed_run c ops : forall st,
  Forall (fun o => o <> RequiresFlush c) ops ->
  c ∉ to_flush_ st ->
  (c ∉ to_flush_ (run_flush ops st)) /\
  exists es, flush_trace (run_flush ops st) = flush_trace st ++ es /\ ConnFlush c ∉ es.
Proof.
  induction ops as [|o ops IH]; intros st Hall Hc; simpl.
  - split; [assumption|]. exists []. split; [now rewrite app_nil_r|apply not_elem_of_nil].
  - apply Forall_cons in Hall as (Ho & Hall).
    destruct (not_flushed_step c st o Ho Hc) as (Hc' & es1 & E1 & H1).
    destruct (IH _ Hall Hc') as (Hc'' & es2 & E2 & H2).
    split; [exact Hc''|]. exists (es1 ++ es2).
    split; [now rewrite E2, E1, app_assoc|].
    intros H. apply elem_of_app in H as [H|H]; contradiction.
Qed.

End FlushRequests.

(** X22.  No flush request is lost.  After any sequence of flush requests,
    flushes and connection teardowns on a new pool, whenever a connection is
    waiting in [to_flush_] the listener has been told [on_requires_flush]
    since the last time connections were flushed; and a flush then flushes
    each waiting connection, once, and nothing else, and leaves none
    waiting. *)
Theorem no_flush_request_is_lost (ops : list flush_op) :
  (to_flush_ (run_flush ops nothing_to_flush) <> ∅ ->
   asked (flush_trace (run_flush ops nothing_to_flush)) = true) /\
  (exists es,
     flush_trace (run_flush (ops ++ [Flush]) nothing_to_flush)
     = flush_trace (run_flush ops nothing_to_flush) ++ es /\
     NoDup es /\
     (forall e, e ∈ es <->
        exists c, e = ConnFlush c /\ c ∈ to_flush_ (run_flush ops nothing_to_flush))) /\
  to_flush_ (run_flush (ops ++ [Flush]) nothing_to_flush) = ∅.
Proof.
  split; [|split].
  - unfold run_flush. induction ops as [|o ops IH] using rev_ind.
    + intros H. now contradiction H.
    + rewrite fold_left_app. simpl. now apply asked_while_waiting_step.
  - unfold run_flush. rewrite fold_left_app. simpl. apply flush_emits.
  - unfold run_flush. rewrite fold_left_app. reflexivity.
Qed.

(** X23.  A connection that has gone is not flushed.  From the teardown of a
    connection on, whatever requests, flushes and teardowns follow, the pool
    never calls [flush] on that connection, unless the connection itself asks
    for a flush again. *)
Theorem closed_connection_is_not_flushed
  (c : nat) (before after : list flush_op) :
  Forall (fun o => o <> RequiresFlush c) after ->
  (c ∉ to_flush_ (run_flush (before ++ ConnectionClosed c :: after) nothing_to_flush)) /\
  exists es,
    flush_trace (run_flush (before ++ ConnectionClosed c :: after) nothing_to_flush)
    = flush_trace (run_flush before nothing_to_flush) ++ es /\
    ConnFlush c ∉ es.
Proof.
  intros Hall. unfold run_flush. rewrite fold_left_app. simpl.
  set (st := fold_left run_flush_op before nothing_to_flush).
  apply (not_flushed_run c after (erase_to_flush c st) Hall).
  simpl. rewrite elem_of_difference, elem_of_singleton. tauto.
Qed.

Lemma closed_connection_is_not_flushed_witness :
  exists es,
    flush_trace
      (run_flush [RequiresFlush 1; ConnectionClosed 1; RequiresFlush 2; Flush]
         nothing_to_flush)
    = flush_trace (run_flush [RequiresFlush 1] nothing_to_flush) ++ es /\
    es = [OnRequiresFlush; ConnFlush 2].
Proof.
  destruct (closed_connection_is_not_flushed 1 [RequiresFlush 1] [RequiresFlush 2; Flush])
    as (_ & es & E & _).
  - repeat constructor; discriminate.
  - exists es. split; [exact E|].
    vm_compute in E. now injection E as <-.
Defined.

(** ** Reconnection schedules give their delays in sequence *)

Section InSequence.

Implicit Types (p q : ConnectionPool) (s : ReconnectionSchedule).

Lemma delays_asked_app sid tr es :
  delays_asked sid (tr ++ es) = delays_asked sid tr ++ delays_asked sid es.
Proof. apply flat_map_app. Qed.

Lemma delays_asked_quiet sid es :
  Forall (fun e => is_delayed_connect e = false) es -> delays_asked sid es = [].
Proof.
  induction 1 as [|e es He _ IH]; simpl; [reflexivity|].
  destruct e; try discriminate; exact IH.
Qed.

Lemma same_schedules_refl p : same_schedules p p.
Proof.
  split; [reflexivity|]. split; [reflexivity|].
  exists []. split; [now rewrite app_nil_r|constructor].
Qed.

Lemma same_schedules_trans p q r :
  same_schedules p q -> same_schedules q r -> same_schedules p r.
Proof.
  intros (A1 & A2 & es1 & A3 & A4) (B1 & B2 & es2 & B3 & B4).
  split; [congruence|]. split; [congruence|].
  exists (es1 ++ es2). split; [now rewrite B3, A3, app_assoc|].
  apply Forall_app; split; assumption.
Qed.

Lemma same_schedules_asked p q sid :
  same_schedules p q -> delays_asked sid (trace q) = delays_asked sid (trace p).
Proof.
  intros (_ & _ & es & -> & Hes).
  now rewrite delays_asked_app, (delays_asked_quiet sid es Hes), app_nil_r.
Qed.

Lemma in_sequence_same p q : same_schedules p q -> in_sequence p -> in_sequence q.
Proof.
  intros Hs (A & B & C & D). pose proof Hs as (E1 & E2 & _).
  unfold in_sequence. rewrite E1, E2.
  split; [|split; [|split]].
  - intros sid. rewrite (same_schedules_asked p q sid Hs). apply A.
  - intros sid. rewrite (same_schedules_asked p q sid Hs). apply B.
  - intros id s. rewrite (same_schedules_asked p q _ Hs). apply C.
  - exact D.
Qed.

Lemma detached_same s p q : same_schedules p q -> detached s p -> detached s q.
Proof.
  intros Hs (A & B & C). pose proof Hs as (E1 & E2 & _).
  unfold detached. rewrite E1, E2, (same_schedules_asked p q _ Hs). auto.
Qed.

Lemma same_schedules_maybe_closed p : same_schedules p (maybe_closed p).
Proof.
  destruct (same_data_maybe_closed p) as (_ & _ & _ & _ & E1 & _ & E2).
  split; [exact E1|]. split; [exact E2|].
  destruct (maybe_closed_moves p) as (_ & [[_ ->]|(_ & _ & ->)]).
  - exists []. split; [now rewrite app_nil_r|constructor].
  - eexists. split; [reflexivity|]. unfold closing_tail.
    destruct (bool_decide _); repeat constructor.
Qed.

Lemma same_schedules_notify_up_or_down p : same_schedules p (notify_up_or_down p).
Proof.
  destruct (notify_up_or_down_keeps p) as (_ & _ & _ & _ & E1 & _ & E2 & es & Et & Hes).
  split; [exact E1|]. split; [exact E2|]. exists es. split; [exact Et|].
  eapply Forall_impl; [exact Hes|]. intros e [->| ->]; reflexivity.
Qed.

Lemma same_schedules_notify_critical_error code message p :
  same_schedules p (notify_critical_error code message p).
Proof.
  unfold notify_critical_error. destruct (negb _); [|apply same_schedules_refl].
  split; [reflexivity|]. split; [reflexivity|].
  eexists. split; [reflexivity|]. repeat constructor.
Qed.

Lemma same_schedules_internal_close p : same_schedules p (internal_close p).
Proof.
  unfold internal_close.
  destruct (bool_decide (close_state_ p = CLOSE_STATE_OPEN)); [|apply same_schedules_refl].
  eapply same_schedules_trans; [|apply same_schedules_maybe_closed].
  split; [reflexivity|]. split; [reflexivity|]. simpl.
  eexists. split; [rewrite <- app_assoc; reflexivity|].
  apply Forall_app; split; apply Forall_map, Forall_forall; reflexivity.
Qed.

(** A new schedule gives its first delay. *)
Lemma in_sequence_fresh desired p :
  in_sequence p -> in_sequence (schedule_reconnect None desired p).
Proof.
  intros (A & B & C & D). unfold in_sequence, schedule_reconnect. simpl.
  split; [|split; [|split]].
  - intros sid. rewrite delays_asked_app. simpl.
    destruct (decide (next_schedule p = sid)) as [<-|Hne]; simpl.
    + rewrite (B (next_schedule p)) by lia. now exists 1%nat.
    + rewrite app_nil_r. apply A.
  - intros sid Hsid. rewrite delays_asked_app. simpl.
    rewrite decide_False by lia. rewrite app_nil_r. apply B. lia.
  - intros id s Hs. rewrite delays_asked_app. simpl.
    destruct (decide (id = next_connector p)) as [->|Hne].
    + rewrite lookup_insert_eq in Hs. injection Hs as <-. simpl.
      rewrite decide_True by reflexivity. rewrite (B (next_schedule p)) by lia.
      split; [lia|reflexivity].
    + rewrite lookup_insert_ne in Hs by congruence.
      destruct (C id s Hs) as (C1 & C2).
      rewrite decide_False by lia. rewrite app_nil_r. split; [lia|exact C2].
  - intros id1 id2 s1 s2 H1 H2 E.
    destruct (decide (id1 = next_connector p)) as [->|Hne1];
      destruct (decide (id2 = next_connector p)) as [->|Hne2]; [reflexivity| | |].
    + rewrite lookup_insert_eq in H1. injection H1 as <-.
      rewrite lookup_insert_ne in H2 by congruence.
      destruct (C id2 s2 H2) as (C1 & _). simpl in E. lia.
    + rewrite lookup_insert_eq in H2. injection H2 as <-.
      rewrite lookup_insert_ne in H1 by congruence.
      destruct (C id1 s1 H1) as (C1 & _). simpl in E. lia.
    + rewrite lookup_insert_ne in H1, H2 by congruence. eapply D; eassumption.
Qed.

(** A schedule that is handed over gives its next delay. *)
Lemma in_sequence_reuse s desired p :
  in_sequence p -> detached s p -> in_sequence (schedule_reconnect (Some s) desired p).
Proof.
  intros (A & B & C & D) (S1 & S2 & S3). unfold in_sequence, schedule_reconnect. simpl.
  split; [|split; [|split]].
  - intros sid. rewrite delays_asked_app. simpl.
    destruct (decide (schedule_id s = sid)) as [<-|Hne]; simpl.
    + rewrite S2. exists (S (delays_taken s)). now rewrite seq_S.
    + rewrite app_nil_r. apply A.
  - intros sid Hsid. rewrite delays_asked_app. simpl.
    rewrite decide_False by lia. rewrite app_nil_r. now apply B.
  - intros id s' Hs. rewrite delays_asked_app. simpl.
    destruct (decide (id = next_connector p)) as [->|Hne].
    + rewrite lookup_insert_eq in Hs. injection Hs as <-.
      unfold next_delay_ms. cbn [schedule_id delays_taken].
      rewrite decide_True by reflexivity. rewrite S2.
      split; [exact S1|now rewrite seq_S].
    + rewrite lookup_insert_ne in Hs by congruence.
      destruct (C id s' Hs) as (C1 & C2).
      rewrite decide_False by (intros E; apply (S3 id s' Hs); congruence).
      rewrite app_nil_r. split; assumption.
  - intros id1 id2 s1 s2 H1 H2 E.
    destruct (decide (id1 = next_connector p)) as [->|Hne1];
      destruct (decide (id2 = next_connector p)) as [->|Hne2]; [reflexivity| | |].
    + rewrite lookup_insert_eq in H1. injection H1 as <-.
      rewrite lookup_insert_ne in H2 by congruence.
      exfalso. apply (S3 id2 s2 H2). simpl in E. congruence.
    + rewrite lookup_insert_eq in H2. injection H2 as <-.
      rewrite lookup_insert_ne in H1 by congruence.
      exfalso. apply (S3 id1 s1 H1). simpl in E. congruence.
    + rewrite lookup_insert_ne in H1, H2 by congruence. eapply D; eassumption.
Qed.

(** Taking the schedule of a connector off the file. *)
Lemma in_sequence_take k p s :
  reconnection_schedules_ p !! connector_id k = Some s ->
  in_sequence p ->
  let q := set_schedules (set_pending p (remove_connector k (pending_connections_ p)))
             (delete (connector_id k) (reconnection_schedules_ p)) in
  in_sequence q /\ detached s q.
Proof.
  intros Hs (A & B & C & D). simpl. split.
  - split; [exact A|]. split; [exact B|]. simpl. split.
    + intros id s' H. apply lookup_delete_Some in H as (_ & H). now apply (C id).
    + intros id1 id2 s1 s2 H1 H2.
      apply lookup_delete_Some in H1 as (_ & H1).
      apply lookup_delete_Some in H2 as (_ & H2). eapply D; eassumption.
  - destruct (C _ _ Hs) as (C1 & C2). split; [exact C1|]. split; [exact C2|].
    simpl. intros id s' H E. apply lookup_delete_Some in H as (Hne & H).
    apply Hne. symmetry. eapply D; eassumption.
Qed.

Lemma in_sequence_ext p q :
  reconnection_schedules_ q = reconnection_schedules_ p ->
  next_schedule q = next_schedule p ->
  trace q = trace p ->
  in_sequence p -> in_sequence q.
Proof. unfold in_sequence. now intros -> -> ->. Qed.

Lemma in_sequence_run_op o p p' : run_op p o = Ok p' -> in_sequence p -> in_sequence p'.
Proof.
  destruct o as [|c|k]; simpl.
  - intros [= <-]. apply in_sequence_same, same_schedules_internal_close.
  - unfold close_connection.
    destruct (connections_by_shard_ p !! slot_index (conn_shard_id c)) as [s|];
      [|discriminate].
    simpl. intros H Hp.
    destruct (negb (bool_decide (close_state_ p = CLOSE_STATE_OPEN)));
      injection H as <-.
    + eapply in_sequence_same; [apply same_schedules_maybe_closed|].
      eapply in_sequence_ext; [| | |exact Hp]; reflexivity.
    + apply in_sequence_fresh.
      eapply in_sequence_same; [apply same_schedules_notify_up_or_down|].
      eapply in_sequence_ext; [| | |exact Hp]; reflexivity.
  - unfold on_reconnect. simpl.
    destruct (reconnection_schedules_ p !! connector_id k) as [schedule|] eqn:Hs;
      [|discriminate].
    intros H Hp. destruct (in_sequence_take k p schedule Hs Hp) as (Hq & Hd).
    set (q := set_schedules _ _) in *.
    revert H. simpl.
    destruct (negb (bool_decide (close_state_ p = CLOSE_STATE_OPEN))).
    { intros [= <-]. eapply in_sequence_same; [apply same_schedules_maybe_closed|exact Hq]. }
    destruct (is_ok k).
    + destruct (_ && _).
      * unfold add_connection.
        destruct (connections_by_shard_ q !! _) as [s|]; simpl; [|discriminate].
        intros [= <-].
        eapply in_sequence_same; [apply same_schedules_notify_up_or_down|].
        eapply in_sequence_ext; [| | |exact Hq]; reflexivity.
      * intros [= <-].
        assert (Hsame : same_schedules q
                          (emit q [ConnClose (conn_id (release_connection k))])).
        { split; [reflexivity|]. split; [reflexivity|].
          eexists. split; [reflexivity|]. repeat constructor. }
        apply in_sequence_reuse.
        -- eapply in_sequence_same; eassumption.
        -- eapply detached_same; eassumption.
    + destruct (negb (is_canceled k)); [|now intros [= <-]].
      destruct (is_critical_error k); intros [= <-].
      * eapply in_sequence_same; [apply same_schedules_internal_close|].
        eapply in_sequence_same; [apply same_schedules_notify_critical_error|exact Hq].
      * now apply in_sequence_reuse.
Qed.

Lemma in_sequence_ConnectionPool_new connections si n p0 :
  ConnectionPool_new connections si n = Ok p0 -> in_sequence p0.
Proof.
  intros H. apply ConnectionPool_new_shape in H as (p1 & Hfold & ->).
  assert (Hloop : forall shards p,
            in_sequence p -> in_sequence (fold_left reconnect_missing shards p)).
  { intros shards. induction shards as [|i shards IH]; intros p Hp; simpl;
      [assumption|].
    apply IH. unfold reconnect_missing.
    generalize (Z.to_nat
                  (sint32 (wrap64 (num_connections_per_shard_ p
                     - Z.of_nat (length (default [] (connections_by_shard_ p !! i))))))).
    intros m. induction m as [|m IHm]; simpl; [assumption|].
    destruct (has_shard_aware_port (host_sharding_info _)); now apply in_sequence_fresh. }
  apply Hloop.
  eapply in_sequence_same; [apply same_schedules_notify_up_or_down|].
  eapply (foldM_keeps place_connection in_sequence); [|exact Hfold|].
  - intros s a s'. unfold place_connection, add_connection.
    destruct (is_closing a); simpl; [now intros [= <-]|].
    destruct (connections_by_shard_ s !! slot_index (conn_shard_id a)); [|discriminate].
    destruct (_ <? _); intros [= <-] Hs.
    + eapply in_sequence_ext; [| | |exact Hs]; reflexivity.
    + eapply in_sequence_same; [|exact Hs].
      split; [reflexivity|]. split; [reflexivity|].
      eexists. split; [reflexivity|]. repeat constructor.
  - split; [|split; [|split]]; simpl.
    + intros sid. now exists 0%nat.
    + reflexivity.
    + intros id s Hs. now rewrite lookup_empty in Hs.
    + intros id1 id2 s1 s2 Hs. now rewrite lookup_empty in Hs.
Qed.

End InSequence.

(** X24.  Reconnection schedules give their delays in sequence.  Whatever
    calls follow the construction, each schedule has been asked for its
    first, second, third ... delay in this order, none twice and none
    skipped; the schedule filed for a pending connector has been asked for
    exactly the delays it has given, at least one; and no two pending
    connectors share a schedule. *)
Theorem schedules_give_delays_in_sequence
  (connections : list PooledConnection) (si : option ShardingInfo) (n : Z)
  (p0 : ConnectionPool) (ops : list op) (p : ConnectionPool) :
  ConnectionPool_new connections si n = Ok p0 ->
  exec ops p0 = Ok p ->
  (forall sid, exists m, delays_asked sid (trace p) = seq 0 m) /\
  (forall k, k ∈ pending_connections_ p ->
     exists s, reconnection_schedules_ p !! connector_id k = Some s /\
               delays_asked (schedule_id s) (trace p) = seq 0 (delays_taken s)) /\
  (forall k1 k2 s1 s2,
     k1 ∈ pending_connections_ p -> k2 ∈ pending_connections_ p ->
     reconnection_schedules_ p !! connector_id k1 = Some s1 ->
     reconnection_schedules_ p !! connector_id k2 = Some s2 ->
     schedule_id s1 = schedule_id s2 -> connector_id k1 = connector_id k2).
Proof.
  intros Hnew Hexec.
  assert (H : in_sequence p).
  { apply (foldM_keeps run_op in_sequence) with (l := ops) (s := p0); [|exact Hexec|].
    - intros s a s' E. eapply in_sequence_run_op; eassumption.
    - eapply in_sequence_ConnectionPool_new; eassumption. }
  pose proof (schedules_owned_exec _ _ _ Hexec
                (schedules_owned_ConnectionPool_new _ _ _ _ Hnew))
    as ((_ & Hall) & _).
  destruct H as (A & _ & C & D).
  split; [exact A|]. split.
  - intros k Hk. destruct (Hall k Hk) as (_ & s & Hs).
    exists s. split; [exact Hs|]. now apply (C _ _ Hs).
  - intros k1 k2 s1 s2 _ _. apply D.
Qed.

Lemma schedules_give_delays_in_sequence_witness :
  exists p0 p,
    ConnectionPool_new [] None 1 = Ok p0 /\
    exec [OnReconnect (failed_transiently 1 "refused" first_connector);
          OnReconnect (failed_transiently 1 "refused" second_connector)] p0 = Ok p /\
    delays_asked 0 (trace p) = [0; 1; 2]%nat.
Proof.
  do 2 eexists. split; [vm_compute; reflexivity|].
  split; [vm_compute; reflexivity|].
  match goal with |- delays_asked _ (trace ?p) = _ =>
    destruct (schedules_give_delays_in_sequence [] None 1 _
                [OnReconnect (failed_transiently 1 "refused" first_connector);
                 OnReconnect (failed_transiently 1 "refused" second_connector)] p
                ltac:(vm_compute; reflexivity) ltac:(vm_compute; reflexivity))
      as (H & _) end.
  destruct (H 0%nat) as (m & Hm). vm_compute in Hm.
  destruct m as [|[|[|[|m]]]]; try discriminate. reflexivity.
Defined.

(** ** Routing is defined in a running pool *)

Lemma length_slots_ConnectionPool_new connections si n p0 :
  ConnectionPool_new connections si n = Ok p0 ->
  length (connections_by_shard_ p0) = Z.to_nat (host_shard_slots si).
Proof.
  intros H. apply ConnectionPool_new_shape in H as (p1 & Hfold & ->).
  pose proof (placed_fold _ _ _ _ _ _ (placed_initial _ _ _ _) Hfold) as (Hlen & _).
  match goal with |- context [fold_left reconnect_missing ?l ?q] =>
    destruct (reconnects_added_loop q l) as (-> & _) end.
  now destruct (same_data_notify_up_or_down p1) as (_ & -> & _).
Qed.

Lemma find_least_busy_defined p token :
  covers_host p -> is_Ok (find_least_busy p token).
Proof.
  intros Hwf. unfold find_least_busy, is_Ok.
  destruct (Z.eqb_spec token CASS_INT64_MIN) as [|_]; simpl; [eauto|].
  unfold covers_host in Hwf.
  destruct (host_sharding_info p) as [si|]; simpl; [|eauto].
  destruct Hwf as ((Hn & Hm) & Hlen).
  rewrite (shard_id_correct si token Hn Hm). cbn [mbind outcome_bind obind].
  assert (Hrange : 0 <= shard_id_reference token (shards_count si)
                          (sharding_ignore_MSB si) < shards_count si)
    by (apply shard_id_reference_range; lia).
  set (s := shard_id_reference token (shards_count si) (sharding_ignore_MSB si)) in *.
  rewrite (slot_index_in_range s (shards_count si)) by lia.
  destruct (lookup_lt_is_Some_2 (connections_by_shard_ p) (Z.to_nat s)) as [slot ->];
    [lia|].
  destruct (min_element least_busy_comp slot) as [it|]; [|eauto].
  destruct (is_closing it); eauto.
Qed.

(** X25.  Routing reaches a slot in a running pool.  For a host without a
    descriptor, or with one whose shard count is from 1 to 2^31 and whose
    shift count is from 0 to 63, whatever calls follow the construction the
    pool has one slot per shard of the host, and [find_least_busy] returns
    for every token: the shift count is in range and the slot it indexes
    exists.  Signed overflow in [shard_id] is taken with wrap-around, as
    everywhere in this file; the statement is about the shift count and the
    index, not about that overflow. *)
Theorem routing_is_defined_in_a_running_pool
  (connections : list PooledConnection) (si : option ShardingInfo) (n : Z)
  (p0 : ConnectionPool) (ops : list op) (p : ConnectionPool) (token : Z) :
  ConnectionPool_new connections si n = Ok p0 ->
  (forall s, si = Some s -> usable s) ->
  exec ops p0 = Ok p ->
  covers_host p /\ is_Ok (find_least_busy p token).
Proof.
  intros Hnew Hus Hexec.
  assert (Hwf : covers_host p).
  { unfold covers_host.
    rewrite (host_exec _ _ _ Hexec), (host_ConnectionPool_new _ _ _ _ Hnew).
    destruct si as [s|]; [|exact I].
    pose proof (Hus s eq_refl) as Hs. split; [exact Hs|].
    pose proof (shaped_exec _ _ _ _ _ Hexec (shaped_ConnectionPool_new _ _ _ _ Hnew))
      as (-> & _).
    rewrite (length_slots_ConnectionPool_new _ _ _ _ Hnew). simpl.
    unfold get_shards_count. destruct Hs as ((H1 & _) & _). lia. }
  split; [exact Hwf|]. now apply find_least_busy_defined.
Qed.

Lemma routing_is_defined_in_a_running_pool_witness :
  exists p0 p,
    ConnectionPool_new [busy_on_shard_0] (Some (sharding 2 12)) 2 = Ok p0 /\
    exec [CloseConnection busy_on_shard_0] p0 = Ok p /\
    is_Ok (find_least_busy p 42).
Proof.
  do 2 eexists. split; [vm_compute; reflexivity|].
  split; [vm_compute; reflexivity|].
  eapply (routing_is_defined_in_a_running_pool [busy_on_shard_0]
            (Some (sharding 2 12)) 2 _ [CloseConnection busy_on_shard_0]).
  - vm_compute. reflexivity.
  - intros s [= <-]. unfold usable. simpl. lia.
  - vm_compute. reflexivity.
Defined.
